(** * go-diff (package dmp): diff, match and cleanup routines

    A shallow embedding of the Go sources under [dmp/] and of the parts of
    the Go standard library they call ([unicode/utf8], [strings],
    [strconv], [net/url]).

    Conventions.
    - A Go [string] is an immutable sequence of bytes: [gostring] is a
      list of integers in [0, 255].  [len(s)] is the number of bytes and
      [s[a:b]] slices bytes.
    - A [rune] is an [int32]; [[]rune(s)] decodes UTF-8 and maps every
      byte that does not start a well-formed encoding to U+FFFD.
    - Go [int] values that are lengths and indices of slices are far from
      the 64-bit bounds and are written as [Z]; where a value is parsed
      from the input ([DiffFromDelta]) the wrap-around is written out.
    - A run-time panic (index or slice bounds out of range) is the result
      [Panic]; loops and recursion are bounded by a fuel argument and
      give [OutOfFuel] when it does not suffice.
    - [min] and [max] on [int] are [Z.min] and [Z.max].
    - [[]Diff] values are modelled by value.  The functions below update
      their argument in place in Go, but no caller reads an argument
      again after the call. *)

From Stdlib Require Import ZArith List Bool Lia.
Import ListNotations.
Open Scope Z_scope.

(** ** Results of partial computations *)

Inductive result (A : Type) : Type :=
| Ok (a : A)
| Panic
| OutOfFuel.
Arguments Ok {A} a.
Arguments Panic {A}.
Arguments OutOfFuel {A}.

Definition bind {A B} (m : result A) (k : A -> result B) : result B :=
  match m with
  | Ok a => k a
  | Panic => Panic
  | OutOfFuel => OutOfFuel
  end.

Notation "x <- m ;; k" := (bind m (fun x => k))
  (at level 61, m at next level, right associativity).
Notation "' p <- m ;; k" := (bind m (fun x => let 'p := x in k))
  (at level 61, p pattern, m at next level, right associativity).

(** ** Bytes, strings, runes and slices *)

Abbreviation byte := Z (only parsing).
Abbreviation gostring := (list Z) (only parsing).
Abbreviation rune := Z (only parsing).

Definition len {A} (s : list A) : Z := Z.of_nat (length s).

(** [s[lo:hi]] when the bounds are in range. *)
Definition slice {A} (s : list A) (lo hi : Z) : list A :=
  firstn (Z.to_nat (hi - lo)) (skipn (Z.to_nat lo) s).

(** [s[lo:hi]] as Go evaluates it: a panic unless [0 <= lo <= hi <= len(s)]. *)
Definition slice_chk {A} (s : list A) (lo hi : Z) : result (list A) :=
  if (0 <=? lo) && (lo <=? hi) && (hi <=? len s)
  then Ok (slice s lo hi) else Panic.

(** [s[i]]: a panic unless [0 <= i < len(s)]. *)
Definition index {A} (s : list A) (i : Z) : result A :=
  if (0 <=? i) && (i <? len s)
  then match nth_error s (Z.to_nat i) with
       | Some a => Ok a
       | None => Panic
       end
  else Panic.

(** [s[i] = v]. *)
Definition store {A} (s : list A) (i : Z) (v : A) : result (list A) :=
  if (0 <=? i) && (i <? len s)
  then Ok (firstn (Z.to_nat i) s ++ v :: skipn (S (Z.to_nat i)) s)
  else Panic.

Fixpoint streq (a b : gostring) : bool :=
  match a, b with
  | [], [] => true
  | x :: a', y :: b' => (x =? y) && streq a' b'
  | _, _ => false
  end.

(** ** unicode/utf8 *)

Definition RuneError : rune := 0xFFFD.
Definition locb : byte := 0x80.
Definition hicb : byte := 0xBF.

Definition between (lo hi b : Z) : bool := (lo <=? b) && (b <=? hi).

(** Bounds that the second byte of a multi-byte encoding must meet, by
    leading byte (the [acceptRanges] table). *)
Definition accept_lo (b0 : byte) : byte :=
  if b0 =? 0xE0 then 0xA0 else if b0 =? 0xF0 then 0x90 else locb.
Definition accept_hi (b0 : byte) : byte :=
  if b0 =? 0xED then 0x9F else if b0 =? 0xF4 then 0x8F else hicb.

(** [utf8.DecodeRuneInString]: the first rune of [s] and its width in
    bytes; [(RuneError, 1)] when [s] does not start with a well-formed
    encoding and [(RuneError, 0)] when [s] is empty. *)
Definition DecodeRuneInString (s : gostring) : rune * Z :=
  match s with
  | [] => (RuneError, 0)
  | s0 :: t =>
    if s0 <? 0x80 then (s0, 1)
    else if (s0 <? 0xC2) || (0xF4 <? s0) then (RuneError, 1)
    else
      match t with
      | [] => (RuneError, 1)
      | s1 :: t1 =>
        if negb (between (accept_lo s0) (accept_hi s0) s1) then (RuneError, 1)
        else if s0 <? 0xE0 then
          (Z.lor (Z.shiftl (Z.land s0 0x1F) 6) (Z.land s1 0x3F), 2)
        else
          match t1 with
          | [] => (RuneError, 1)
          | s2 :: t2 =>
            if negb (between locb hicb s2) then (RuneError, 1)
            else if s0 <? 0xF0 then
              (Z.lor (Z.lor (Z.shiftl (Z.land s0 0x0F) 12)
                            (Z.shiftl (Z.land s1 0x3F) 6))
                     (Z.land s2 0x3F), 3)
            else
              match t2 with
              | [] => (RuneError, 1)
              | s3 :: _ =>
                if negb (between locb hicb s3) then (RuneError, 1)
                else
                  (Z.lor (Z.lor (Z.lor (Z.shiftl (Z.land s0 0x07) 18)
                                       (Z.shiftl (Z.land s1 0x3F) 12))
                                (Z.shiftl (Z.land s2 0x3F) 6))
                         (Z.land s3 0x3F), 4)
              end
          end
      end
  end.

(** [[]rune(s)]: decode rune after rune.  Every step consumes at least
    one byte, so the length of [s] is enough fuel. *)
Fixpoint runes_fuel (fuel : nat) (s : gostring) : list rune :=
  match fuel with
  | O => []
  | S fuel' =>
    match s with
    | [] => []
    | _ =>
      let '(r, sz) := DecodeRuneInString s in
      r :: runes_fuel fuel' (skipn (Z.to_nat sz) s)
    end
  end.

Definition runes (s : gostring) : list rune := runes_fuel (length s) s.

(** [utf8.EncodeRune] / [string(r)]: surrogates and values out of range
    are encoded as U+FFFD. *)
Definition encode_rune (r : rune) : gostring :=
  if (0 <=? r) && (r <? 0x80) then [r]
  else if (0x80 <=? r) && (r <? 0x800) then
    [Z.lor 0xC0 (Z.shiftr r 6); Z.lor 0x80 (Z.land r 0x3F)]
  else if (0x800 <=? r) && (r <? 0x10000) && negb (between 0xD800 0xDFFF r) then
    [Z.lor 0xE0 (Z.shiftr r 12);
     Z.lor 0x80 (Z.land (Z.shiftr r 6) 0x3F);
     Z.lor 0x80 (Z.land r 0x3F)]
  else if (0x10000 <=? r) && (r <=? 0x10FFFF) then
    [Z.lor 0xF0 (Z.shiftr r 18);
     Z.lor 0x80 (Z.land (Z.shiftr r 12) 0x3F);
     Z.lor 0x80 (Z.land (Z.shiftr r 6) 0x3F);
     Z.lor 0x80 (Z.land r 0x3F)]
  else [0xEF; 0xBF; 0xBD].

(** [string(rs)] for a rune slice. *)
Definition string_of_runes (rs : list rune) : gostring :=
  flat_map encode_rune rs.

(** [utf8.ValidString]. *)
Fixpoint valid_fuel (fuel : nat) (s : gostring) : bool :=
  match fuel with
  | O => match s with [] => true | _ => false end
  | S fuel' =>
    match s with
    | [] => true
    | _ =>
      let '(r, sz) := DecodeRuneInString s in
      if (r =? RuneError) && (sz =? 1) then false
      else valid_fuel fuel' (skipn (Z.to_nat sz) s)
    end
  end.

Definition ValidString (s : gostring) : bool := valid_fuel (length s) s.

(** [utf8.RuneStart]. *)
Definition RuneStart (b : byte) : bool := negb (Z.land b 0xC0 =? 0x80).

(** The backward scan of [utf8.DecodeLastRuneInString]:
    [for start--; start >= lim; start-- { if RuneStart(s[start]) { break } }],
    entered at [start] after the first decrement; at most [utf8.UTFMax]
    bytes are inspected. *)
Fixpoint last_rune_start (n : nat) (s : gostring) (lim start : Z) : Z :=
  match n with
  | O => start
  | S n' =>
    if start <? lim then start
    else if RuneStart (nth (Z.to_nat start) s 0) then start
    else last_rune_start n' s lim (start - 1)
  end.

(** [utf8.DecodeLastRuneInString]. *)
Definition DecodeLastRuneInString (s : gostring) : rune * Z :=
  let end_ := len s in
  if end_ =? 0 then (RuneError, 0)
  else
    let start := end_ - 1 in
    let r := nth (Z.to_nat start) s 0 in
    if r <? 0x80 then (r, 1)
    else
      let lim := Z.max 0 (end_ - 4) in
      let start := last_rune_start 4 s lim (start - 1) in
      let start := if start <? 0 then 0 else start in
      let '(r, size) := DecodeRuneInString (slice s start end_) in
      if negb (start + size =? end_) then (RuneError, 1) else (r, size).

(** ** diff.go: the diff script *)

(** Modelled from the spec: [Operation], missing from the sources; "tagged
    value with three variants: Equal, Insert, Delete" (section 3).  The
    three constants are the ones the code switches on. *)
Inductive Operation : Type := DiffDelete | DiffInsert | DiffEqual.

Definition op_eqb (a b : Operation) : bool :=
  match a, b with
  | DiffDelete, DiffDelete | DiffInsert, DiffInsert | DiffEqual, DiffEqual => true
  | _, _ => false
  end.

Record Diff : Type := mkDiff { Type_ : Operation; Text : gostring }.

Definition diffEq (s : gostring) : Diff := mkDiff DiffEqual s.
Definition diffPrepend (head : Diff) (diffs : list Diff) : list Diff := head :: diffs.
Definition diffAppend (diffs : list Diff) (tail : Diff) : list Diff := diffs ++ [tail].

Definition diff_eqb (a b : Diff) : bool :=
  op_eqb (Type_ a) (Type_ b) && streq (Text a) (Text b).

Fixpoint diffs_eqb (a b : list Diff) : bool :=
  match a, b with
  | [], [] => true
  | x :: a', y :: b' => diff_eqb x y && diffs_eqb a' b'
  | _, _ => false
  end.

(** splice.go:
    [append(slice[:index], append(elements, slice[index+amount:]...)...)] *)
Definition splice (sl : list Diff) (index amount : Z) (elements : list Diff)
  : result (list Diff) :=
  tl <- slice_chk sl (index + amount) (len sl) ;;
  hd <- slice_chk sl 0 index ;;
  Ok (hd ++ elements ++ tl).

(** ** diff_text.go *)

Fixpoint DiffText1 (diffs : list Diff) : gostring :=
  match diffs with
  | [] => []
  | d :: rest =>
    if negb (op_eqb (Type_ d) DiffInsert) then Text d ++ DiffText1 rest
    else DiffText1 rest
  end.

Fixpoint DiffText2 (diffs : list Diff) : gostring :=
  match diffs with
  | [] => []
  | d :: rest =>
    if negb (op_eqb (Type_ d) DiffDelete) then Text d ++ DiffText2 rest
    else DiffText2 rest
  end.

(** ** Common prefix and suffix of rune slices *)

(** [commonPrefixLength]: the index of the first position at which the
    shorter slice differs from the longer one, else its length. *)
Fixpoint commonPrefixLength (text1 text2 : list rune) : Z :=
  match text1, text2 with
  | r1 :: t1, r2 :: t2 => if r1 =? r2 then 1 + commonPrefixLength t1 t2 else 0
  | _, _ => 0
  end.

(** [commonSuffixLength]: the loop compares [text1[len1-i-1]] with
    [text2[len2-i-1]] for [i = 0, 1, ...]: the common prefix of the
    reversed slices. *)
Definition commonSuffixLength (text1 text2 : list rune) : Z :=
  commonPrefixLength (rev text1) (rev text2).

Definition DiffCommonPrefix (s1 s2 : gostring) : Z :=
  commonPrefixLength (runes s1) (runes s2).

Definition DiffCommonSuffix (s1 s2 : gostring) : Z :=
  commonSuffixLength (runes s1) (runes s2).

(** [strings.HasPrefix] and [strings.HasSuffix]. *)
Fixpoint HasPrefix (s prefix : gostring) : bool :=
  match prefix, s with
  | [], _ => true
  | p :: prefix', x :: s' => (x =? p) && HasPrefix s' prefix'
  | _ :: _, [] => false
  end.

Definition HasSuffix (s suffix : gostring) : bool :=
  HasPrefix (rev s) (rev suffix).

(** ** cleanup_merge.go *)

(** [ds[i].Text = t]. *)
Definition set_text (ds : list Diff) (i : Z) (t : gostring) : result (list Diff) :=
  d <- index ds i ;;
  store ds i (mkDiff (Type_ d) t).

(** The variables of the first loop of [DiffCleanupMerge]. *)
Record merge_state : Type := mkMerge {
  m_ds : list Diff;
  m_i : Z;
  m_ndel : Z;
  m_nins : Z;
  m_delStr : gostring;
  m_insStr : gostring
}.

(** Factoring of the common prefix of the collected insertion and
    deletion ([if commonlength != 0 { ... }], first occurrence). *)
Definition merge_prefix (ds : list Diff) (i ndel nins : Z) (insStr delStr : gostring)
  : result (list Diff * Z * gostring * gostring) :=
  let commonlength := DiffCommonPrefix insStr delStr in
  if negb (commonlength =? 0) then
    let x := i - ndel - nins in
    pre <- slice_chk insStr 0 commonlength ;;
    '(ds, i) <-
      (if 0 <? x then
         d <- index ds (x - 1) ;;
         if op_eqb (Type_ d) DiffEqual then
           ds' <- set_text ds (x - 1) (Text d ++ pre) ;;
           Ok (ds', i)
         else Ok (mkDiff DiffEqual pre :: ds, i + 1)
       else Ok (mkDiff DiffEqual pre :: ds, i + 1)) ;;
    insStr' <- slice_chk insStr commonlength (len insStr) ;;
    delStr' <- slice_chk delStr commonlength (len delStr) ;;
    Ok (ds, i, insStr', delStr')
  else Ok (ds, i, insStr, delStr).

(** Factoring of the common suffix (second occurrence). *)
Definition merge_suffix (ds : list Diff) (i : Z) (insStr delStr : gostring)
  : result (list Diff * gostring * gostring) :=
  let commonlength := DiffCommonSuffix insStr delStr in
  if negb (commonlength =? 0) then
    let insert_index := len insStr - commonlength in
    let delete_index := len delStr - commonlength in
    d <- index ds i ;;
    suf <- slice_chk insStr insert_index (len insStr) ;;
    ds' <- set_text ds i (suf ++ Text d) ;;
    insStr' <- slice_chk insStr 0 insert_index ;;
    delStr' <- slice_chk delStr 0 delete_index ;;
    Ok (ds', insStr', delStr')
  else Ok (ds, insStr, delStr).

(** One iteration of [for i < len(ds) { switch ds[i].Type ... }]. *)
Definition merge_step (st : merge_state) : result merge_state :=
  let '(mkMerge ds i ndel nins delStr insStr) := st in
  d <- index ds i ;;
  match Type_ d with
  | DiffInsert => Ok (mkMerge ds (i + 1) ndel (nins + 1) delStr (insStr ++ Text d))
  | DiffDelete => Ok (mkMerge ds (i + 1) (ndel + 1) nins (delStr ++ Text d) insStr)
  | DiffEqual =>
    '(ds, i) <-
      (if 1 <? ndel + nins then
         '(ds, i, insStr, delStr) <-
           (if negb (ndel =? 0) && negb (nins =? 0) then
              '(ds, i, insStr, delStr) <- merge_prefix ds i ndel nins insStr delStr ;;
              '(ds, insStr, delStr) <- merge_suffix ds i insStr delStr ;;
              Ok (ds, i, insStr, delStr)
            else Ok (ds, i, insStr, delStr)) ;;
         ds <-
           (if ndel =? 0 then
              splice ds (i - nins) (ndel + nins) [mkDiff DiffInsert insStr]
            else if nins =? 0 then
              splice ds (i - ndel) (ndel + nins) [mkDiff DiffDelete delStr]
            else
              splice ds (i - ndel - nins) (ndel + nins)
                     [mkDiff DiffDelete delStr; mkDiff DiffInsert insStr]) ;;
         let i := i - ndel - nins + 1 in
         let i := if negb (ndel =? 0) then i + 1 else i in
         let i := if negb (nins =? 0) then i + 1 else i in
         Ok (ds, i)
       else
         prevEq <-
           (if negb (i =? 0) then
              p <- index ds (i - 1) ;; Ok (op_eqb (Type_ p) DiffEqual)
            else Ok false) ;;
         if prevEq then
           p <- index ds (i - 1) ;;
           ds <- set_text ds (i - 1) (Text p ++ Text d) ;;
           hd <- slice_chk ds 0 i ;;
           tl <- slice_chk ds (i + 1) (len ds) ;;
           Ok (hd ++ tl, i)
         else Ok (ds, i + 1)) ;;
    Ok (mkMerge ds i 0 0 [] [])
  end.

Fixpoint merge_loop (fuel : nat) (st : merge_state) : result merge_state :=
  if m_i st <? len (m_ds st) then
    match fuel with
    | O => OutOfFuel
    | S fuel' => st' <- merge_step st ;; merge_loop fuel' st'
    end
  else Ok st.

(** One iteration of the second loop: a single edit between two
    equalities is shifted over the equality it ends or starts with. *)
Definition shift_step (ds : list Diff) (i : Z) (changes : bool)
  : result (list Diff * bool) :=
  p <- index ds (i - 1) ;;
  n <- (if op_eqb (Type_ p) DiffEqual then index ds (i + 1) else Ok p) ;;
  if op_eqb (Type_ p) DiffEqual && op_eqb (Type_ n) DiffEqual then
    e <- index ds i ;;
    if HasSuffix (Text e) (Text p) then
      cut <- slice_chk (Text e) 0 (len (Text e) - len (Text p)) ;;
      ds <- set_text ds i (Text p ++ cut) ;;
      ds <- set_text ds (i + 1) (Text p ++ Text n) ;;
      ds <- splice ds (i - 1) 1 [] ;;
      Ok (ds, true)
    else if HasPrefix (Text e) (Text n) then
      ds <- set_text ds (i - 1) (Text p ++ Text n) ;;
      cut <- slice_chk (Text e) (len (Text n)) (len (Text e)) ;;
      ds <- set_text ds i (cut ++ Text n) ;;
      ds <- splice ds (i + 1) 1 [] ;;
      Ok (ds, true)
    else Ok (ds, changes)
  else Ok (ds, changes).

Fixpoint shift_loop (fuel : nat) (ds : list Diff) (i : Z) (changes : bool)
  : result (list Diff * bool) :=
  if i <? len ds - 1 then
    match fuel with
    | O => OutOfFuel
    | S fuel' =>
      '(ds', changes') <- shift_step ds i changes ;;
      shift_loop fuel' ds' (i + 1) changes'
    end
  else Ok (ds, changes).

(** [DiffCleanupMerge].  [fuel] bounds the depth of the recursive call
    at the end. The loops get the fuel they need from the length of the
    script: the first loop advances [i] or shortens [ds] in every
    iteration (it may lengthen [ds] by one while advancing [i] by two
    or more), the second advances [i]. *)
Fixpoint DiffCleanupMerge_fuel (fuel : nat) (ds : list Diff) : result (list Diff) :=
  match fuel with
  | O => OutOfFuel
  | S fuel' =>
    let ds := ds ++ [mkDiff DiffEqual []] in
    st <- merge_loop (2 * length ds + 2) (mkMerge ds 0 0 0 [] []) ;;
    let ds := m_ds st in
    last <- index ds (len ds - 1) ;;
    ds <- (if len (Text last) =? 0 then slice_chk ds 0 (len ds - 1) else Ok ds) ;;
    '(ds, changes) <- shift_loop (length ds) ds 1 false ;;
    if changes then DiffCleanupMerge_fuel fuel' ds else Ok ds
  end.

(** ** Helpers on rune slices

    [runesEqual] and [runesIndex] are called by [diffMainRunes] and
    [diffCompute]; their file is not among the sources at hand. *)

(** Modelled from the spec: [runesEqual], missing from the sources;
    "If inputs equal" (4.E step 1) on rune slices. *)
Fixpoint runesEqual (r1 r2 : list rune) : bool :=
  match r1, r2 with
  | [], [] => true
  | x :: r1', y :: r2' => (x =? y) && runesEqual r1' r2'
  | _, _ => false
  end.

(** Modelled from the spec: whether [pattern] occurs at the start of
    [target]; a step of [runesIndex]. *)
Fixpoint runesHasPrefix (target pattern : list rune) : bool :=
  match pattern, target with
  | [], _ => true
  | p :: pattern', x :: target' => (x =? p) && runesHasPrefix target' pattern'
  | _ :: _, [] => false
  end.

(** Modelled from the spec: [runesIndex], missing from the sources; the
    index-of of 4.B and 4.E ("short is contained in long"): the least
    position at which [pattern] occurs in [target], [-1] when there is
    none (as the test [Test_runesIndexOf] has it for a start of 0). *)
Fixpoint runesIndex (target pattern : list rune) : Z :=
  if runesHasPrefix target pattern then 0
  else
    match target with
    | [] => -1
    | _ :: target' =>
      let i := runesIndex target' pattern in
      if i =? -1 then -1 else i + 1
    end.

(** ** The bisect engine (dmp.go, [diffBisect]) *)

(** [time.Now().After(deadline)] reads the wall clock.  [expired n] is the
    answer to the [n]-th reading of a run; the number of readings made so
    far is threaded through the engine. *)
Definition clock := nat -> bool.

Record bisect_state : Type := mkBisect {
  b_v1 : list Z;
  b_v2 : list Z;
  b_k1start : Z;
  b_k1end : Z;
  b_k2start : Z;
  b_k2end : Z
}.

(** Outcome of a walk along the diagonals: the loop ran to its end, or
    the function returned from inside it with a split point. *)
Inductive walk : Type :=
| Continue (st : bisect_state)
| Overlap (x y : Z).

(** [for x1 < len1 && y1 < len2 { if s1[x1] != s2[y1] { break }; x1++; y1++ }] *)
Fixpoint snake_forward (fuel : nat) (s1 s2 : list rune) (x1 y1 : Z)
  : result (Z * Z) :=
  if (x1 <? len s1) && (y1 <? len s2) then
    match fuel with
    | O => OutOfFuel
    | S fuel' =>
      a <- index s1 x1 ;;
      b <- index s2 y1 ;;
      if negb (a =? b) then Ok (x1, y1)
      else snake_forward fuel' s1 s2 (x1 + 1) (y1 + 1)
    end
  else Ok (x1, y1).

(** [for x2 < len1 && y2 < len2 {
       if s1[len1-x2-1] != s2[len2-y2-1] { break }; x2++; y2++ }] *)
Fixpoint snake_reverse (fuel : nat) (s1 s2 : list rune) (x2 y2 : Z)
  : result (Z * Z) :=
  if (x2 <? len s1) && (y2 <? len s2) then
    match fuel with
    | O => OutOfFuel
    | S fuel' =>
      a <- index s1 (len s1 - x2 - 1) ;;
      b <- index s2 (len s2 - y2 - 1) ;;
      if negb (a =? b) then Ok (x2, y2)
      else snake_reverse fuel' s1 s2 (x2 + 1) (y2 + 1)
    end
  else Ok (x2, y2).

(** [if k == -d || (k != d && v[k_offset-1] < v[k_offset+1])
       { x = v[k_offset+1] } else { x = v[k_offset-1] + 1 }] *)
Definition pick_x (v : list Z) (d k k_offset : Z) : result Z :=
  if k =? - d then index v (k_offset + 1)
  else if negb (k =? d) then
    a <- index v (k_offset - 1) ;;
    b <- index v (k_offset + 1) ;;
    if a <? b then Ok b else Ok (a + 1)
  else
    a <- index v (k_offset - 1) ;;
    Ok (a + 1).

Section Bisect.

Variables s1 s2 : list rune.

Let len1 := len s1.
Let len2 := len s2.
Let dmax := (len1 + len2 + 1) / 2.
Let offset := dmax.
Let vlen := 2 * dmax.
Let delta := len1 - len2.
Let front := negb (Z.rem delta 2 =? 0).

(** [for k1 := -d + k1start; k1 <= d-k1end; k1 += 2 { ... }], entered
    at [k1]. *)
Fixpoint front_loop (fuel : nat) (d k1 : Z) (st : bisect_state) : result walk :=
  if k1 <=? d - b_k1end st then
    match fuel with
    | O => OutOfFuel
    | S fuel' =>
      let k1_offset := offset + k1 in
      x1 <- pick_x (b_v1 st) d k1 k1_offset ;;
      let y1 := x1 - k1 in
      '(x1, y1) <- snake_forward (length s1) s1 s2 x1 y1 ;;
      v1 <- store (b_v1 st) k1_offset x1 ;;
      let st := mkBisect v1 (b_v2 st) (b_k1start st) (b_k1end st)
                         (b_k2start st) (b_k2end st) in
      if len1 <? x1 then
        front_loop fuel' d (k1 + 2)
          (mkBisect v1 (b_v2 st) (b_k1start st) (b_k1end st + 2)
                    (b_k2start st) (b_k2end st))
      else if len2 <? y1 then
        front_loop fuel' d (k1 + 2)
          (mkBisect v1 (b_v2 st) (b_k1start st + 2) (b_k1end st)
                    (b_k2start st) (b_k2end st))
      else if front then
        let k2_offset := offset + delta - k1 in
        hit <-
          (if (0 <=? k2_offset) && (k2_offset <? vlen) then
             w <- index (b_v2 st) k2_offset ;;
             if negb (w =? -1) then
               let x2 := len1 - w in
               Ok (x2 <=? x1)
             else Ok false
           else Ok false) ;;
        if hit then Ok (Overlap x1 y1)
        else front_loop fuel' d (k1 + 2) st
      else front_loop fuel' d (k1 + 2) st
    end
  else Ok (Continue st).

(** [for k2 := -d + k2start; k2 <= d-k2end; k2 += 2 { ... }], entered
    at [k2]. *)
Fixpoint reverse_loop (fuel : nat) (d k2 : Z) (st : bisect_state) : result walk :=
  if k2 <=? d - b_k2end st then
    match fuel with
    | O => OutOfFuel
    | S fuel' =>
      let k2_offset := offset + k2 in
      x2 <- pick_x (b_v2 st) d k2 k2_offset ;;
      let y2 := x2 - k2 in
      '(x2, y2) <- snake_reverse (length s1) s1 s2 x2 y2 ;;
      v2 <- store (b_v2 st) k2_offset x2 ;;
      let st := mkBisect (b_v1 st) v2 (b_k1start st) (b_k1end st)
                         (b_k2start st) (b_k2end st) in
      if len1 <? x2 then
        reverse_loop fuel' d (k2 + 2)
          (mkBisect (b_v1 st) v2 (b_k1start st) (b_k1end st)
                    (b_k2start st) (b_k2end st + 2))
      else if len2 <? y2 then
        reverse_loop fuel' d (k2 + 2)
          (mkBisect (b_v1 st) v2 (b_k1start st) (b_k1end st)
                    (b_k2start st + 2) (b_k2end st))
      else if negb front then
        let k1_offset := offset + delta - k2 in
        hit <-
          (if (0 <=? k1_offset) && (k1_offset <? vlen) then
             w <- index (b_v1 st) k1_offset ;;
             if negb (w =? -1) then
               let x1 := w in
               let y1 := offset + x1 - k1_offset in
               let x2 := len1 - x2 in
               Ok (if x2 <=? x1 then Some (x1, y1) else None)
             else Ok None
           else Ok None) ;;
        match hit with
        | Some (x1, y1) => Ok (Overlap x1 y1)
        | None => reverse_loop fuel' d (k2 + 2) st
        end
      else reverse_loop fuel' d (k2 + 2) st
    end
  else Ok (Continue st).

(** [for d := 0; d < dmax; d++ { ... }], entered at [d] after [t]
    readings of the clock.  The result is the split point, if the loop
    was left through [diffBisectSplit], and the number of readings. *)
Fixpoint d_loop (expired : clock) (fuel : nat) (d : Z) (st : bisect_state) (t : nat)
  : result (option (Z * Z) * nat) :=
  if d <? dmax then
    match fuel with
    | O => OutOfFuel
    | S fuel' =>
      if expired t then Ok (None, S t)
      else
        w <- front_loop (Z.to_nat dmax + 1) d (- d + b_k1start st) st ;;
        match w with
        | Overlap x y => Ok (Some (x, y), S t)
        | Continue st =>
          w <- reverse_loop (Z.to_nat dmax + 1) d (- d + b_k2start st) st ;;
          match w with
          | Overlap x y => Ok (Some (x, y), S t)
          | Continue st => d_loop expired fuel' (d + 1) st (S t)
          end
        end
    end
  else Ok (None, t).

(** The body of [diffBisect] up to the two ways it returns:
    [Some (x, y)] stands for [return dmp.diffBisectSplit(s1, s2, x, y,
    deadline)], [None] for the final
    [return []Diff{{DiffDelete, string(s1)}, {DiffInsert, string(s2)}}]. *)
Definition bisect_walk (expired : clock) (t : nat) : result (option (Z * Z) * nat) :=
  (* v1 := make([]int, vlen); v2 := ...; all entries set to -1 *)
  let v1 := repeat (-1) (Z.to_nat vlen) in
  let v2 := repeat (-1) (Z.to_nat vlen) in
  v1 <- store v1 (offset + 1) 0 ;;
  v2 <- store v2 (offset + 1) 0 ;;
  d_loop expired (Z.to_nat dmax) 0 (mkBisect v1 v2 0 0 0 0) t.

End Bisect.

(** ** regexps.go

    The four patterns that [DiffCleanupSemanticLossless] uses, as
    [MatchString] decides them.  The regexp engine reads its input rune
    by rune as [runes] does. *)

Definition is_alnum (r : rune) : bool :=
  between 97 122 r || between 65 90 r || between 48 57 r.

(** [\s] is [[\t\n\f\r ]]. *)
Definition is_space (r : rune) : bool :=
  (r =? 9) || (r =? 10) || (r =? 12) || (r =? 13) || (r =? 32).

Definition is_linebreak (r : rune) : bool := (r =? 13) || (r =? 10).

(** [[^a-zA-Z0-9]] *)
Definition nonAlphaNumericRegex_ (s : gostring) : bool :=
  existsb (fun r => negb (is_alnum r)) (runes s).

(** [\s] *)
Definition whitespaceRegex_ (s : gostring) : bool := existsb is_space (runes s).

(** [[\r\n]] *)
Definition linebreakRegex_ (s : gostring) : bool := existsb is_linebreak (runes s).

(** [\n\r?\n$]: the text ends with LF LF or LF CR LF. *)
Definition blanklineEndRegex_ (s : gostring) : bool :=
  HasSuffix s [10; 10] || HasSuffix s [10; 13; 10].

(** ** cleanup_semantic.go *)

(** The closure [diffCleanupSemanticScore]. *)
Definition diffCleanupSemanticScore (one two : gostring) : Z :=
  if (len one =? 0) || (len two =? 0) then 6
  else
    let rune1 := fst (DecodeLastRuneInString one) in
    let rune2 := fst (DecodeRuneInString two) in
    let char1 := encode_rune rune1 in
    let char2 := encode_rune rune2 in
    let nonAlphaNumeric1 := nonAlphaNumericRegex_ char1 in
    let nonAlphaNumeric2 := nonAlphaNumericRegex_ char2 in
    let whitespace1 := nonAlphaNumeric1 && whitespaceRegex_ char1 in
    let whitespace2 := nonAlphaNumeric2 && whitespaceRegex_ char2 in
    let lineBreak1 := whitespace1 && linebreakRegex_ char1 in
    let lineBreak2 := whitespace2 && linebreakRegex_ char2 in
    let blankLine1 := lineBreak1 && blanklineEndRegex_ one in
    let blankLine2 := lineBreak2 && blanklineEndRegex_ two in
    if blankLine1 || blankLine2 then 5
    else if lineBreak1 || lineBreak2 then 4
    else if nonAlphaNumeric1 && negb whitespace1 && whitespace2 then 3
    else if whitespace1 || whitespace2 then 2
    else if nonAlphaNumeric1 || nonAlphaNumeric2 then 1
    else 0.

(** The variables of the loop that steps the edit to the right. *)
Record slide_state : Type := mkSlide {
  sl_equality1 : gostring;
  sl_edit : gostring;
  sl_equality2 : gostring;
  sl_bestEquality1 : gostring;
  sl_bestEdit : gostring;
  sl_bestEquality2 : gostring;
  sl_bestScore : Z
}.

(** [for len(edit) != 0 && len(equality2) != 0 { ... }] *)
Fixpoint slide_loop (fuel : nat) (st : slide_state) : result slide_state :=
  let '(mkSlide equality1 edit equality2 b1 be b2 bestScore) := st in
  if negb (len edit =? 0) && negb (len equality2 =? 0) then
    match fuel with
    | O => OutOfFuel
    | S fuel' =>
      let sz := snd (DecodeRuneInString edit) in
      if len equality2 <? sz then Ok st
      else
        e_sz <- slice_chk edit 0 sz ;;
        q_sz <- slice_chk equality2 0 sz ;;
        if negb (streq e_sz q_sz) then Ok st
        else
          let equality1 := equality1 ++ e_sz in
          e_rest <- slice_chk edit sz (len edit) ;;
          let edit := e_rest ++ q_sz in
          equality2 <- slice_chk equality2 sz (len equality2) ;;
          let score := diffCleanupSemanticScore equality1 edit +
                       diffCleanupSemanticScore edit equality2 in
          if bestScore <=? score then
            slide_loop fuel' (mkSlide equality1 edit equality2
                                      equality1 edit equality2 score)
          else
            slide_loop fuel' (mkSlide equality1 edit equality2 b1 be b2 bestScore)
    end
  else Ok st.

(** The body of [if diffs[pointer-1].Type == DiffEqual &&
    diffs[pointer+1].Type == DiffEqual { ... }]. *)
Definition lossless_edit (diffs : list Diff) (pointer : Z) : result (list Diff * Z) :=
  p <- index diffs (pointer - 1) ;;
  e <- index diffs pointer ;;
  n <- index diffs (pointer + 1) ;;
  let equality1 := Text p in
  let edit := Text e in
  let equality2 := Text n in
  (* First, shift the edit as far left as possible. *)
  let commonOffset := DiffCommonSuffix equality1 edit in
  '(equality1, edit, equality2) <-
    (if 0 <? commonOffset then
       commonString <- slice_chk edit (len edit - commonOffset) (len edit) ;;
       equality1 <- slice_chk equality1 0 (len equality1 - commonOffset) ;;
       cut <- slice_chk edit 0 (len edit - commonOffset) ;;
       Ok (equality1, commonString ++ cut, commonString ++ equality2)
     else Ok (equality1, edit, equality2)) ;;
  (* Second, step character by character right. *)
  let bestScore := diffCleanupSemanticScore equality1 edit +
                   diffCleanupSemanticScore edit equality2 in
  st <- slide_loop (length equality2)
          (mkSlide equality1 edit equality2 equality1 edit equality2 bestScore) ;;
  let bestEquality1 := sl_bestEquality1 st in
  let bestEdit := sl_bestEdit st in
  let bestEquality2 := sl_bestEquality2 st in
  if negb (streq (Text p) bestEquality1) then
    '(diffs, pointer) <-
      (if negb (len bestEquality1 =? 0) then
         diffs <- set_text diffs (pointer - 1) bestEquality1 ;;
         Ok (diffs, pointer)
       else
         diffs <- splice diffs (pointer - 1) 1 [] ;;
         Ok (diffs, pointer - 1)) ;;
    diffs <- set_text diffs pointer bestEdit ;;
    if negb (len bestEquality2 =? 0) then
      diffs <- set_text diffs (pointer + 1) bestEquality2 ;;
      Ok (diffs, pointer)
    else
      hd <- slice_chk diffs 0 (pointer + 1) ;;
      tl <- slice_chk diffs (pointer + 2) (len diffs) ;;
      Ok (hd ++ tl, pointer - 1)
  else Ok (diffs, pointer).

(** [for pointer < len(diffs)-1 { ...; pointer++ }] *)
Fixpoint lossless_loop (fuel : nat) (diffs : list Diff) (pointer : Z)
  : result (list Diff) :=
  if pointer <? len diffs - 1 then
    match fuel with
    | O => OutOfFuel
    | S fuel' =>
      p <- index diffs (pointer - 1) ;;
      '(diffs, pointer) <-
        (if op_eqb (Type_ p) DiffEqual then
           n <- index diffs (pointer + 1) ;;
           if op_eqb (Type_ n) DiffEqual
           then lossless_edit diffs pointer
           else Ok (diffs, pointer)
         else Ok (diffs, pointer)) ;;
      lossless_loop fuel' diffs (pointer + 1)
    end
  else Ok diffs.

(** [DiffCleanupSemanticLossless].  An iteration advances [pointer] by
    one, or leaves it and removes an entry, or moves it back by one and
    removes two: twice the length of the script is enough fuel. *)
Definition DiffCleanupSemanticLossless (diffs : list Diff) : result (list Diff) :=
  lossless_loop (2 * length diffs) diffs 1.

(** ** Overlap of a suffix with a prefix (levenshtein.go, [DiffCommonOverlap]) *)

(** [strings.Index]: the least byte offset at which [pattern] occurs in
    [s], [-1] when there is none. *)
Fixpoint Index (s pattern : gostring) : Z :=
  if HasPrefix s pattern then 0
  else
    match s with
    | [] => -1
    | _ :: s' =>
      let i := Index s' pattern in
      if i =? -1 then -1 else i + 1
    end.

(** The [for { ... }] loop of [DiffCommonOverlap]; [n] is the common
    length of the truncated strings. *)
Fixpoint overlap_loop (fuel : nat) (s1 s2 : gostring) (n best length : Z)
  : result Z :=
  match fuel with
  | O => OutOfFuel
  | S fuel' =>
    pattern <- slice_chk s1 (n - length) (len s1) ;;
    let found := Index s2 pattern in
    if found =? -1 then Ok best
    else
      let length := length + found in
      a <- (if found =? 0 then Ok true
            else
              a <- slice_chk s1 (n - length) (len s1) ;;
              b <- slice_chk s2 0 length ;;
              Ok (streq a b)) ;;
      if a then overlap_loop fuel' s1 s2 n length (length + 1)
      else overlap_loop fuel' s1 s2 n best length
  end.

Definition DiffCommonOverlap (s1 s2 : gostring) : result Z :=
  let len1 := len s1 in
  let len2 := len s2 in
  if (len1 =? 0) || (len2 =? 0) then Ok 0
  else
    s1 <- (if len2 <? len1 then slice_chk s1 (len1 - len2) (len s1) else Ok s1) ;;
    s2 <- (if len2 <? len1 then Ok s2
           else if len1 <? len2 then slice_chk s2 0 len1 else Ok s2) ;;
    let n := Z.min len1 len2 in
    if streq s1 s2 then Ok n
    else overlap_loop (2 * Z.to_nat n + 2) s1 s2 n 0 1.

(** ** The stack of equality indices *)

(** Modelled from the spec: [Stack], missing from the sources; "an ordered
    sequence supporting push/peek/pop/clear" (section 9).  The top is the
    head of the list. *)
Definition Stack : Type := list Z.

(** Modelled from the spec: [Push]. *)
Definition Push (s : Stack) (v : Z) : Stack := v :: s.

(** Modelled from the spec: [Pop]. *)
Definition Pop (s : Stack) : Stack := tl s.

(** Modelled from the spec: [Peek].  The code reads
    [equalities.Peek().(int)] right after a [Pop] that may have emptied
    the stack (the test "Backpass elimination" runs through it), and the
    cursor then has to restart from the beginning: [Peek] of an empty
    stack is [-1], as the original's
    [equalitiesLength > 0 ? equalities[equalitiesLength - 1] : -1]. *)
Definition Peek (s : Stack) : Z := match s with v :: _ => v | [] => -1 end.

(** Modelled from the spec: [Len]. *)
Definition Len (s : Stack) : Z := len s.

(** Modelled from the spec: [Clear]. *)
Definition Clear (s : Stack) : Stack := [].

(** ** dmp.go, [DiffCleanupSemantic] *)

(** The variables of the first loop. *)
Record sem_state : Type := mkSem {
  s_diffs : list Diff;
  s_changes : bool;
  s_equalities : Stack;
  s_lastequality : gostring;
  s_pointer : Z;
  s_length_insertions1 : Z;
  s_length_deletions1 : Z;
  s_length_insertions2 : Z;
  s_length_deletions2 : Z
}.

(** The test that decides the elimination of the last equality:
    [len(lastequality) > 0 && (len(lastequality) <= _difference1) &&
     (len(lastequality) <= _difference2)]. *)
Definition sem_eliminates (lastequality : gostring) (li1 ld1 li2 ld2 : Z) : bool :=
  let _difference1 := Z.max li1 ld1 in
  let _difference2 := Z.max li2 ld2 in
  (0 <? len lastequality) && (len lastequality <=? _difference1)
  && (len lastequality <=? _difference2).

(** One iteration of [for pointer < len(diffs) { ...; pointer++ }]. *)
Definition sem_step (st : sem_state) : result sem_state :=
  let '(mkSem diffs changes equalities lastequality pointer li1 ld1 li2 ld2) := st in
  d <- index diffs pointer ;;
  if op_eqb (Type_ d) DiffEqual then
    Ok (mkSem diffs changes (Push equalities pointer) (Text d) (pointer + 1)
              li2 ld2 0 0)
  else
    let li2 := if op_eqb (Type_ d) DiffInsert then li2 + len (Text d) else li2 in
    let ld2 := if op_eqb (Type_ d) DiffInsert then ld2 else ld2 + len (Text d) in
    if sem_eliminates lastequality li1 ld1 li2 ld2 then
      (* Duplicate record. *)
      let insPoint := Peek equalities in
      hd <- slice_chk diffs 0 insPoint ;;
      tl <- slice_chk diffs insPoint (len diffs) ;;
      let diffs := hd ++ mkDiff DiffDelete lastequality :: tl in
      (* Change second copy to insert. *)
      d2 <- index diffs (insPoint + 1) ;;
      diffs <- store diffs (insPoint + 1) (mkDiff DiffInsert (Text d2)) ;;
      (* Throw away the equality we just deleted. *)
      let equalities := Pop equalities in
      let '(equalities, pointer) :=
        if 0 <? Len equalities
        then let equalities := Pop equalities in (equalities, Peek equalities)
        else (equalities, -1) in
      Ok (mkSem diffs true equalities [] (pointer + 1) 0 0 0 0)
    else
      Ok (mkSem diffs changes equalities lastequality (pointer + 1) li1 ld1 li2 ld2).

Fixpoint sem_loop (fuel : nat) (st : sem_state) : result sem_state :=
  if s_pointer st <? len (s_diffs st) then
    match fuel with
    | O => OutOfFuel
    | S fuel' => st' <- sem_step st ;; sem_loop fuel' st'
    end
  else Ok st.

(** One iteration of the last loop of [DiffCleanupSemantic], which
    splits an overlap of a deletion and the insertion after it. *)
Definition overlap_step (diffs : list Diff) (pointer : Z) : result (list Diff * Z) :=
  p <- index diffs (pointer - 1) ;;
  c <- (if op_eqb (Type_ p) DiffDelete then index diffs pointer else Ok p) ;;
  if op_eqb (Type_ p) DiffDelete && op_eqb (Type_ c) DiffInsert then
    let deletion := Text p in
    let insertion := Text c in
    overlap_length1 <- DiffCommonOverlap deletion insertion ;;
    overlap_length2 <- DiffCommonOverlap insertion deletion ;;
    if overlap_length2 <=? overlap_length1 then
      if (len deletion <=? 2 * overlap_length1) ||
         (len insertion <=? 2 * overlap_length1) then
        eq <- slice_chk insertion 0 overlap_length1 ;;
        hd <- slice_chk diffs 0 pointer ;;
        tl <- slice_chk diffs pointer (len diffs) ;;
        let diffs := hd ++ mkDiff DiffEqual eq :: tl in
        del' <- slice_chk deletion 0 (len deletion - overlap_length1) ;;
        diffs <- set_text diffs (pointer - 1) del' ;;
        ins' <- slice_chk insertion overlap_length1 (len insertion) ;;
        diffs <- set_text diffs (pointer + 1) ins' ;;
        Ok (diffs, pointer + 1 + 1 + 1)
      else Ok (diffs, pointer + 1 + 1)
    else
      if (len deletion <=? 2 * overlap_length2) ||
         (len insertion <=? 2 * overlap_length2) then
        eq <- slice_chk insertion overlap_length2 (len insertion) ;;
        hd <- slice_chk diffs 0 pointer ;;
        tl <- slice_chk diffs pointer (len diffs) ;;
        let diffs := hd ++ mkDiff DiffEqual eq :: tl in
        ins' <- slice_chk insertion 0 (len insertion - overlap_length2) ;;
        diffs <- store diffs (pointer - 1) (mkDiff DiffInsert ins') ;;
        del' <- slice_chk deletion overlap_length2 (len deletion) ;;
        diffs <- store diffs (pointer + 1) (mkDiff DiffDelete del') ;;
        Ok (diffs, pointer + 1 + 1 + 1)
      else Ok (diffs, pointer + 1 + 1)
  else Ok (diffs, pointer + 1).

Fixpoint overlap_pass (fuel : nat) (diffs : list Diff) (pointer : Z)
  : result (list Diff) :=
  if pointer <? len diffs then
    match fuel with
    | O => OutOfFuel
    | S fuel' =>
      '(diffs, pointer) <- overlap_step diffs pointer ;;
      overlap_pass fuel' diffs pointer
    end
  else Ok diffs.

(** [DiffCleanupSemantic].  The first loop eliminates at most one
    equality per entry of the script and scans at most the whole script
    between two eliminations. *)
Definition DiffCleanupSemantic (merge_fuel : nat) (diffs : list Diff)
  : result (list Diff) :=
  st <- sem_loop ((length diffs + 1) * (2 * length diffs + 2))
          (mkSem diffs false [] [] 0 0 0 0 0) ;;
  let diffs := s_diffs st in
  (* Normalize the diff. *)
  diffs <- (if s_changes st then DiffCleanupMerge_fuel merge_fuel diffs else Ok diffs) ;;
  diffs <- DiffCleanupSemanticLossless diffs ;;
  overlap_pass (length diffs) diffs 1.

(** ** Half-match

    [diffHalfMatch] is called by [diffCompute]; its file is not among
    the sources at hand. *)

(** Modelled from the spec: the five pieces of a half-match (4.B): the
    parts of the first text before and after the common middle, those of
    the second text, and the middle. *)
Definition halfmatch : Type :=
  (list rune * list rune * list rune * list rune * list rune)%type.

(** Modelled from the spec: the occurrences of [seed] in [s] from
    position [j] on, in increasing order ("find its occurrences in short
    via index-of", 4.B). *)
Fixpoint occurrences (s seed : list rune) (j : Z) : list Z :=
  match s with
  | [] => if runesHasPrefix s seed then [j] else []
  | _ :: s' =>
    if runesHasPrefix s seed then j :: occurrences s' seed (j + 1)
    else occurrences s' seed (j + 1)
  end.

(** Modelled from the spec: [diffHalfMatchI], missing from the sources;
    4.B: the seed is [long[i..i+|long|/4]]; every occurrence of the seed
    in [short] is extended to the left and to the right by the common
    suffix and prefix of the surrounding fragments; the longest candidate
    is retained, and there is none if it is shorter than [|long|/2]. *)
Definition diffHalfMatchI (l s : list rune) (i : Z) : option halfmatch :=
  let seed := slice l i (i + len l / 4) in
  let step (best : Z * halfmatch) (j : Z) : Z * halfmatch :=
    let prefixLength := commonPrefixLength (slice l i (len l)) (slice s j (len s)) in
    let suffixLength := commonSuffixLength (slice l 0 i) (slice s 0 j) in
    if fst best <? suffixLength + prefixLength then
      (suffixLength + prefixLength,
       (slice l 0 (i - suffixLength), slice l (i + prefixLength) (len l),
        slice s 0 (j - suffixLength), slice s (j + prefixLength) (len s),
        slice s (j - suffixLength) (j + prefixLength)))
    else best in
  let '(bestCommonLen, hm) :=
    fold_left step (occurrences s seed 0) (0, ([], [], [], [], [])) in
  if bestCommonLen * 2 <? len l then None else Some hm.

(** Modelled from the spec: [diffHalfMatch], missing from the sources;
    4.B: it applies to [|long| >= 10] and [|short| >= |long|/4], tries the
    seeds a quarter and a half into [long] and keeps the longer common
    middle; it is skipped when the timeout is disabled (as the test
    [TestDiffHalfmatchTest] has it for [DiffTimeout = 0]).  The pieces
    come in the order [diffCompute] reads them: those of [text1] first. *)
Definition diffHalfMatch (DiffTimeout : Z) (text1 text2 : list rune)
  : option halfmatch :=
  if DiffTimeout <=? 0 then None
  else
    let longtext := if len text2 <? len text1 then text1 else text2 in
    let shorttext := if len text2 <? len text1 then text2 else text1 in
    if (len longtext <? 10) || (len shorttext * 4 <? len longtext) then None
    else
      let hm1 := diffHalfMatchI longtext shorttext ((len longtext + 3) / 4) in
      let hm2 := diffHalfMatchI longtext shorttext ((len longtext + 1) / 2) in
      let hm :=
        match hm1, hm2 with
        | None, None => None
        | Some h, None => Some h
        | None, Some h => Some h
        | Some ((_, _, _, _, m1) as h1), Some ((_, _, _, _, m2) as h2) =>
          if len m2 <? len m1 then Some h1 else Some h2
        end in
      match hm with
      | None => None
      | Some (la, lb, sa, sb, m) =>
        if len text2 <? len text1 then Some (la, lb, sa, sb, m)
        else Some (sa, sb, la, lb, m)
      end.

(** ** Line mode *)

(** Modelled from the spec: the lines of a text, each with its newline,
    the last one possibly without (4.C). *)
Fixpoint split_lines (cur : list rune) (text : list rune) : list (list rune) :=
  match text with
  | [] => match cur with [] => [] | _ => [rev cur] end
  | r :: rest =>
    if r =? 10 then rev (r :: cur) :: split_lines [] rest
    else split_lines (r :: cur) rest
  end.

(** Modelled from the spec: the slot of a line in the dictionary. *)
Fixpoint line_index (lineArray : list gostring) (line : gostring) (i : Z) : option Z :=
  match lineArray with
  | [] => None
  | l :: rest => if streq l line then Some i else line_index rest line (i + 1)
  end.

(** Modelled from the spec: one text against the dictionary built so
    far; a line not yet in it takes the next slot (4.C). *)
Fixpoint lines_munge (lines : list (list rune)) (lineArray : list gostring)
  : list rune * list gostring :=
  match lines with
  | [] => ([], lineArray)
  | line :: rest =>
    let s := string_of_runes line in
    match line_index lineArray s 0 with
    | Some i =>
      let '(rs, la) := lines_munge rest lineArray in (i :: rs, la)
    | None =>
      let '(rs, la) := lines_munge rest (lineArray ++ [s]) in
      (len lineArray :: rs, la)
    end
  end.

(** Modelled from the spec: [diffLinesToRunes], missing from the sources;
    4.C: a shared dictionary maps each distinct line (trailing newline
    included, or the final partial line) to a codepoint from U+0001 on in
    first-seen order; the first slot of the dictionary is reserved
    empty. *)
Definition diffLinesToRunes (text1 text2 : list rune)
  : list rune * list rune * list gostring :=
  let '(chars1, la) := lines_munge (split_lines [] text1) [[]] in
  let '(chars2, la) := lines_munge (split_lines [] text2) la in
  (chars1, chars2, la).

(** Modelled from the spec: the lines of the codepoints of one payload. *)
Fixpoint chars_expand (rs : list rune) (lineArray : list gostring) : result gostring :=
  match rs with
  | [] => Ok []
  | r :: rest =>
    l <- index lineArray r ;;
    t <- chars_expand rest lineArray ;;
    Ok (l ++ t)
  end.

(** Modelled from the spec: [DiffCharsToLines], missing from the sources;
    4.C: "expands each payload codepoint back to its line". *)
Fixpoint DiffCharsToLines (diffs : list Diff) (lineArray : list gostring)
  : result (list Diff) :=
  match diffs with
  | [] => Ok []
  | d :: rest =>
    t <- chars_expand (runes (Text d)) lineArray ;;
    rest' <- DiffCharsToLines rest lineArray ;;
    Ok (mkDiff (Type_ d) t :: rest')
  end.

(** The variables of the loop of [diffLineMode] that diffs the
    replacement blocks again. *)
Record rediff_state : Type := mkRediff {
  r_diffs : list Diff;
  r_pointer : Z;
  r_count_delete : Z;
  r_count_insert : Z;
  r_text_delete : gostring;
  r_text_insert : gostring;
  r_t : nat
}.

Section LineMode.

Variable merge_fuel : nat.
Variable diffMainRunes_rec :
  list rune -> list rune -> bool -> nat -> result (list Diff * nat).

(** [dmp.diffMain(s1, s2, checkLines, deadline)] *)
Definition diffMain (s1 s2 : gostring) (checkLines : bool) (t : nat)
  : result (list Diff * nat) :=
  diffMainRunes_rec (runes s1) (runes s2) checkLines t.

Definition rediff_step (st : rediff_state) : result rediff_state :=
  let '(mkRediff diffs pointer count_delete count_insert
                 text_delete text_insert t) := st in
  d <- index diffs pointer ;;
  match Type_ d with
  | DiffInsert =>
    Ok (mkRediff diffs (pointer + 1) count_delete (count_insert + 1)
                 text_delete (text_insert ++ Text d) t)
  | DiffDelete =>
    Ok (mkRediff diffs (pointer + 1) (count_delete + 1) count_insert
                 (text_delete ++ Text d) text_insert t)
  | DiffEqual =>
    '(diffs, pointer, t) <-
      (if (1 <=? count_delete) && (1 <=? count_insert) then
         diffs <- splice diffs (pointer - count_delete - count_insert)
                    (count_delete + count_insert) [] ;;
         let pointer := pointer - count_delete - count_insert in
         '(a, t) <- diffMain text_delete text_insert false t ;;
         (* for j := len(a) - 1; j >= 0; j-- { splice(diffs, pointer, 0, a[j]) } *)
         diffs <- splice diffs pointer 0 a ;;
         Ok (diffs, pointer + len a, t)
       else Ok (diffs, pointer, t)) ;;
    Ok (mkRediff diffs (pointer + 1) 0 0 [] [] t)
  end.

Fixpoint rediff_loop (fuel : nat) (st : rediff_state) : result rediff_state :=
  if r_pointer st <? len (r_diffs st) then
    match fuel with
    | O => OutOfFuel
    | S fuel' => st' <- rediff_step st ;; rediff_loop fuel' st'
    end
  else Ok st.

Definition diffLineMode (text1 text2 : list rune) (t : nat)
  : result (list Diff * nat) :=
  let '(text1, text2, linearray) := diffLinesToRunes text1 text2 in
  '(diffs, t) <- diffMainRunes_rec text1 text2 false t ;;
  diffs <- DiffCharsToLines diffs linearray ;;
  diffs <- DiffCleanupSemantic merge_fuel diffs ;;
  let diffs := diffs ++ [mkDiff DiffEqual []] in
  st <- rediff_loop (length diffs) (mkRediff diffs 0 0 0 [] [] t) ;;
  r <- slice_chk (r_diffs st) 0 (len (r_diffs st) - 1) ;;
  Ok (r, r_t st).

End LineMode.

(** ** The diff orchestrator (dmp.go) *)

Section Engine.

(** [dmp.DiffTimeout], in the unit of the configuration. *)
Variable DiffTimeout : Z.

(** [time.Now().After(deadline)], see [clock]. *)
Variable expired : clock.

(** Fuel handed to the recursion of [DiffCleanupMerge]. *)
Variable merge_fuel : nat.

(** The recursive calls of [diffMainRunes]. *)
Variable diffMainRunes_rec :
  list rune -> list rune -> bool -> nat -> result (list Diff * nat).

Definition diffBisectSplit (runes1 runes2 : list rune) (x y : Z) (t : nat)
  : result (list Diff * nat) :=
  runes1a <- slice_chk runes1 0 x ;;
  runes2a <- slice_chk runes2 0 y ;;
  runes1b <- slice_chk runes1 x (len runes1) ;;
  runes2b <- slice_chk runes2 y (len runes2) ;;
  '(diffs, t) <- diffMainRunes_rec runes1a runes2a false t ;;
  '(diffsb, t) <- diffMainRunes_rec runes1b runes2b false t ;;
  Ok (diffs ++ diffsb, t).

Definition diffBisect (s1 s2 : list rune) (t : nat) : result (list Diff * nat) :=
  '(r, t) <- bisect_walk s1 s2 expired t ;;
  match r with
  | Some (x, y) => diffBisectSplit s1 s2 x y t
  | None =>
    Ok ([mkDiff DiffDelete (string_of_runes s1);
         mkDiff DiffInsert (string_of_runes s2)], t)
  end.

Definition diffCompute (text1 text2 : list rune) (checkLines : bool) (t : nat)
  : result (list Diff * nat) :=
  if len text1 =? 0 then Ok ([mkDiff DiffInsert (string_of_runes text2)], t)
  else if len text2 =? 0 then Ok ([mkDiff DiffDelete (string_of_runes text1)], t)
  else
    let longtext := if len text2 <? len text1 then text1 else text2 in
    let shorttext := if len text2 <? len text1 then text2 else text1 in
    let i := runesIndex longtext shorttext in
    if negb (i =? -1) then
      let op := if len text2 <? len text1 then DiffDelete else DiffInsert in
      a <- slice_chk longtext 0 i ;;
      b <- slice_chk longtext (i + len shorttext) (len longtext) ;;
      Ok ([mkDiff op (string_of_runes a);
           mkDiff DiffEqual (string_of_runes shorttext);
           mkDiff op (string_of_runes b)], t)
    else if len shorttext =? 1 then
      Ok ([mkDiff DiffDelete (string_of_runes text1);
           mkDiff DiffInsert (string_of_runes text2)], t)
    else
      match diffHalfMatch DiffTimeout text1 text2 with
      | Some (text1_a, text1_b, text2_a, text2_b, mid_common) =>
        '(diffs_a, t) <- diffMainRunes_rec text1_a text2_a checkLines t ;;
        '(diffs_b, t) <- diffMainRunes_rec text1_b text2_b checkLines t ;;
        Ok (diffs_a ++ mkDiff DiffEqual (string_of_runes mid_common) :: diffs_b, t)
      | None =>
        if checkLines && (100 <? len text1) && (100 <? len text2) then
          diffLineMode merge_fuel diffMainRunes_rec text1 text2 t
        else diffBisect text1 text2 t
      end.

Definition diffMainRunes_body (text1 text2 : list rune) (checkLines : bool) (t : nat)
  : result (list Diff * nat) :=
  if runesEqual text1 text2 then
    Ok (if 0 <? len text1 then [mkDiff DiffEqual (string_of_runes text1)] else [], t)
  else
    (* Trim off common prefix. *)
    let n := commonPrefixLength text1 text2 in
    prefix <- slice_chk text1 0 n ;;
    text1 <- slice_chk text1 n (len text1) ;;
    text2 <- slice_chk text2 n (len text2) ;;
    (* Trim off common suffix. *)
    let n := commonSuffixLength text1 text2 in
    suffix <- slice_chk text1 (len text1 - n) (len text1) ;;
    text1 <- slice_chk text1 0 (len text1 - n) ;;
    text2 <- slice_chk text2 0 (len text2 - n) ;;
    (* Compute the diff on the middle block. *)
    '(diffs, t) <- diffCompute text1 text2 checkLines t ;;
    (* Restore the prefix and suffix. *)
    let diffs :=
      if negb (len prefix =? 0)
      then diffPrepend (diffEq (string_of_runes prefix)) diffs else diffs in
    let diffs :=
      if negb (len suffix =? 0)
      then diffAppend diffs (diffEq (string_of_runes suffix)) else diffs in
    diffs <- DiffCleanupMerge_fuel merge_fuel diffs ;;
    Ok (diffs, t).

End Engine.

(** [diffMainRunes]; [fuel] bounds the depth of the recursion through
    [diffCompute], [diffBisectSplit] and [diffLineMode]. *)
Fixpoint diffMainRunes (DiffTimeout : Z) (expired : clock) (merge_fuel fuel : nat)
    (text1 text2 : list rune) (checkLines : bool) (t : nat)
  : result (list Diff * nat) :=
  match fuel with
  | O => OutOfFuel
  | S fuel' =>
    diffMainRunes_body DiffTimeout expired merge_fuel
      (diffMainRunes DiffTimeout expired merge_fuel fuel')
      text1 text2 checkLines t
  end.

(** Modelled from the spec: [deadline], missing from the sources; section
    9: "either a monotonic clock timestamp captured at entry or a
    never-expire sentinel when [DiffTimeout <= 0]".  [now_after n] tells
    whether the [n]-th reading of the clock is after the timestamp. *)
Definition deadline (DiffTimeout : Z) (now_after : clock) : clock :=
  if DiffTimeout <=? 0 then fun _ => false else now_after.

(** [DiffMain]. *)
Definition DiffMain (DiffTimeout : Z) (now_after : clock) (merge_fuel fuel : nat)
    (s1 s2 : gostring) (checkLines : bool) : result (list Diff) :=
  '(diffs, _) <- diffMainRunes DiffTimeout (deadline DiffTimeout now_after)
                   merge_fuel fuel (runes s1) (runes s2) checkLines 0%nat ;;
  Ok diffs.

(** [DiffBisect], the exported entry into [diffBisect]; the deadline is
    an argument. *)
Definition DiffBisect (DiffTimeout : Z) (expired : clock) (merge_fuel fuel : nat)
    (s1 s2 : gostring) : result (list Diff) :=
  '(diffs, _) <- diffBisect expired
                   (diffMainRunes DiffTimeout expired merge_fuel fuel)
                   (runes s1) (runes s2) 0%nat ;;
  Ok diffs.

(** ** levenshtein.go, [DiffLevenshtein] *)

(** The loop of [DiffLevenshtein] with its three counters. *)
Fixpoint levenshtein_loop (diffs : list Diff) (ret insertions deletions : Z) : Z :=
  match diffs with
  | [] => ret + Z.max insertions deletions
  | aDiff :: rest =>
    match Type_ aDiff with
    | DiffInsert => levenshtein_loop rest ret (insertions + len (Text aDiff)) deletions
    | DiffDelete => levenshtein_loop rest ret insertions (deletions + len (Text aDiff))
    | DiffEqual => levenshtein_loop rest (ret + Z.max insertions deletions) 0 0
    end
  end.

Definition DiffLevenshtein (diffs : list Diff) : Z := levenshtein_loop diffs 0 0 0.

(** ** dmp.go, [MatchMain] *)

Section Match.

(** Modelled from the spec: [dmp.MatchBitap(text, pattern, loc)];
    [matchBitap] is missing from the sources, and [MatchMain] only hands
    its result on: it is a parameter here. *)
Variable MatchBitap : gostring -> gostring -> Z -> Z.

(** [MatchMain].  The clamp [int(math.Max(0, math.Min(float64(loc),
    float64(len(s)))))] goes through [float64]; it is exact because
    [len(s)] is below [2^53]. *)
Definition MatchMain (s pattern : gostring) (loc : Z) : result Z :=
  let loc := Z.max 0 (Z.min loc (len s)) in
  if streq s pattern then Ok 0
  else if len s =? 0 then Ok (-1)
  else
    exact <-
      (if loc + len pattern <=? len s then
         w <- slice_chk s loc (loc + len pattern) ;;
         Ok (streq w pattern)
       else Ok false) ;;
    if exact then Ok loc
    else Ok (MatchBitap s pattern loc).

End Match.

(** ** strings, strconv and net/url, as far as [DiffFromDelta] calls them *)

(** [strings.Split(s, "\t")]: the pieces between the separators; one piece
    more than there are separators. *)
Fixpoint Split_tab (cur : gostring) (s : gostring) : list gostring :=
  match s with
  | [] => [rev cur]
  | c :: rest =>
    if c =? 9 then rev cur :: Split_tab [] rest
    else Split_tab (c :: cur) rest
  end.

(** [strings.Replace(param, "+", "%2b", -1)] *)
Fixpoint Replace_plus (s : gostring) : gostring :=
  match s with
  | [] => []
  | c :: rest =>
    if c =? 43 then 37 :: 50 :: 98 :: Replace_plus rest
    else c :: Replace_plus rest
  end.

Definition ishex (c : byte) : bool :=
  between 48 57 c || between 97 102 c || between 65 70 c.

Definition unhex (c : byte) : Z :=
  if between 48 57 c then c - 48
  else if between 97 102 c then c - 97 + 10
  else if between 65 70 c then c - 65 + 10
  else 0.

(** [url.QueryUnescape]: [%XX] becomes the byte [XX], [+] a space; [None]
    is the [EscapeError] for a [%] that two hexadecimal digits do not
    follow. *)
Fixpoint QueryUnescape (s : gostring) : option gostring :=
  match s with
  | [] => Some []
  | c :: rest =>
    if c =? 37 then
      match rest with
      | h1 :: h2 :: rest' =>
        if ishex h1 && ishex h2 then
          match QueryUnescape rest' with
          | Some r => Some (unhex h1 * 16 + unhex h2 :: r)
          | None => None
          end
        else None
      | _ => None
      end
    else
      match QueryUnescape rest with
      | Some r => Some ((if c =? 43 then 32 else c) :: r)
      | None => None
      end
  end.

(** The largest and the least [int] (64 bits) and the wrap-around of its
    arithmetic. *)
Definition MaxInt : Z := 2 ^ 63 - 1.
Definition MinInt : Z := - 2 ^ 63.
Definition wrap_int (z : Z) : Z := (z + 2 ^ 63) mod 2 ^ 64 - 2 ^ 63.

Fixpoint parse_digits (s : gostring) (acc : Z) : option Z :=
  match s with
  | [] => Some acc
  | c :: rest =>
    if between 48 57 c then parse_digits rest (acc * 10 + (c - 48)) else None
  end.

(** [strconv.ParseInt(s, 10, 0)]: an optional sign and one decimal digit
    or more; [None] is the error for wrong syntax and for a value out of
    the range of [int]. *)
Definition ParseInt (s : gostring) : option Z :=
  match s with
  | [] => None
  | c :: rest =>
    let neg := c =? 45 in
    let digits := if (c =? 43) || (c =? 45) then rest else s in
    match digits with
    | [] => None
    | _ =>
      match parse_digits digits 0 with
      | None => None
      | Some un =>
        let n := if neg then - un else un in
        if (MinInt <=? n) && (n <=? MaxInt) then Some n else None
      end
    end
  end.

(** ** diff_from_delta.go *)

(** The errors of [DiffFromDelta], by the place that returns them. *)
Inductive delta_error : Type :=
| ErrUnescape          (* err of url.QueryUnescape *)
| ErrInvalidUTF8       (* "invalid UTF-8 token" *)
| ErrParseInt          (* err of strconv.ParseInt *)
| ErrNegative          (* "Negative number in DiffFromDelta" *)
| ErrOutOfBound        (* "Index out of bound" *)
| ErrInvalidOperation  (* "Invalid diff operation in DiffFromDelta" *)
| ErrLength.           (* "Delta length ... smaller than source text length" *)

(** The second component of the result: [None] is [nil]. *)
Definition delta_result : Type := (list Diff * option delta_error)%type.

(** The loop over the tokens; [Ok (inl r)] is a [return] from inside the
    loop, [Ok (inr (diffs, pointer))] its regular end. *)
Fixpoint delta_tokens (s : gostring) (tokens : list gostring)
    (diffs : list Diff) (pointer : Z)
  : result (delta_result + list Diff * Z) :=
  match tokens with
  | [] => Ok (inr (diffs, pointer))
  | token :: rest =>
    if len token =? 0 then delta_tokens s rest diffs pointer
    else
      param <- slice_chk token 1 (len token) ;;
      op <- index token 0 ;;
      if op =? 43 (* '+' *) then
        let param := Replace_plus param in
        match QueryUnescape param with
        | None => Ok (inl ([], Some ErrUnescape))
        | Some param =>
          if negb (ValidString param) then Ok (inl ([], Some ErrInvalidUTF8))
          else delta_tokens s rest (diffs ++ [mkDiff DiffInsert param]) pointer
        end
      else if (op =? 61 (* '=' *)) || (op =? 45 (* '-' *)) then
        match ParseInt param with
        | None => Ok (inl (diffs, Some ErrParseInt))
        | Some n =>
          if n <? 0 then Ok (inl (diffs, Some ErrNegative))
          else
            let rs := runes s in
            if len rs <? wrap_int (pointer + n) then
              Ok (inl (diffs, Some ErrOutOfBound))
            else
              text <- slice_chk rs pointer (wrap_int (pointer + n)) ;;
              let text := string_of_runes text in
              let pointer := wrap_int (pointer + n) in
              if op =? 61 then
                delta_tokens s rest (diffs ++ [mkDiff DiffEqual text]) pointer
              else
                delta_tokens s rest (diffs ++ [mkDiff DiffDelete text]) pointer
        end
      else Ok (inl (diffs, Some ErrInvalidOperation))
  end.

Definition DiffFromDelta (s delta : gostring) : result delta_result :=
  let tokens := Split_tab [] delta in
  r <- delta_tokens s tokens [] 0 ;;
  match r with
  | inl res => Ok res
  | inr (diffs, pointer) =>
    if negb (pointer =? len (runes s)) then Ok (diffs, Some ErrLength)
    else Ok (diffs, None)
  end.

(** ** diffCleanupEfficiency *)

(** The variables of the loop of [diffCleanupEfficiency]. *)
Record eff_state : Type := mkEff {
  e_diffs : list Diff;
  e_changes : bool;
  e_equalities : Stack;
  e_lastequality : gostring;
  e_i : Z;
  e_preIns : bool;
  e_preDel : bool;
  e_postIns : bool;
  e_postDel : bool
}.

(** [sum_pres]: how many of the four flags are set. *)
Definition sum_pres (preIns preDel postIns postDel : bool) : Z :=
  Z.b2z preIns + Z.b2z preDel + Z.b2z postIns + Z.b2z postDel.

(** The test that decides the split of the last equality:
    [len(lastequality) > 0 && ((preIns && preDel && postIns && postDel) ||
     ((len(lastequality) < editCost/2) && sum_pres == 3))]; the division
    of [int] truncates. *)
Definition eff_eliminates (editCost : Z) (lastequality : gostring)
    (preIns preDel postIns postDel : bool) : bool :=
  (0 <? len lastequality)
  && ((preIns && preDel && postIns && postDel)
      || ((len lastequality <? Z.quot editCost 2)
          && (sum_pres preIns preDel postIns postDel =? 3))).

(** One iteration of [for i < len(diffs) { ...; i++ }]. *)
Definition eff_step (editCost : Z) (st : eff_state) : result eff_state :=
  let '(mkEff diffs changes equalities lastequality i preIns preDel postIns postDel) := st in
  d <- index diffs i ;;
  if op_eqb (Type_ d) DiffEqual then
    if (len (Text d) <? editCost) && (postIns || postDel) then
      (* Candidate found. *)
      Ok (mkEff diffs changes (Push equalities i) (Text d) (i + 1)
                postIns postDel false false)
    else
      (* Not a candidate, and can never become one. *)
      Ok (mkEff diffs changes (Clear equalities) [] (i + 1)
                preIns preDel false false)
  else
    let postDel := if op_eqb (Type_ d) DiffDelete then true else postDel in
    let postIns := if op_eqb (Type_ d) DiffDelete then postIns else true in
    if eff_eliminates editCost lastequality preIns preDel postIns postDel then
      (* Duplicate record. *)
      hd <- slice_chk diffs 0 (Peek equalities) ;;
      tl <- slice_chk diffs (Peek equalities) (len diffs) ;;
      let diffs := hd ++ mkDiff DiffDelete lastequality :: tl in
      (* Change second copy to insert. *)
      d2 <- index diffs (Peek equalities + 1) ;;
      diffs <- store diffs (Peek equalities + 1) (mkDiff DiffInsert (Text d2)) ;;
      (* Throw away the equality we just deleted. *)
      let equalities := Pop equalities in
      if preIns && preDel then
        (* No changes made which could affect previous entry, keep going. *)
        Ok (mkEff diffs true (Clear equalities) [] (i + 1) preIns preDel true true)
      else
        let '(equalities, i) :=
          if 0 <? Len equalities
          then let equalities := Pop equalities in (equalities, Peek equalities)
          else (equalities, -1) in
        Ok (mkEff diffs true equalities [] (i + 1) preIns preDel false false)
    else
      Ok (mkEff diffs changes equalities lastequality (i + 1)
                preIns preDel postIns postDel).

Fixpoint eff_loop (editCost : Z) (fuel : nat) (st : eff_state) : result eff_state :=
  if e_i st <? len (e_diffs st) then
    match fuel with
    | O => OutOfFuel
    | S fuel' => st' <- eff_step editCost st ;; eff_loop editCost fuel' st'
    end
  else Ok st.

(** [diffCleanupEfficiency].  The loop splits at most one equality per
    entry of the script and scans at most the whole script between two
    splits. *)
Definition diffCleanupEfficiency (merge_fuel : nat) (diffs : list Diff) (editCost : Z)
  : result (list Diff) :=
  st <- eff_loop editCost ((length diffs + 1) * (2 * length diffs + 2))
          (mkEff diffs false [] [] 0 false false false false) ;;
  if e_changes st then DiffCleanupMerge_fuel merge_fuel (e_diffs st)
  else Ok (e_diffs st).

(** dmp.go, [DiffCleanupEfficiency]: the edit cost is [dmp.DiffEditCost]. *)
Definition DiffCleanupEfficiency (DiffEditCost : Z) (merge_fuel : nat) (diffs : list Diff)
  : result (list Diff) :=
  diffCleanupEfficiency merge_fuel diffs DiffEditCost.

(** ** diff_xindex.go *)

Section XIndex.

(** [Diff{}], the value of [lastDiff] when the loop is not left through
    [break], has the zero value of [Operation] as its type; the
    declaration of [Operation] is missing from the sources, and the
    zero value is a parameter here. *)
Variable zero_Operation : Operation.

(** The loop of [DiffXIndex]; the result is [lastChars1], [lastChars2]
    and [lastDiff] when the loop is left. *)
Fixpoint xindex_loop (diffs : list Diff) (loc chars1 chars2 lastChars1 lastChars2 : Z)
    (lastDiff : Diff) : Z * Z * Diff :=
  match diffs with
  | [] => (lastChars1, lastChars2, lastDiff)
  | aDiff :: rest =>
    (* Equality or deletion. *)
    let chars1 :=
      if negb (op_eqb (Type_ aDiff) DiffInsert) then chars1 + len (Text aDiff)
      else chars1 in
    (* Equality or insertion. *)
    let chars2 :=
      if negb (op_eqb (Type_ aDiff) DiffDelete) then chars2 + len (Text aDiff)
      else chars2 in
    if loc <? chars1 then
      (* Overshot the location. *)
      (lastChars1, lastChars2, aDiff)
    else xindex_loop rest loc chars1 chars2 chars1 chars2 lastDiff
  end.

(** [DiffXIndex].  The sums are those of Go as long as
    [lastChars2 + (loc - lastChars1)] does not exceed the largest [int];
    beyond that Go's addition wraps, and the theorems on [DiffXIndex]
    bound [loc] accordingly. *)
Definition DiffXIndex (diffs : list Diff) (loc : Z) : Z :=
  let '(lastChars1, lastChars2, lastDiff) :=
    xindex_loop diffs loc 0 0 0 0 (mkDiff zero_Operation []) in
  if op_eqb (Type_ lastDiff) DiffDelete then
    (* The location was deleted. *)
    lastChars2
  else
    (* Add the remaining character length. *)
    lastChars2 + (loc - lastChars1).

End XIndex.

(** ** DiffPrettyHtml *)

(** [html.EscapeString]: the five characters ampersand, apostrophe,
    less-than, greater-than and quotation mark are replaced by
    [&amp;], [&#39;], [&lt;], [&gt;] and [&#34;]. *)
Definition escape_byte (c : byte) : gostring :=
  if c =? 38 then [38; 97; 109; 112; 59]
  else if c =? 39 then [38; 35; 51; 57; 59]
  else if c =? 60 then [38; 108; 116; 59]
  else if c =? 62 then [38; 103; 116; 59]
  else if c =? 34 then [38; 35; 51; 52; 59]
  else [c].

Definition EscapeString (s : gostring) : gostring := flat_map escape_byte s.

(** [strings.Replace(s, "\n", "&para;<br>", -1)]. *)
Definition Replace_newline (s : gostring) : gostring :=
  flat_map (fun c => if c =? 10 then [38; 112; 97; 114; 97; 59; 60; 98; 114; 62] else [c]) s.

(** The tags that [DiffPrettyHtml] writes around a payload: [<ins
    style=...>] with the background [#e6ffe6] and [</ins>], [<del
    style=...>] with the background [#ffe6e6] and [</del>], [<span>]
    and [</span>]. *)
Definition ins_open : gostring :=
  [60; 105; 110; 115; 32; 115; 116; 121; 108; 101; 61; 34; 98; 97; 99; 107; 103; 114;
   111; 117; 110; 100; 58; 35; 101; 54; 102; 102; 101; 54; 59; 34; 62].
Definition ins_close : gostring := [60; 47; 105; 110; 115; 62].
Definition del_open : gostring :=
  [60; 100; 101; 108; 32; 115; 116; 121; 108; 101; 61; 34; 98; 97; 99; 107; 103; 114;
   111; 117; 110; 100; 58; 35; 102; 102; 101; 54; 101; 54; 59; 34; 62].
Definition del_close : gostring := [60; 47; 100; 101; 108; 62].
Definition span_open : gostring := [60; 115; 112; 97; 110; 62].
Definition span_close : gostring := [60; 47; 115; 112; 97; 110; 62].

(** [DiffPrettyHtml]: what the loop writes to the buffer. *)
Fixpoint DiffPrettyHtml (diffs : list Diff) : gostring :=
  match diffs with
  | [] => []
  | d :: rest =>
    let text := Replace_newline (EscapeString (Text d)) in
    match Type_ d with
    | DiffInsert => ins_open ++ text ++ ins_close
    | DiffDelete => del_open ++ text ++ del_close
    | DiffEqual => span_open ++ text ++ span_close
    end ++ DiffPrettyHtml rest
  end.

(** * Properties

    The rest of the file states and proves properties of the functions
    above.  The definitions they need come first: well-formed UTF-8, the
    invariants of the loops, and the scripts on which the functions are
    evaluated. *)

(** ** Well-formed UTF-8 *)

(** A continuation byte. *)
Definition cont (b : byte) : Prop := 0x80 <= b <= 0xBF.

(** The runes that two, three and four bytes encode. *)
Definition rune2 (s0 s1 : byte) : rune := (s0 - 0xC0) * 64 + (s1 - 0x80).

Definition rune3 (s0 s1 s2 : byte) : rune :=
  (s0 - 0xE0) * 4096 + (s1 - 0x80) * 64 + (s2 - 0x80).

Definition rune4 (s0 s1 s2 s3 : byte) : rune :=
  (s0 - 0xF0) * 262144 + (s1 - 0x80) * 4096 + (s2 - 0x80) * 64 + (s3 - 0x80).

(** [chunk x r]: [x] is the well-formed UTF-8 encoding of one rune [r]. *)
Inductive chunk : gostring -> rune -> Prop :=
| chunk1 s0 : s0 < 0x80 -> chunk [s0] s0
| chunk2 s0 s1 :
    0xC2 <= s0 < 0xE0 -> cont s1 -> chunk [s0; s1] (rune2 s0 s1)
| chunk3 s0 s1 s2 :
    0xE0 <= s0 < 0xF0 -> accept_lo s0 <= s1 <= accept_hi s0 -> cont s2 ->
    chunk [s0; s1; s2] (rune3 s0 s1 s2)
| chunk4 s0 s1 s2 s3 :
    0xF0 <= s0 <= 0xF4 -> accept_lo s0 <= s1 <= accept_hi s0 -> cont s2 -> cont s3 ->
    chunk [s0; s1; s2; s3] (rune4 s0 s1 s2 s3).

(** [valid s rs]: [s] is well-formed UTF-8 and encodes the runes [rs]. *)
Inductive valid : gostring -> list rune -> Prop :=
| valid_nil : valid [] []
| valid_cons x r rest rs :
    chunk x r -> valid rest rs -> valid (x ++ rest) (r :: rs).

(** [s] is well-formed UTF-8. *)
Definition V (s : gostring) : Prop := exists rs, valid s rs.

(** ** The loop of [DiffCleanupSemanticLossless] that slides an edit *)

(** The state after one more step to the right. *)
Definition slide_next (st : slide_state) : slide_state :=
  let sz := Z.to_nat (snd (DecodeRuneInString (sl_edit st))) in
  let x := firstn sz (sl_edit st) in
  let equality1 := sl_equality1 st ++ x in
  let edit := skipn sz (sl_edit st) ++ x in
  let equality2 := skipn sz (sl_equality2 st) in
  let score := diffCleanupSemanticScore equality1 edit +
               diffCleanupSemanticScore edit equality2 in
  if sl_bestScore st <=? score
  then mkSlide equality1 edit equality2 equality1 edit equality2 score
  else mkSlide equality1 edit equality2 (sl_bestEquality1 st) (sl_bestEdit st)
               (sl_bestEquality2 st) (sl_bestScore st).

(** Whether the loop takes one more step. *)
Definition slide_goes (st : slide_state) : bool :=
  let sz := snd (DecodeRuneInString (sl_edit st)) in
  negb (len (sl_edit st) =? 0) && negb (len (sl_equality2 st) =? 0)
  && negb (len (sl_equality2 st) <? sz)
  && streq (firstn (Z.to_nat sz) (sl_edit st)) (firstn (Z.to_nat sz) (sl_equality2 st)).

(** The two texts that every position of the edit keeps. *)
Definition tape (U W eq1 edit eq2 : gostring) : Prop :=
  eq1 ++ eq2 = U /\ eq1 ++ edit ++ eq2 = W.

(** The three pieces are well-formed. *)
Definition Al (eq1 edit eq2 : gostring) : Prop := V eq1 /\ V edit /\ V eq2.

(** The edit starts and ends inside the encoding [h1 ++ h2] of a rune. *)
Definition Mis (eq1 edit eq2 : gostring) : Prop :=
  exists A h1 h2 M B r,
    eq1 = A ++ h1 /\ edit = h2 ++ M ++ h1 /\ eq2 = h2 ++ B
    /\ h1 <> [] /\ h2 <> [] /\ V A /\ V M /\ V B /\ chunk (h1 ++ h2) r.

(** The invariant of the loop: both the current and the best position
    keep the two texts; either both are between encodings, or the
    current one is inside an encoding and then no position scored more
    than two points so far. *)
Definition slide_inv (U W : gostring) (st : slide_state) : Prop :=
  tape U W (sl_equality1 st) (sl_edit st) (sl_equality2 st)
  /\ tape U W (sl_bestEquality1 st) (sl_bestEdit st) (sl_bestEquality2 st)
  /\ ((Al (sl_equality1 st) (sl_edit st) (sl_equality2 st)
       /\ Al (sl_bestEquality1 st) (sl_bestEdit st) (sl_bestEquality2 st))
      \/ (Mis (sl_equality1 st) (sl_edit st) (sl_equality2 st)
          /\ sl_bestScore st <= 2)).

(** What [lossless_edit] makes of the three entries at [pointer - 1],
    [pointer] and [pointer + 1]. *)
Inductive edit_outcome (p e n : Diff) (pointer : Z) : list Diff -> Z -> Prop :=
| outcome_same : edit_outcome p e n pointer [p; e; n] pointer
| outcome_moved b1 be b2 :
    tape (Text p ++ Text n) (Text p ++ Text e ++ Text n) b1 be b2 ->
    Al b1 be b2 -> b1 <> [] -> b2 <> [] ->
    edit_outcome p e n pointer
      [mkDiff (Type_ p) b1; mkDiff (Type_ e) be; mkDiff (Type_ n) b2] pointer
| outcome_no_left be b2 :
    tape (Text p ++ Text n) (Text p ++ Text e ++ Text n) [] be b2 ->
    Al [] be b2 -> b2 <> [] ->
    edit_outcome p e n pointer
      [mkDiff (Type_ e) be; mkDiff (Type_ n) b2] (pointer - 1)
| outcome_no_right b1 be :
    tape (Text p ++ Text n) (Text p ++ Text e ++ Text n) b1 be [] ->
    Al b1 be [] -> b1 <> [] ->
    edit_outcome p e n pointer
      [mkDiff (Type_ p) b1; mkDiff (Type_ e) be] (pointer - 1).

(** Every payload is well-formed, as a proposition and as the test
    [utf8.ValidString]. *)
Definition all_valid (diffs : list Diff) : Prop := Forall (fun d => V (Text d)) diffs.

Definition valid_payloads (diffs : list Diff) : Prop :=
  Forall (fun d => ValidString (Text d) = true) diffs.

(** A script with multi-byte payloads: the equality "The ", U+2655,
    ". The ", the insertion of U+2654, ". The " and the equality
    U+2656, ".". *)
Definition chess_script : list Diff :=
  [mkDiff DiffEqual [84; 104; 101; 32; 0xE2; 0x99; 0x95; 46; 32; 84; 104; 101; 32];
   mkDiff DiffInsert [0xE2; 0x99; 0x94; 46; 32; 84; 104; 101; 32];
   mkDiff DiffEqual [0xE2; 0x99; 0x96; 46]].

(** ** The scan of [DiffCleanupSemantic] *)

(** An insertion or a deletion. *)
Definition is_edit (d : Diff) : bool := negb (op_eqb (Type_ d) DiffEqual).

(** Bytes inserted and bytes deleted by a part of a script. *)
Fixpoint ins_len (ds : list Diff) : Z :=
  match ds with
  | [] => 0
  | d :: r => (if op_eqb (Type_ d) DiffInsert then len (Text d) else 0) + ins_len r
  end.

Fixpoint del_len (ds : list Diff) : Z :=
  match ds with
  | [] => 0
  | d :: r => (if op_eqb (Type_ d) DiffDelete then len (Text d) else 0) + del_len r
  end.

Definition edits (ds : list Diff) : Prop := Forall (fun d => is_edit d = true) ds.

(** The part of the script before the last run of edits, with the stack
    of the indices of its equalities: it is empty or ends with an
    equality. *)
Inductive blocks : list Diff -> Stack -> Prop :=
| blocks_nil : blocks [] []
| blocks_cons pre es e st :
    blocks pre st -> edits es ->
    blocks (pre ++ es ++ [mkDiff DiffEqual e]) (len (pre ++ es) :: st).

(** What the counters of the first side and [lastequality] hold. *)
Definition live (pre : list Diff) (st : sem_state) : Prop :=
  s_lastequality st = [] \/
  exists pre' es' stack',
    pre = pre' ++ es' ++ [mkDiff DiffEqual (s_lastequality st)]
    /\ s_equalities st = len (pre' ++ es') :: stack'
    /\ blocks pre' stack' /\ edits es'
    /\ s_length_insertions1 st = ins_len es'
    /\ s_length_deletions1 st = del_len es'.

(** The invariant of the scan: the script is [pre ++ es ++ rest] with
    the cursor at [rest]; [es] are the edits since the last equality. *)
Definition sem_inv (st : sem_state) : Prop :=
  exists pre es rest,
    s_diffs st = pre ++ es ++ rest
    /\ s_pointer st = len (pre ++ es)
    /\ edits es
    /\ blocks pre (s_equalities st)
    /\ s_length_insertions2 st = ins_len es
    /\ s_length_deletions2 st = del_len es
    /\ live pre st.

(** The states of the loop on the script [diffs0]. *)
Inductive sem_reach (diffs0 : list Diff) : sem_state -> Prop :=
| reach_init : sem_reach diffs0 (mkSem diffs0 false [] [] 0 0 0 0 0)
| reach_step st st' :
    sem_reach diffs0 st -> (s_pointer st <? len (s_diffs st)) = true ->
    sem_step st = Ok st' -> sem_reach diffs0 st'.

(** An equality [e] between the edits [before] and [after] that is not
    longer than either side. *)
Definition dominated (before after : list Diff) (e : gostring) : Prop :=
  0 < len e
  /\ len e <= Z.max (ins_len before) (del_len before)
  /\ len e <= Z.max (ins_len after) (del_len after).

(** Codepoints inserted and codepoints deleted by a part of a script. *)
Fixpoint ins_runes (ds : list Diff) : Z :=
  match ds with
  | [] => 0
  | d :: r => (if op_eqb (Type_ d) DiffInsert then len (runes (Text d)) else 0) + ins_runes r
  end.

Fixpoint del_runes (ds : list Diff) : Z :=
  match ds with
  | [] => 0
  | d :: r => (if op_eqb (Type_ d) DiffDelete then len (runes (Text d)) else 0) + del_runes r
  end.

(** An equality [e] between the edits [before] and [after] that has no
    more codepoints than either side. *)
Definition dominated_runes (before after : list Diff) (e : gostring) : Prop :=
  0 < len (runes e)
  /\ len (runes e) <= Z.max (ins_runes before) (del_runes before)
  /\ len (runes e) <= Z.max (ins_runes after) (del_runes after).

(** Nothing or an equality stands right before a run of edits. *)
Definition ends_with_equality (pre : list Diff) : Prop :=
  pre = [] \/ exists pre0 t, pre = pre0 ++ [mkDiff DiffEqual t].

(** The script of the test "Simple elimination" and the state of the
    scan when it reaches the last entry. *)
Definition simple_elimination : list Diff :=
  [mkDiff DiffDelete [97]; mkDiff DiffEqual [98]; mkDiff DiffDelete [99]].

Definition simple_elimination_at_2 : sem_state :=
  mkSem simple_elimination false [1] [98] 2 0 1 0 0.

(** ** [MatchMain] *)

(** [s[loc : loc + len(pattern)] == pattern], with the test of the bound
    before it. *)
Definition occurs_at (s pattern : gostring) (loc : Z) : bool :=
  (loc + len pattern <=? len s) && streq (slice s loc (loc + len pattern)) pattern.

(** A matcher that never finds anything. *)
Definition no_bitap (s pattern : gostring) (loc : Z) : Z := -1.

(** ** [DiffLevenshtein] by runs *)

(** The runs of edits that the equalities of a script delimit. *)
Fixpoint runs_of (diffs : list Diff) : list (list Diff) :=
  match diffs with
  | [] => [[]]
  | d :: rest =>
    if op_eqb (Type_ d) DiffEqual then [] :: runs_of rest
    else match runs_of rest with
         | run :: runs => (d :: run) :: runs
         | [] => [[d]]
         end
  end.

(** The payloads of kind [op] in a run, measured by [measure]. *)
Fixpoint measured (measure : gostring -> Z) (op : Operation) (run : list Diff) : Z :=
  match run with
  | [] => 0
  | d :: r =>
    (if op_eqb (Type_ d) op then measure (Text d) else 0) + measured measure op r
  end.

(** The sum over the runs of the larger of the insertions and the
    deletions. *)
Definition levenshtein_runs (measure : gostring -> Z) (diffs : list Diff) : Z :=
  fold_right Z.add 0
    (map (fun run => Z.max (measured measure DiffInsert run)
                           (measured measure DiffDelete run))
         (runs_of diffs)).

(** Bytes below 0x80. *)
Definition ascii (s : gostring) : Prop := Forall (fun b => 0 <= b < 0x80) s.

(** ** [DiffFromDelta] *)

(** The count of a token does not carry the cursor beyond the largest
    [int]. *)
Definition count_fits (s token : gostring) : Prop :=
  forall n, ParseInt (slice token 1 (len token)) = Some n ->
            len (runes s) + n <= MaxInt.

(** ** Inputs on which the functions are evaluated *)

(** A clock that never passes the deadline. *)
Definition never : clock := fun _ => false.

(** Two texts of more than a hundred characters that share two lines:
    "abc\n0123456789\n" followed by a hundred "p", and
    "xyzabc\n0123456789\n" followed by a hundred "q". *)
Definition linemode_text1 : gostring :=
  [97; 98; 99; 10] ++ [48; 49; 50; 51; 52; 53; 54; 55; 56; 57; 10] ++ repeat 112 100.

Definition linemode_text2 : gostring :=
  [120; 121; 122; 97; 98; 99; 10] ++ [48; 49; 50; 51; 52; 53; 54; 55; 56; 57; 10]
  ++ repeat 113 100.

(** What [DiffMain] makes of them in line mode. *)
Definition linemode_script : list Diff :=
  [mkDiff DiffInsert [120; 121; 122];
   mkDiff DiffEqual [98; 99; 10];
   mkDiff DiffDelete [];
   mkDiff DiffEqual [48; 49; 50; 51; 52; 53; 54; 55; 56; 57; 10];
   mkDiff DiffDelete (repeat 112 100);
   mkDiff DiffInsert (repeat 113 100)].

(** The delta "=1", TAB, "=9223372036854775807". *)
Definition overflow_delta : gostring :=
  [61; 49; 9; 61] ++
  [57; 50; 50; 51; 51; 55; 50; 48; 51; 54; 56; 53; 52; 55; 55; 53; 56; 48; 55].

(** U+00E9 is encoded by the bytes C3 A9. *)
Definition e_acute : gostring := [0xC3; 0xA9].

(** ** Further definitions *)

(** The last [m] bytes of [s1] are the first [m] bytes of [s2]. *)
Definition overlaps (s1 s2 : gostring) (m : Z) : Prop :=
  exists u w v, s1 = u ++ w /\ s2 = w ++ v /\ len w = m.

(** [pattern] stands in [s] after the bytes [a]. *)
Definition occurs (s pattern a : gostring) : Prop :=
  exists b, s = a ++ pattern ++ b.

(** A Unicode scalar value: a code point that is not a surrogate. *)
Definition scalar (r : rune) : Prop :=
  0 <= r < 0xD800 \/ 0xE000 <= r <= 0x10FFFF.

(** A string of bytes. *)
Definition bytes (s : gostring) : Prop := Forall (fun b => 0 <= b < 256) s.

(** The number of equalities of a script. *)
Fixpoint count_eq (ds : list Diff) : Z :=
  match ds with
  | [] => 0
  | d :: r => (if op_eqb (Type_ d) DiffEqual then 1 else 0) + count_eq r
  end.

(** What [lastequality] and the top of the stack hold. *)
Definition eff_live (st : eff_state) : Prop :=
  e_lastequality st = [] \/
  exists hd tl stack',
    e_diffs st = hd ++ mkDiff DiffEqual (e_lastequality st) :: tl
    /\ e_equalities st = len hd :: stack'.

(** The invariant of the scan. *)
Definition eff_inv (st : eff_state) : Prop :=
  0 <= e_i st <= len (e_diffs st)
  /\ Forall (fun q => 0 <= q < len (e_diffs st)) (e_equalities st)
  /\ eff_live st.

(** No equality of the script is shorter than the edit cost. *)
Definition no_short_equality (editCost : Z) (diffs : list Diff) : Prop :=
  Forall (fun d => op_eqb (Type_ d) DiffEqual = true -> editCost <= len (Text d)) diffs.

(** The payloads of a script are bytes below 0x80. *)
Definition ascii_payloads (ds : list Diff) : Prop :=
  Forall (fun d => ascii (Text d)) ds.

(** The entries of a script and the bytes of its edits. *)
Definition weight (ds : list Diff) : Z := len ds + ins_len ds + del_len ds.

(** The entries of kind [op] in a script. *)
Fixpoint count_op (op : Operation) (ds : list Diff) : Z :=
  match ds with
  | [] => 0
  | d :: r => (if op_eqb (Type_ d) op then 1 else 0) + count_op op r
  end.

(** What a step of the second pass of [DiffCleanupMerge] that shifts
    the edit [e] makes of the three entries around [i]. *)
Inductive shifted (p e n : Diff) : list Diff -> Prop :=
| shifted_left x :
    Text e = x ++ Text p ->
    shifted p e n [mkDiff (Type_ e) (Text p ++ x); mkDiff DiffEqual (Text p ++ Text n)]
| shifted_right y :
    Text e = Text n ++ y ->
    shifted p e n [mkDiff DiffEqual (Text p ++ Text n); mkDiff (Type_ e) (y ++ Text n)].

(** * Proofs *)

(** ** Decoding UTF-8 *)

(** Bit operations as arithmetic *)
Lemma land_ones_mod (x n : Z) : 0 <= n -> Z.land x (2 ^ n - 1) = x mod 2 ^ n.
Proof.
  intros Hn. rewrite <- Z.land_ones by assumption.
  rewrite Z.ones_equiv. reflexivity.
Qed.

Lemma lor_shiftl_add (hi lo n : Z) :
  0 <= n -> 0 <= lo < 2 ^ n -> Z.lor (Z.shiftl hi n) lo = hi * 2 ^ n + lo.
Proof.
  intros Hn Hlo.
  rewrite Z.shiftl_mul_pow2 by assumption.
  rewrite <- Z.add_lor_land.
  assert (E : Z.land (hi * 2 ^ n) lo = 0).
  { apply Z.bits_inj'. intros i Hi. rewrite Z.land_spec, Z.bits_0.
    destruct (Z.lt_ge_cases i n) as [Hlt|Hge].
    - rewrite Z.mul_pow2_bits_low by assumption. reflexivity.
    - replace (Z.testbit lo i) with false; [apply andb_false_r|].
      symmetry. destruct (Z.eq_dec lo 0) as [->|Hne]; [apply Z.bits_0|].
      apply Z.bits_above_log2; [lia|].
      apply Z.log2_lt_pow2; [lia|].
      apply Z.lt_le_trans with (2 ^ n); [lia|].
      apply Z.pow_le_mono_r; lia. }
  rewrite E. lia.
Qed.

Lemma lor_low (hi lo : Z) (n : Z) (k : Z) :
  0 <= n -> hi = k * 2 ^ n -> 0 <= lo < 2 ^ n -> Z.lor hi lo = hi + lo.
Proof.
  intros Hn -> Hlo. rewrite <- (Z.shiftl_mul_pow2 k n) by assumption.
  rewrite lor_shiftl_add by assumption. rewrite Z.shiftl_mul_pow2 by assumption. reflexivity.
Qed.

Lemma land_1F s0 : 0xC0 <= s0 < 0xE0 -> Z.land s0 0x1F = s0 - 0xC0.
Proof.
  intros H. change 0x1F with (2 ^ 5 - 1). rewrite land_ones_mod by lia.
  change (2 ^ 5) with 32. Z.div_mod_to_equations. lia.
Qed.

Lemma land_0F s0 : 0xE0 <= s0 < 0xF0 -> Z.land s0 0x0F = s0 - 0xE0.
Proof.
  intros H. change 0x0F with (2 ^ 4 - 1). rewrite land_ones_mod by lia.
  change (2 ^ 4) with 16. Z.div_mod_to_equations. lia.
Qed.

Lemma land_07 s0 : 0xF0 <= s0 < 0xF8 -> Z.land s0 0x07 = s0 - 0xF0.
Proof.
  intros H. change 0x07 with (2 ^ 3 - 1). rewrite land_ones_mod by lia.
  change (2 ^ 3) with 8. Z.div_mod_to_equations. lia.
Qed.

Lemma land_3F s1 : 0x80 <= s1 <= 0xBF -> Z.land s1 0x3F = s1 - 0x80.
Proof.
  intros H. change 0x3F with (2 ^ 6 - 1). rewrite land_ones_mod by lia.
  change (2 ^ 6) with 64. Z.div_mod_to_equations. lia.
Qed.

Lemma accept_cont s0 s1 : accept_lo s0 <= s1 <= accept_hi s0 -> cont s1.
Proof.
  unfold accept_lo, accept_hi, cont, locb, hicb.
  destruct (s0 =? 0xE0); destruct (s0 =? 0xF0); destruct (s0 =? 0xED);
    destruct (s0 =? 0xF4); lia.
Qed.

Lemma bits2 s0 s1 :
  0xC2 <= s0 < 0xE0 -> cont s1 ->
  Z.lor (Z.shiftl (Z.land s0 0x1F) 6) (Z.land s1 0x3F) = rune2 s0 s1.
Proof.
  intros H0 H1. unfold cont in *. rewrite land_1F, land_3F by lia.
  rewrite lor_shiftl_add by (change (2 ^ 6) with 64; lia).
  unfold rune2. change (2 ^ 6) with 64. lia.
Qed.

Lemma shiftl_c x n : 0 <= n -> Z.shiftl x n = x * 2 ^ n.
Proof. intros. apply Z.shiftl_mul_pow2. assumption. Qed.

Lemma bits3 s0 s1 s2 :
  0xE0 <= s0 < 0xF0 -> cont s1 -> cont s2 ->
  Z.lor (Z.lor (Z.shiftl (Z.land s0 0x0F) 12) (Z.shiftl (Z.land s1 0x3F) 6))
        (Z.land s2 0x3F) = rune3 s0 s1 s2.
Proof.
  intros H0 H1 H2. unfold cont in *. rewrite land_0F, !land_3F by lia.
  rewrite (shiftl_c _ 6) by lia.
  rewrite (lor_shiftl_add _ _ 12) by (change (2 ^ 12) with 4096; change (2 ^ 6) with 64; lia).
  change (2 ^ 12) with 4096; change (2 ^ 6) with 64.
  rewrite (lor_low _ _ 6 ((s0 - 224) * 64 + (s1 - 128)))
    by (change (2 ^ 6) with 64; lia).
  unfold rune3. lia.
Qed.

Lemma bits4 s0 s1 s2 s3 :
  0xF0 <= s0 <= 0xF4 -> cont s1 -> cont s2 -> cont s3 ->
  Z.lor (Z.lor (Z.lor (Z.shiftl (Z.land s0 0x07) 18) (Z.shiftl (Z.land s1 0x3F) 12))
               (Z.shiftl (Z.land s2 0x3F) 6))
        (Z.land s3 0x3F) = rune4 s0 s1 s2 s3.
Proof.
  intros H0 H1 H2 H3. unfold cont in *. rewrite land_07, !land_3F by lia.
  rewrite (shiftl_c _ 12), (shiftl_c _ 6) by lia.
  rewrite (lor_shiftl_add _ _ 18)
    by (change (2 ^ 18) with 262144; change (2 ^ 12) with 4096; lia).
  change (2 ^ 18) with 262144; change (2 ^ 12) with 4096; change (2 ^ 6) with 64.
  rewrite (lor_low ((s0 - 240) * 262144 + (s1 - 128) * 4096) ((s2 - 128) * 64)
             12 ((s0 - 240) * 64 + (s1 - 128)))
    by (change (2 ^ 12) with 4096; lia).
  rewrite (lor_low _ _ 6 ((s0 - 240) * 4096 + (s1 - 128) * 64 + (s2 - 128)))
    by (change (2 ^ 6) with 64; lia).
  unfold rune4. lia.
Qed.

Lemma between_true lo hi b : between lo hi b = true <-> lo <= b <= hi.
Proof. unfold between. rewrite andb_true_iff, !Z.leb_le. tauto. Qed.

Lemma accept_bounds s0 :
  0x80 <= accept_lo s0 /\ accept_hi s0 <= 0xBF.
Proof.
  unfold accept_lo, accept_hi, locb, hicb.
  destruct (s0 =? 0xE0); destruct (s0 =? 0xF0); destruct (s0 =? 0xED);
    destruct (s0 =? 0xF4); lia.
Qed.

(** Decoding the encoding of one rune consumes exactly its bytes. *)
Lemma decode_chunk x r rest :
  chunk x r -> DecodeRuneInString (x ++ rest) = (r, len x).
Proof.
  intros H. destruct H as [s0 H0|s0 s1 H0 H1|s0 s1 s2 H0 H1 H2|s0 s1 s2 s3 H0 H1 H2 H3];
    cbn [app DecodeRuneInString].
  - destruct (Z.ltb_spec s0 0x80); [reflexivity|lia].
  - destruct (Z.ltb_spec s0 0x80); [lia|].
    destruct (Z.ltb_spec s0 0xC2); [lia|]. destruct (Z.ltb_spec 0xF4 s0); [lia|].
    cbn [orb].
    assert (Ha : between (accept_lo s0) (accept_hi s0) s1 = true).
    { apply between_true. unfold accept_lo, accept_hi, locb, hicb, cont in *.
      destruct (Z.eqb_spec s0 0xE0); [lia|]. destruct (Z.eqb_spec s0 0xF0); [lia|].
      destruct (Z.eqb_spec s0 0xED); [lia|]. destruct (Z.eqb_spec s0 0xF4); [lia|]. lia. }
    rewrite Ha. cbn [negb]. destruct (Z.ltb_spec s0 0xE0); [|lia].
    rewrite bits2 by assumption. reflexivity.
  - destruct (Z.ltb_spec s0 0x80); [lia|].
    destruct (Z.ltb_spec s0 0xC2); [lia|]. destruct (Z.ltb_spec 0xF4 s0); [lia|].
    cbn [orb].
    assert (Ha : between (accept_lo s0) (accept_hi s0) s1 = true)
      by (apply between_true; assumption).
    rewrite Ha. cbn [negb]. destruct (Z.ltb_spec s0 0xE0); [lia|].
    assert (Hb : between locb hicb s2 = true) by (apply between_true; exact H2).
    rewrite Hb. cbn [negb]. destruct (Z.ltb_spec s0 0xF0); [|lia].
    rewrite bits3; [reflexivity|assumption|eapply accept_cont; eassumption|assumption].
  - destruct (Z.ltb_spec s0 0x80); [lia|].
    destruct (Z.ltb_spec s0 0xC2); [lia|]. destruct (Z.ltb_spec 0xF4 s0); [lia|].
    cbn [orb].
    assert (Ha : between (accept_lo s0) (accept_hi s0) s1 = true)
      by (apply between_true; assumption).
    rewrite Ha. cbn [negb]. destruct (Z.ltb_spec s0 0xE0); [lia|].
    assert (Hb : between locb hicb s2 = true) by (apply between_true; exact H2).
    rewrite Hb. cbn [negb]. destruct (Z.ltb_spec s0 0xF0); [lia|].
    assert (Hc : between locb hicb s3 = true) by (apply between_true; exact H3).
    rewrite Hc. cbn [negb].
    rewrite bits4; [reflexivity|assumption|eapply accept_cont; eassumption|assumption|assumption].
Qed.

(** A non-empty string starts with the encoding of a rune, or with a
    byte of [0x80] or more that decodes to [(RuneError, 1)]. *)
Lemma decode_cases s :
  s <> [] ->
  (exists x r rest, s = x ++ rest /\ chunk x r)
  \/ (DecodeRuneInString s = (RuneError, 1) /\ 0x80 <= hd 0 s).
Proof.
  intros Hs. destruct s as [|s0 t]; [congruence|].
  cbn [DecodeRuneInString hd].
  destruct (Z.ltb_spec s0 0x80).
  { left. exists [s0], s0, t. split; [reflexivity|constructor; assumption]. }
  destruct (Z.ltb_spec s0 0xC2); [right; split; [reflexivity|lia]|].
  destruct (Z.ltb_spec 0xF4 s0); [right; split; [reflexivity|lia]|].
  cbn [orb].
  destruct t as [|s1 t1]; [right; split; [reflexivity|lia]|].
  destruct (between (accept_lo s0) (accept_hi s0) s1) eqn:Ha;
    [|right; split; [reflexivity|lia]].
  apply between_true in Ha. cbn [negb].
  destruct (Z.ltb_spec s0 0xE0).
  { left. exists [s0; s1], (rune2 s0 s1), t1. split; [reflexivity|].
    constructor; [lia|]. eapply accept_cont; eassumption. }
  destruct t1 as [|s2 t2]; [right; split; [reflexivity|lia]|].
  destruct (between locb hicb s2) eqn:Hb; [|right; split; [reflexivity|lia]].
  apply between_true in Hb. cbn [negb].
  destruct (Z.ltb_spec s0 0xF0).
  { left. exists [s0; s1; s2], (rune3 s0 s1 s2), t2. split; [reflexivity|].
    constructor; [lia|assumption|exact Hb]. }
  destruct t2 as [|s3 t3]; [right; split; [reflexivity|lia]|].
  destruct (between locb hicb s3) eqn:Hc; [|right; split; [reflexivity|lia]].
  apply between_true in Hc. cbn [negb].
  left. exists [s0; s1; s2; s3], (rune4 s0 s1 s2 s3), t3. split; [reflexivity|].
  constructor; [lia|assumption|exact Hb|exact Hc].
Qed.

Ltac accept_cases s0 :=
  unfold accept_lo, accept_hi, locb, hicb, cont in *;
  destruct (Z.eqb_spec s0 0xE0); destruct (Z.eqb_spec s0 0xF0);
  destruct (Z.eqb_spec s0 0xED); destruct (Z.eqb_spec s0 0xF4).

Lemma len_nil {A} : len (@nil A) = 0.
Proof. reflexivity. Qed.

Lemma len_cons {A} (a : A) l : len (a :: l) = 1 + len l.
Proof. unfold len. cbn [length]. lia. Qed.

Lemma len_app {A} (a b : list A) : len (a ++ b) = len a + len b.
Proof. unfold len. rewrite length_app. lia. Qed.

Lemma len_nonneg {A} (a : list A) : 0 <= len a.
Proof. unfold len. lia. Qed.

Lemma len_0 {A} (a : list A) : len a = 0 -> a = [].
Proof. destruct a as [|x l]; [reflexivity|]. rewrite len_cons. pose proof (len_nonneg l). lia. Qed.

Lemma chunk_len x r : chunk x r -> 1 <= len x <= 4.
Proof. intros H; destruct H; cbn; lia. Qed.

Lemma chunk_nonempty x r : chunk x r -> x <> [].
Proof. intros H; destruct H; discriminate. Qed.

(** The rune of a multi-byte encoding is not ASCII, and the size of the
    encoding is determined by the rune. *)
Lemma chunk_rune_range x r :
  chunk x r ->
  (len x = 1 /\ r < 0x80) \/ (len x = 2 /\ 0x80 <= r < 0x800)
  \/ (len x = 3 /\ 0x800 <= r < 0x10000) \/ (len x = 4 /\ 0x10000 <= r <= 0x10FFFF).
Proof.
  intros H. destruct H as [s0 H0|s0 s1 H0 H1|s0 s1 s2 H0 H1 H2|s0 s1 s2 s3 H0 H1 H2 H3].
  - left. split; [reflexivity|assumption].
  - right; left. split; [reflexivity|]. unfold rune2, cont in *. lia.
  - right; right; left. split; [reflexivity|]. unfold rune3. accept_cases s0; lia.
  - right; right; right. split; [reflexivity|]. unfold rune4. accept_cases s0; lia.
Qed.

Lemma chunk_inj x y r : chunk x r -> chunk y r -> x = y.
Proof.
  intros Hx Hy.
  pose proof (chunk_rune_range _ _ Hx) as Rx.
  pose proof (chunk_rune_range _ _ Hy) as Ry.
  destruct Hx as [s0 H0|s0 s1 H0 H1|s0 s1 s2 H0 H1 H2|s0 s1 s2 s3 H0 H1 H2 H3];
    inversion Hy as [t0 G0 E1 E2|t0 t1 G0 G1 E1 E2|t0 t1 t2 G0 G1 G2 E1 E2
                    |t0 t1 t2 t3 G0 G1 G2 G3 E1 E2]; subst;
    cbn in Rx, Ry; try lia.
  - reflexivity.
  - unfold rune2, cont in *.
    assert (s0 = t0) by lia. assert (s1 = t1) by lia. subst. reflexivity.
  - apply accept_cont in H1. apply accept_cont in G1. unfold rune3, cont in *.
    assert (s0 = t0) by lia. assert (s1 = t1) by lia. assert (s2 = t2) by lia.
    subst. reflexivity.
  - apply accept_cont in H1. apply accept_cont in G1. unfold rune4, cont in *.
    assert (s0 = t0) by lia. assert (s1 = t1) by lia. assert (s2 = t2) by lia.
    assert (s3 = t3) by lia. subst. reflexivity.
Qed.

Lemma valid_inj a b rs : valid a rs -> valid b rs -> a = b.
Proof.
  intros Ha. revert b. induction Ha as [|x r rest rs Hx Hrest IH]; intros b Hb.
  - inversion Hb; reflexivity.
  - inversion Hb as [|y r' rest' rs' Hy Hrest' E1 E2]; subst.
    rewrite (chunk_inj _ _ _ Hx Hy). f_equal. apply IH. assumption.
Qed.

Lemma valid_app a b ra rb : valid a ra -> valid b rb -> valid (a ++ b) (ra ++ rb).
Proof.
  intros Ha Hb. induction Ha as [|x r rest rs Hx Hrest IH]; [exact Hb|].
  rewrite <- app_assoc. cbn [app]. constructor; assumption.
Qed.

Lemma valid_split s ra rb :
  valid s (ra ++ rb) -> exists a b, s = a ++ b /\ valid a ra /\ valid b rb.
Proof.
  revert s. induction ra as [|r ra IH]; intros s H.
  - exists [], s. repeat split; [constructor|exact H].
  - cbn [app] in H. inversion H as [|x r' rest rs Hx Hrest E1 E2]; subst.
    destruct (IH _ Hrest) as (a & b & -> & Ha & Hb).
    exists (x ++ a), b. rewrite app_assoc. repeat split; [constructor; assumption|assumption].
Qed.

Lemma valid_len s rs : valid s rs -> len rs <= len s.
Proof.
  induction 1 as [|x r rest rs Hx Hrest IH]; [cbn; lia|].
  rewrite len_app, len_cons. pose proof (chunk_len _ _ Hx). lia.
Qed.

Lemma skipn_len_app {A} (x rest : list A) : skipn (Z.to_nat (len x)) (x ++ rest) = rest.
Proof.
  unfold len. rewrite Nat2Z.id. rewrite skipn_app, skipn_all, Nat.sub_diag. reflexivity.
Qed.

Lemma runes_fuel_valid s rs :
  valid s rs -> forall n, (length s <= n)%nat -> runes_fuel n s = rs.
Proof.
  induction 1 as [|x r rest rs Hx Hrest IH]; intros n Hn.
  - destruct n; reflexivity.
  - pose proof (chunk_len _ _ Hx) as Hl. unfold len in Hl.
    rewrite length_app in Hn.
    destruct n as [|n]; [lia|].
    cbn [runes_fuel].
    destruct (x ++ rest) eqn:E.
    { apply app_eq_nil in E. destruct E as [-> _]. cbn in Hl. lia. }
    rewrite <- E. rewrite (decode_chunk _ _ rest Hx).
    rewrite skipn_len_app. f_equal. apply IH. lia.
Qed.

Lemma runes_valid s rs : valid s rs -> runes s = rs.
Proof. intros H. apply runes_fuel_valid; [assumption|lia]. Qed.

Lemma valid_fuel_sound n s : valid_fuel n s = true -> exists rs, valid s rs.
Proof.
  revert s. induction n as [|n IH]; intros s H.
  - destruct s; [exists []; constructor|discriminate].
  - cbn [valid_fuel] in H. destruct s as [|b t] eqn:Es; [exists []; constructor|].
    rewrite <- Es in *.
    assert (Hne : s <> []) by (subst; discriminate).
    destruct (decode_cases s Hne) as [(x & r & rest & E & Hx)|[E _]].
    + subst s. rewrite E in H. rewrite (decode_chunk _ _ rest Hx) in H.
      rewrite skipn_len_app in H.
      destruct ((r =? RuneError) && (len x =? 1)); [discriminate|].
      destruct (IH _ H) as [rs Hrs]. rewrite E. exists (r :: rs). constructor; assumption.
    + rewrite E in H. cbn in H. discriminate.
Qed.

Lemma valid_fuel_complete s rs :
  valid s rs -> forall n, (length s <= n)%nat -> valid_fuel n s = true.
Proof.
  induction 1 as [|x r rest rs Hx Hrest IH]; intros n Hn.
  - destruct n; reflexivity.
  - pose proof (chunk_len _ _ Hx) as Hl. unfold len in Hl.
    rewrite length_app in Hn.
    destruct n as [|n]; [lia|].
    cbn [valid_fuel].
    destruct (x ++ rest) eqn:E.
    { reflexivity. }
    rewrite <- E. rewrite (decode_chunk _ _ rest Hx).
    rewrite skipn_len_app.
    replace ((r =? RuneError) && (len x =? 1)) with false.
    + apply IH. lia.
    + symmetry. apply andb_false_iff.
      destruct (chunk_rune_range _ _ Hx) as [[E1 R]|[[E1 R]|[[E1 R]|[E1 R]]]].
      * left. apply Z.eqb_neq. unfold RuneError. lia.
      * right. apply Z.eqb_neq. lia.
      * right. apply Z.eqb_neq. lia.
      * right. apply Z.eqb_neq. lia.
Qed.

Lemma ValidString_valid s : ValidString s = true <-> exists rs, valid s rs.
Proof.
  split.
  - apply valid_fuel_sound.
  - intros [rs H]. eapply valid_fuel_complete; [eassumption|lia].
Qed.

(** Determinism of the first chunk. *)
Lemma chunk_prefix_unique x r rest y r' rest' :
  chunk x r -> chunk y r' -> x ++ rest = y ++ rest' -> x = y /\ r = r' /\ rest = rest'.
Proof.
  intros Hx Hy E.
  pose proof (decode_chunk _ _ rest Hx) as D1.
  pose proof (decode_chunk _ _ rest' Hy) as D2.
  rewrite E in D1. rewrite D1 in D2. injection D2 as Er El.
  assert (Hl : length x = length y) by (unfold len in El; lia).
  assert (Ex : x = y).
  { apply (f_equal (firstn (length x))) in E.
    rewrite firstn_app, firstn_all, Nat.sub_diag in E. cbn [firstn] in E.
    rewrite app_nil_r in E. rewrite Hl in E.
    rewrite firstn_app, firstn_all, Nat.sub_diag in E. cbn [firstn] in E.
    rewrite app_nil_r in E. exact E. }
  subst y. apply app_inv_head in E. auto.
Qed.

Lemma valid_unique s rs rs' : valid s rs -> valid s rs' -> rs = rs'.
Proof.
  intros H H'. rewrite <- (runes_valid _ _ H). apply runes_valid. assumption.
Qed.

(** A valid string that starts with a valid string continues with one. *)
Lemma valid_app_inv a ra : valid a ra -> forall b rs,
  valid (a ++ b) rs -> exists rb, rs = ra ++ rb /\ valid b rb.
Proof.
  induction 1 as [|x r rest ra Hx Hrest IH]; intros b rs H.
  - exists rs. split; [reflexivity|exact H].
  - rewrite <- app_assoc in H.
    inversion H as [E0|y r' rest' rs' Hy Hrest' E1 E2].
    { symmetry in E0. apply app_eq_nil in E0. destruct E0 as [-> _].
      exfalso. eapply chunk_nonempty; [exact Hx|reflexivity]. }
    subst. symmetry in E1.
    destruct (chunk_prefix_unique _ _ _ _ _ _ Hx Hy E1) as (-> & -> & <-).
    destruct (IH _ _ Hrest') as (rb & -> & Hb).
    exists rb. split; [reflexivity|assumption].
Qed.

(** Bytes of a multi-byte encoding. *)
Lemma chunk_multi x r :
  chunk x r -> 2 <= len x ->
  Forall (fun b => 0x80 <= b) x /\ Forall cont (tl x).
Proof.
  intros H Hl.
  destruct H as [s0 H0|s0 s1 H0 H1|s0 s1 s2 H0 H1 H2|s0 s1 s2 s3 H0 H1 H2 H3].
  - cbn in Hl. lia.
  - unfold cont in *. split; repeat constructor; lia.
  - pose proof (accept_cont _ _ H1). unfold cont in *.
    split; repeat constructor; lia.
  - pose proof (accept_cont _ _ H1). unfold cont in *.
    split; repeat constructor; lia.
Qed.

Lemma decode_cont b t : cont b -> DecodeRuneInString (b :: t) = (RuneError, 1).
Proof.
  unfold cont. intros H. cbn [DecodeRuneInString].
  destruct (Z.ltb_spec b 0x80); [lia|].
  destruct (Z.ltb_spec b 0xC2); [reflexivity|lia].
Qed.

(** The first rune of a string whose first byte is not ASCII is not
    ASCII. *)
Lemma decode_high b t : 0x80 <= b -> 0x80 <= fst (DecodeRuneInString (b :: t)).
Proof.
  intros Hb.
  destruct (decode_cases (b :: t)) as [(x & r & rest & E & Hx)|[E _]]; [discriminate| |].
  - rewrite E, (decode_chunk _ _ _ Hx). cbn [fst].
    destruct (chunk_rune_range _ _ Hx) as [[El R]|[[El R]|[[El R]|[El R]]]]; try lia.
    destruct Hx; try (cbn in El; lia). injection E as -> _. lia.
  - rewrite E. unfold RuneError. cbn. lia.
Qed.

Lemma decode_size s r sz :
  DecodeRuneInString s = (r, sz) -> 0 <= sz <= len s /\ (2 <= sz -> 0x80 <= r)
  /\ (s <> [] -> 1 <= sz).
Proof.
  intros D. destruct s as [|b t].
  - cbn in D. injection D as <- <-. cbn. repeat split; try lia. congruence.
  - destruct (decode_cases (b :: t)) as [(x & r' & rest & E & Hx)|[E _]]; [discriminate| |].
    + rewrite E, (decode_chunk _ _ _ Hx) in D. injection D as <- <-.
      rewrite E, len_app. pose proof (chunk_len _ _ Hx). pose proof (len_nonneg rest).
      repeat split; try lia.
      intros H2. destruct (chunk_rune_range _ _ Hx) as [[El R]|[[El R]|[[El R]|[El R]]]]; lia.
    + rewrite E in D. injection D as <- <-. rewrite len_cons.
      pose proof (len_nonneg t). repeat split; try lia.
Qed.

Lemma last_rune_start_le n s lim start : last_rune_start n s lim start <= start.
Proof.
  revert start. induction n as [|n IH]; intros start; cbn [last_rune_start]; [lia|].
  destruct (start <? lim); [lia|].
  destruct (RuneStart _); [lia|]. specialize (IH (start - 1)). lia.
Qed.

Lemma nth_last (s : gostring) : s <> [] -> nth (Z.to_nat (len s - 1)) s 0 = last s 0.
Proof.
  intros Hs. destruct (exists_last Hs) as (l & a & ->).
  rewrite last_last. rewrite len_app, len_cons, len_nil.
  replace (Z.to_nat (len l + (1 + 0) - 1)) with (length l) by (unfold len; lia).
  apply nth_middle.
Qed.

Lemma slice_full {A} (s : list A) : slice s 0 (len s) = s.
Proof.
  unfold slice. cbn [Z.to_nat skipn]. rewrite Z.sub_0_r. unfold len.
  rewrite Nat2Z.id. apply firstn_all.
Qed.

(** The last rune of a string whose last byte is not ASCII is not ASCII. *)
Lemma decode_last_high (one : gostring) :
  one <> [] -> 0x80 <= last one 0 -> 0x80 <= fst (DecodeLastRuneInString one).
Proof.
  intros Hne Hlast. unfold DecodeLastRuneInString. cbv zeta.
  assert (Hl : 1 <= len one).
  { destruct one; [congruence|]. rewrite len_cons. pose proof (len_nonneg one). lia. }
  match goal with |- context [?a =? 0] => destruct (Z.eqb_spec a 0) end; [lia|].
  rewrite nth_last by assumption.
  match goal with |- context [?a <? 128] => destruct (Z.ltb_spec a 128) end; [lia|].
  match goal with |- context [last_rune_start 4 ?s ?l ?i] =>
    pose proof (last_rune_start_le 4 s l i) as Hst;
    generalize dependent (last_rune_start 4 s l i) end.
  intros st Hst.
  match goal with |- context [slice ?s ?a ?b] =>
    set (start := a); destruct (DecodeRuneInString (slice s start b)) as [r size] eqn:D end.
  match goal with |- context [?a =? ?b] => destruct (Z.eqb_spec a b) as [E|E] end;
    cbn [negb fst]; [|unfold RuneError; lia].
  destruct (decode_size _ _ _ D) as (Hsz & Hhigh & _).
  destruct (Z.le_gt_cases 2 size) as [H2|H2]; [auto|].
  (* size <= 1: the slice is the whole one-byte string *)
  assert (start = 0 /\ len one = 1) as [Es El].
  { subst start. destruct (Z.ltb_spec st 0); lia. }
  rewrite Es in D. rewrite slice_full in D.
  destruct one as [|b t]; [congruence|].
  assert (t = []) by (apply len_0; rewrite len_cons in El; lia). subst t.
  cbn [last] in Hlast.
  pose proof (decode_high b [] Hlast) as Hh. rewrite D in Hh. exact Hh.
Qed.

Lemma Forall_skipn {A} (P : A -> Prop) n (l : list A) :
  Forall P l -> Forall P (skipn n l).
Proof.
  intros H. rewrite <- (firstn_skipn n l) in H. apply Forall_app in H. tauto.
Qed.

Lemma runes_fuel_high n s :
  Forall (fun b => 0x80 <= b) s -> Forall (fun r => 0x80 <= r) (runes_fuel n s).
Proof.
  revert s. induction n as [|n IH]; intros s H; cbn [runes_fuel]; [constructor|].
  destruct s as [|b t]; [constructor|].
  destruct (DecodeRuneInString (b :: t)) as [r sz] eqn:D.
  constructor.
  - inversion H; subst. pose proof (decode_high b t ltac:(assumption)) as Hh.
    rewrite D in Hh. exact Hh.
  - apply IH. apply Forall_skipn. assumption.
Qed.

Lemma runes_nonempty s : s <> [] -> runes s <> [].
Proof.
  intros H. unfold runes. destruct s as [|b t]; [congruence|].
  cbn [length runes_fuel]. destruct (DecodeRuneInString (b :: t)). discriminate.
Qed.

Lemma is_alnum_high r : 0x80 <= r -> is_alnum r = false.
Proof.
  intros H. unfold is_alnum, between.
  destruct (Z.leb_spec r 122); [lia|]. destruct (Z.leb_spec r 90); [lia|].
  destruct (Z.leb_spec r 57); [lia|]. rewrite !andb_false_r. reflexivity.
Qed.

Lemma is_space_high r : 0x80 <= r -> is_space r = false.
Proof.
  intros H. unfold is_space.
  destruct (Z.eqb_spec r 9); [lia|]. destruct (Z.eqb_spec r 10); [lia|].
  destruct (Z.eqb_spec r 12); [lia|]. destruct (Z.eqb_spec r 13); [lia|].
  destruct (Z.eqb_spec r 32); [lia|]. reflexivity.
Qed.

Lemma regex_high s :
  s <> [] -> Forall (fun b => 0x80 <= b) s ->
  nonAlphaNumericRegex_ s = true /\ whitespaceRegex_ s = false.
Proof.
  intros Hne H.
  pose proof (runes_fuel_high (length s) s H) as Hr. fold (runes s) in Hr.
  pose proof (runes_nonempty s Hne) as Hn.
  unfold nonAlphaNumericRegex_, whitespaceRegex_. split.
  - destruct (runes s) as [|r rs]; [congruence|]. inversion Hr; subst.
    cbn [existsb]. rewrite is_alnum_high by assumption. reflexivity.
  - clear Hn. induction Hr as [|r rs Hr0 Hrs IH]; [reflexivity|].
    cbn [existsb]. rewrite is_space_high by assumption. exact IH.
Qed.

Lemma lor_const_low (c x n k : Z) :
  0 <= n -> c = k * 2 ^ n -> 0 <= x < 2 ^ n -> Z.lor c x = c + x.
Proof. intros. eapply lor_low; eassumption. Qed.

Lemma encode_high r :
  0x80 <= r -> encode_rune r <> [] /\ Forall (fun b => 0x80 <= b) (encode_rune r).
Proof.
  intros Hr. unfold encode_rune.
  destruct (Z.leb_spec 0 r); [|lia]. destruct (Z.ltb_spec r 0x80); [lia|]. cbn [andb].
  destruct (Z.leb_spec 0x80 r); [|lia]. cbn [andb].
  assert (M : forall x, 0 <= Z.land x 0x3F < 64).
  { intros x. change 0x3F with (2 ^ 6 - 1). rewrite land_ones_mod by lia.
    change (2 ^ 6) with 64. Z.div_mod_to_equations. lia. }
  assert (L80 : forall x, 0x80 <= Z.lor 0x80 (Z.land x 0x3F)).
  { intros x. rewrite (lor_const_low 0x80 _ 6 2); [specialize (M x); lia|lia|reflexivity|].
    change (2 ^ 6) with 64. apply M. }
  destruct (Z.ltb_spec r 0x800).
  { split; [discriminate|]. repeat constructor; [|apply L80].
    rewrite Z.shiftr_div_pow2 by lia. change (2 ^ 6) with 64.
    rewrite (lor_const_low 0xC0 _ 6 3); [|lia|reflexivity|change (2 ^ 6) with 64].
    - Z.div_mod_to_equations. lia.
    - Z.div_mod_to_equations. lia. }
  destruct (Z.leb_spec 0x800 r); [|lia]. cbn [andb].
  destruct (Z.ltb_spec r 0x10000); cbn [andb].
  { destruct (negb (between 0xD800 0xDFFF r)).
    - split; [discriminate|]. repeat constructor; [|apply L80|apply L80].
      rewrite Z.shiftr_div_pow2 by lia. change (2 ^ 12) with 4096.
      rewrite (lor_const_low 0xE0 _ 5 7); [|lia|reflexivity|change (2 ^ 5) with 32].
      + Z.div_mod_to_equations. lia.
      + Z.div_mod_to_equations. lia.
    - destruct ((0x10000 <=? r) && (r <=? 0x10FFFF)) eqn:E.
      + apply andb_true_iff in E. destruct E as [E _]. apply Z.leb_le in E. lia.
      + split; [discriminate|]. repeat constructor; lia. }
  destruct (Z.leb_spec 0x10000 r); [|lia]. cbn [andb].
  destruct (Z.leb_spec r 0x10FFFF).
  - split; [discriminate|]. repeat constructor; [|apply L80|apply L80|apply L80].
    rewrite Z.shiftr_div_pow2 by lia. change (2 ^ 18) with 262144.
    rewrite (lor_const_low 0xF0 _ 4 15); [|lia|reflexivity|change (2 ^ 4) with 16].
    + Z.div_mod_to_equations. lia.
    + Z.div_mod_to_equations. lia.
  - split; [discriminate|]. repeat constructor; lia.
Qed.

Lemma regex_encode_high r :
  0x80 <= r ->
  nonAlphaNumericRegex_ (encode_rune r) = true /\ whitespaceRegex_ (encode_rune r) = false.
Proof.
  intros Hr. destruct (encode_high r Hr). apply regex_high; assumption.
Qed.

Lemma hd_decode_high (two : gostring) :
  two <> [] -> 0x80 <= hd 0 two -> 0x80 <= fst (DecodeRuneInString two).
Proof.
  intros Hne H. destruct two as [|b t]; [congruence|]. apply decode_high. exact H.
Qed.

Lemma len_eqb_0 {A} (s : list A) : s <> [] -> (len s =? 0) = false.
Proof.
  intros H. apply Z.eqb_neq. intros E. apply H. apply len_0. exact E.
Qed.

(** A boundary between two non-ASCII bytes scores one point. *)
Lemma score_high_high (one two : gostring) :
  one <> [] -> two <> [] -> 0x80 <= last one 0 -> 0x80 <= hd 0 two ->
  diffCleanupSemanticScore one two = 1.
Proof.
  intros H1 H2 L1 L2. unfold diffCleanupSemanticScore.
  rewrite (len_eqb_0 one H1), (len_eqb_0 two H2). cbn [orb]. cbv zeta.
  destruct (regex_encode_high _ (decode_last_high one H1 L1)) as [N1 W1].
  destruct (regex_encode_high _ (hd_decode_high two H2 L2)) as [N2 W2].
  rewrite N1, N2, W1, W2. reflexivity.
Qed.

(** A boundary after a non-ASCII byte scores at least one point. *)
Lemma score_high_left (one two : gostring) :
  one <> [] -> 0x80 <= last one 0 -> 1 <= diffCleanupSemanticScore one two.
Proof.
  intros H1 L1. unfold diffCleanupSemanticScore.
  rewrite (len_eqb_0 one H1). cbn [orb].
  destruct (len two =? 0); [lia|]. cbv zeta.
  destruct (regex_encode_high _ (decode_last_high one H1 L1)) as [N1 W1].
  rewrite N1, W1. cbn [andb orb negb].
  repeat match goal with |- context [if ?c then _ else _] => destruct c end; lia.
Qed.

Lemma V_nil : V [].
Proof. exists []. constructor. Qed.

Lemma V_app a b : V a -> V b -> V (a ++ b).
Proof. intros [ra Ha] [rb Hb]. exists (ra ++ rb). apply valid_app; assumption. Qed.

Lemma V_chunk x r : chunk x r -> V x.
Proof.
  intros H. exists [r]. rewrite <- (app_nil_r x). constructor; [assumption|constructor].
Qed.

Lemma V_app_inv a b : V a -> V (a ++ b) -> V b.
Proof.
  intros [ra Ha] [rs H]. destruct (valid_app_inv _ _ Ha _ _ H) as (rb & _ & Hb).
  exists rb. exact Hb.
Qed.

Lemma streq_eq (a b : gostring) : streq a b = true <-> a = b.
Proof.
  revert b. induction a as [|x a IH]; intros [|y b]; cbn [streq]; split; intros H;
    try reflexivity; try discriminate.
  - apply andb_true_iff in H. destruct H as [H1 H2]. apply Z.eqb_eq in H1.
    apply IH in H2. subst. reflexivity.
  - injection H as -> ->. rewrite Z.eqb_refl. cbn [andb]. apply IH. reflexivity.
Qed.

Lemma streq_refl (a : gostring) : streq a a = true.
Proof. apply streq_eq. reflexivity. Qed.

Lemma streq_neq (a b : gostring) : streq a b = false <-> a <> b.
Proof.
  rewrite <- streq_eq. destruct (streq a b); split; intros H; congruence.
Qed.

Lemma slice_chk_ok {A} (s : list A) lo hi :
  0 <= lo -> lo <= hi -> hi <= len s -> slice_chk s lo hi = Ok (slice s lo hi).
Proof.
  intros H1 H2 H3. unfold slice_chk.
  destruct (Z.leb_spec 0 lo); [|lia]. destruct (Z.leb_spec lo hi); [|lia].
  destruct (Z.leb_spec hi (len s)); [|lia]. reflexivity.
Qed.

Lemma slice_prefix {A} (a b : list A) : slice (a ++ b) 0 (len a) = a.
Proof.
  unfold slice. cbn [Z.to_nat skipn]. rewrite Z.sub_0_r. unfold len. rewrite Nat2Z.id.
  rewrite firstn_app, firstn_all, Nat.sub_diag. cbn [firstn]. apply app_nil_r.
Qed.

Lemma slice_suffix {A} (a b : list A) : slice (a ++ b) (len a) (len (a ++ b)) = b.
Proof.
  unfold slice. rewrite len_app. replace (len a + len b - len a) with (len b) by lia.
  unfold len. rewrite !Nat2Z.id. rewrite skipn_app, skipn_all, Nat.sub_diag.
  cbn [skipn app]. apply firstn_all.
Qed.

Lemma slice_0 {A} (s : list A) n : slice s 0 n = firstn (Z.to_nat n) s.
Proof. unfold slice. rewrite Z.sub_0_r. reflexivity. Qed.

Lemma slice_to_end {A} (s : list A) n :
  0 <= n <= len s -> slice s n (len s) = skipn (Z.to_nat n) s.
Proof.
  intros H. unfold slice. apply firstn_all2. rewrite length_skipn. unfold len in *. lia.
Qed.

(** Cutting a valid string at a byte offset: at a rune boundary, or
    inside the encoding of one rune. *)
Lemma valid_cut c rs :
  valid c rs -> forall n, (n <= length c)%nat ->
  (V (firstn n c) /\ V (skipn n c))
  \/ (exists cA h1 h2 r cB,
        c = cA ++ h1 ++ h2 ++ cB /\ length (cA ++ h1) = n /\ V cA /\ V cB
        /\ chunk (h1 ++ h2) r /\ h1 <> [] /\ h2 <> []).
Proof.
  induction 1 as [|x r rest rs Hx Hrest IH]; intros n Hn.
  - left. destruct n; cbn; split; apply V_nil.
  - destruct (Nat.eq_dec n 0) as [->|Hn0].
    { left. cbn [firstn skipn]. split; [apply V_nil|].
      apply V_app; [eapply V_chunk; eassumption|eexists; eassumption]. }
    destruct (Nat.le_gt_cases (length x) n) as [Hge|Hlt].
    + rewrite length_app in Hn.
      destruct (IH (n - length x)%nat ltac:(lia)) as [[H1 H2]|(cA & h1 & h2 & r' & cB & E & El & HA & HB & Hc & N1 & N2)].
      * left. rewrite firstn_app, skipn_app.
        rewrite (firstn_all2 x) by lia. rewrite (skipn_all2 x) by lia. cbn [app].
        split; [|assumption]. apply V_app; [eapply V_chunk; eassumption|assumption].
      * right. exists (x ++ cA), h1, h2, r', cB. rewrite E.
        repeat split; try assumption.
        -- rewrite <- !app_assoc. reflexivity.
        -- rewrite <- app_assoc, length_app. rewrite El. lia.
        -- apply V_app; [eapply V_chunk; eassumption|assumption].
    + right. exists [], (firstn n x), (skipn n x), r, rest.
      cbn [app]. rewrite app_assoc, firstn_skipn.
      repeat split.
      * rewrite length_firstn. lia.
      * apply V_nil.
      * eexists; eassumption.
      * assumption.
      * intros E. apply (f_equal (@length _)) in E. rewrite length_firstn in E.
        cbn in E. lia.
      * intros E. apply (f_equal (@length _)) in E. rewrite length_skipn in E.
        cbn in E. lia.
Qed.

Lemma cpl_nonneg l1 l2 : 0 <= commonPrefixLength l1 l2.
Proof.
  revert l2. induction l1 as [|a l1 IH]; intros [|b l2]; cbn [commonPrefixLength]; try lia.
  destruct (a =? b); [specialize (IH l2); lia|lia].
Qed.

Lemma cpl_spec l1 l2 :
  exists p t1 t2, l1 = p ++ t1 /\ l2 = p ++ t2 /\ len p = commonPrefixLength l1 l2.
Proof.
  revert l2. induction l1 as [|a l1 IH]; intros l2.
  - exists [], [], l2. destruct l2; repeat split; reflexivity.
  - destruct l2 as [|b l2].
    + exists [], (a :: l1), []. repeat split; reflexivity.
    + cbn [commonPrefixLength]. destruct (Z.eqb_spec a b) as [->|Hne].
      * destruct (IH l2) as (p & t1 & t2 & -> & -> & E).
        exists (b :: p), t1, t2. repeat split. rewrite len_cons, E. reflexivity.
      * exists [], (a :: l1), (b :: l2). repeat split; reflexivity.
Qed.

Lemma csl_spec r1 r2 :
  exists R r1' r2', r1 = r1' ++ R /\ r2 = r2' ++ R /\ len R = commonSuffixLength r1 r2.
Proof.
  unfold commonSuffixLength.
  destruct (cpl_spec (rev r1) (rev r2)) as (p & t1 & t2 & E1 & E2 & El).
  exists (rev p), (rev t1), (rev t2).
  apply (f_equal (@rev _)) in E1, E2. rewrite rev_involutive, rev_app_distr in E1, E2.
  repeat split; try assumption. rewrite <- El. unfold len. rewrite length_rev. reflexivity.
Qed.

(** The common suffix that [DiffCommonSuffix] counts in runes is a common
    suffix in bytes when both strings are valid. *)
Lemma common_suffix_bytes (Q1 E0 : gostring) :
  V Q1 -> V E0 ->
  exists a e c, Q1 = a ++ c /\ E0 = e ++ c /\ V a /\ V e
    /\ exists rc, valid c rc /\ len rc = DiffCommonSuffix Q1 E0.
Proof.
  intros [r1 H1] [r2 H2]. unfold DiffCommonSuffix.
  rewrite (runes_valid _ _ H1), (runes_valid _ _ H2).
  destruct (csl_spec r1 r2) as (R & r1' & r2' & -> & -> & El).
  destruct (valid_split _ _ _ H1) as (a & c & -> & Ha & Hc).
  destruct (valid_split _ _ _ H2) as (e & c' & -> & He & Hc').
  rewrite (valid_inj _ _ _ Hc' Hc).
  exists a, e, c. repeat split; try (eexists; eassumption).
  exists R. split; assumption.
Qed.

(** ** The sliding loop of [DiffCleanupSemanticLossless] *)

Lemma slide_loop_step fuel st :
  slide_loop (S fuel) st =
  if slide_goes st then slide_loop fuel (slide_next st) else Ok st.
Proof.
  destruct st as [eq1 edit eq2 b1 be b2 bs].
  unfold slide_goes, slide_next. cbn [sl_edit sl_equality2 sl_equality1 sl_bestScore
    sl_bestEquality1 sl_bestEdit sl_bestEquality2]. cbn [slide_loop].
  destruct (negb (len edit =? 0) && negb (len eq2 =? 0)) eqn:C; [|reflexivity].
  cbn [andb].
  destruct (DecodeRuneInString edit) as [r sz] eqn:D. cbn [snd].
  destruct (decode_size _ _ _ D) as (Hsz & _ & _).
  destruct (Z.ltb_spec (len eq2) sz) as [Hlt|Hge]; [reflexivity|]. cbn [negb andb].
  rewrite (slice_chk_ok edit 0 sz) by lia. cbn [bind].
  rewrite (slice_chk_ok eq2 0 sz) by lia. cbn [bind].
  rewrite !slice_0.
  destruct (streq (firstn (Z.to_nat sz) edit) (firstn (Z.to_nat sz) eq2)) eqn:S;
    [|reflexivity]. cbn [negb].
  rewrite (slice_chk_ok edit sz (len edit)) by lia. cbn [bind].
  rewrite (slice_chk_ok eq2 sz (len eq2)) by lia. cbn [bind].
  rewrite !slice_to_end by lia.
  apply streq_eq in S. rewrite <- S.
  destruct (bs <=? _); reflexivity.
Qed.

Lemma tape_next U W eq1 edit eq2 n :
  tape U W eq1 edit eq2 -> firstn n edit = firstn n eq2 ->
  tape U W (eq1 ++ firstn n edit) (skipn n edit ++ firstn n edit) (skipn n eq2).
Proof.
  intros [T1 T2] E. split.
  - rewrite <- app_assoc. rewrite E, firstn_skipn. exact T1.
  - rewrite <- !app_assoc. rewrite (app_assoc (firstn n edit) (skipn n edit)).
    rewrite firstn_skipn. rewrite E at 1. rewrite firstn_skipn. exact T2.
Qed.

Lemma last_app_nonempty (a b : gostring) d : b <> [] -> last (a ++ b) d = last b d.
Proof.
  intros Hb. destruct (exists_last Hb) as (l & x & ->).
  rewrite app_assoc, !last_last. reflexivity.
Qed.

Lemma chunk_tail_cont x r h1 h2 :
  chunk x r -> x = h1 ++ h2 -> h1 <> [] -> Forall cont h2 /\ Forall (fun b => 0x80 <= b) x
  \/ h2 = [].
Proof.
  intros Hx E N1. destruct h2 as [|b h2']; [right; reflexivity|left].
  assert (Hl : 2 <= len x).
  { rewrite E, len_app, len_cons. destruct h1; [congruence|]. rewrite len_cons.
    pose proof (len_nonneg h1). pose proof (len_nonneg h2'). lia. }
  destruct (chunk_multi _ _ Hx Hl) as [Hh Ht]. split; [|assumption].
  rewrite E in Ht. destruct h1 as [|a h1']; [congruence|]. cbn [app tl] in Ht.
  apply Forall_app in Ht. tauto.
Qed.

(** One step from a position inside an encoding. *)
Lemma slide_next_mis U W st :
  slide_inv U W st ->
  Mis (sl_equality1 st) (sl_edit st) (sl_equality2 st) -> sl_bestScore st <= 2 ->
  slide_goes st = true /\ slide_inv U W (slide_next st)
  /\ length (sl_equality2 (slide_next st)) = pred (length (sl_equality2 st)).
Proof.
  intros (T & Tb & _) (A & h1 & h2 & M & B & r & E1 & E2 & E3 & N1 & N2 & VA & VM & VB & Hc) Hbs.
  destruct st as [eq1 edit eq2 b1 be b2 bs].
  cbn [sl_edit sl_equality2 sl_equality1 sl_bestScore
       sl_bestEquality1 sl_bestEdit sl_bestEquality2] in *. subst eq1 edit eq2.
  destruct h2 as [|b h2']; [congruence|].
  destruct (chunk_tail_cont _ _ h1 (b :: h2') Hc eq_refl N1) as [[Hcont Hhigh]|]; [|discriminate].
  assert (Hb : cont b) by (inversion Hcont; assumption).
  assert (D : DecodeRuneInString ((b :: h2') ++ M ++ h1) = (RuneError, 1))
    by (apply decode_cont; assumption).
  assert (Hl1 : 0x80 <= last h1 0).
  { apply Forall_app in Hhigh. destruct Hhigh as [Hh1 _].
    rewrite Forall_forall in Hh1. apply Hh1.
    destruct (exists_last N1) as (l & x & ->). rewrite last_last.
    apply in_or_app. right. left. reflexivity. }
  assert (G : slide_goes (mkSlide (A ++ h1) ((b :: h2') ++ M ++ h1) ((b :: h2') ++ B) b1 be b2 bs) = true).
  { unfold slide_goes. cbn [sl_edit sl_equality2]. rewrite D. cbn [snd].
    cbn [app]. rewrite !len_cons.
    pose proof (len_nonneg (h2' ++ M ++ h1)). pose proof (len_nonneg (h2' ++ B)).
    destruct (Z.eqb_spec (1 + len (h2' ++ M ++ h1)) 0); [lia|].
    destruct (Z.eqb_spec (1 + len (h2' ++ B)) 0); [lia|].
    destruct (Z.ltb_spec (1 + len (h2' ++ B)) 1); [lia|].
    cbn [negb andb]. change (Z.to_nat 1) with 1%nat. cbn [firstn]. apply streq_refl. }
  split; [exact G|].
  unfold slide_next. cbn [sl_edit sl_equality2 sl_equality1 sl_bestScore
       sl_bestEquality1 sl_bestEdit sl_bestEquality2]. rewrite D. cbn [snd].
  change (Z.to_nat 1) with 1%nat. cbn [app firstn skipn].
  set (eq1' := (A ++ h1) ++ [b]).
  set (edit' := (h2' ++ M ++ h1) ++ [b]).
  set (eq2' := h2' ++ B).
  assert (T' : tape U W eq1' edit' eq2').
  { pose proof (tape_next U W _ _ _ 1 T eq_refl) as X. exact X. }
  assert (Hb80 : 0x80 <= b) by (unfold cont in Hb; lia).
  assert (Le1 : last eq1' 0 = b) by (subst eq1'; apply last_last).
  assert (Le : last edit' 0 = b) by (subst edit'; apply last_last).
  assert (Ne1 : eq1' <> []) by (subst eq1'; intros X; apply app_eq_nil in X; destruct X; discriminate).
  assert (Ne : edit' <> []) by (subst edit'; intros X; apply app_eq_nil in X; destruct X; discriminate).
  destruct h2' as [|b' h2''].
  - (* the position after the last byte of the encoding *)
    assert (S1 : 1 <= diffCleanupSemanticScore eq1' edit')
      by (apply score_high_left; [assumption|rewrite Le1; assumption]).
    assert (S2 : 1 <= diffCleanupSemanticScore edit' eq2')
      by (apply score_high_left; [assumption|rewrite Le; assumption]).
    destruct (Z.leb_spec bs (diffCleanupSemanticScore eq1' edit' +
                             diffCleanupSemanticScore edit' eq2')) as [_|X]; [|lia].
    assert (HAl : Al eq1' edit' eq2').
    { subst eq1' edit' eq2'. cbn [app]. rewrite <- !app_assoc.
      repeat split.
      - apply V_app; [assumption|]. eapply V_chunk. exact Hc.
      - apply V_app; [assumption|]. eapply V_chunk. exact Hc.
      - assumption. }
    cbn [sl_equality2 length]. split; [|reflexivity].
    repeat split; cbn [sl_edit sl_equality2 sl_equality1 sl_bestScore
       sl_bestEquality1 sl_bestEdit sl_bestEquality2]; try apply T'.
    left. split; exact HAl.
  - (* still inside the encoding *)
    assert (Hb' : cont b') by (apply Forall_inv_tail in Hcont; apply Forall_inv in Hcont; exact Hcont).
    assert (S1 : diffCleanupSemanticScore eq1' edit' = 1).
    { apply score_high_high; [assumption|assumption|rewrite Le1; assumption|
        subst edit'; cbn; unfold cont in Hb'; lia]. }
    assert (S2 : diffCleanupSemanticScore edit' eq2' = 1).
    { apply score_high_high; [assumption|subst eq2'; discriminate|
        rewrite Le; assumption|subst eq2'; cbn; unfold cont in Hb'; lia]. }
    rewrite S1, S2.
    assert (HM : Mis eq1' edit' eq2').
    { exists A, (h1 ++ [b]), (b' :: h2''), M, B, r. subst eq1' edit' eq2'.
      repeat split; try assumption.
      - rewrite <- app_assoc. reflexivity.
      - cbn [app]. rewrite <- !app_assoc. reflexivity.
      - intros X. apply app_eq_nil in X. destruct X; discriminate.
      - discriminate.
      - rewrite <- app_assoc. exact Hc. }
    cbn [sl_equality2 length]. 
    destruct (bs <=? 1 + 1); (split; [|reflexivity]);
      repeat split; cbn [sl_edit sl_equality2 sl_equality1 sl_bestScore
       sl_bestEquality1 sl_bestEdit sl_bestEquality2]; try apply T'; try apply Tb;
      right; (split; [exact HM|lia]).
Qed.

Lemma V_head (s : gostring) :
  V s -> s <> [] -> exists x r rest, s = x ++ rest /\ chunk x r /\ V rest.
Proof.
  intros [rs H] Hne. inversion H as [E|x r rest rs' Hx Hrest E1 E2]; [congruence|].
  exists x, r, rest. repeat split; [assumption|eexists; eassumption].
Qed.

Lemma firstn_len_app {A} (x rest : list A) : firstn (Z.to_nat (len x)) (x ++ rest) = x.
Proof.
  unfold len. rewrite Nat2Z.id, firstn_app, firstn_all, Nat.sub_diag. cbn [firstn].
  apply app_nil_r.
Qed.

(** One step from a position between two encodings. *)
Lemma slide_next_al U W st :
  slide_inv U W st ->
  Al (sl_equality1 st) (sl_edit st) (sl_equality2 st) ->
  Al (sl_bestEquality1 st) (sl_bestEdit st) (sl_bestEquality2 st) ->
  slide_goes st = true ->
  slide_inv U W (slide_next st)
  /\ (length (sl_equality2 (slide_next st)) < length (sl_equality2 st))%nat.
Proof.
  intros (T & Tb & _) (V1 & Ve & V2) Hb G.
  destruct st as [eq1 edit eq2 b1 be b2 bs].
  cbn [sl_edit sl_equality2 sl_equality1 sl_bestScore
       sl_bestEquality1 sl_bestEdit sl_bestEquality2] in *.
  unfold slide_goes in G. cbn [sl_edit sl_equality2] in G.
  apply andb_true_iff in G. destruct G as [G Gs].
  apply andb_true_iff in G. destruct G as [G Gl].
  apply andb_true_iff in G. destruct G as [Ge Gq].
  assert (Hne : edit <> []).
  { intros ->. cbn in Ge. discriminate. }
  destruct (V_head edit Ve Hne) as (x & r & edit' & -> & Hx & Ve').
  rewrite (decode_chunk _ _ edit' Hx) in Gs, Gl. cbn [snd] in Gs, Gl.
  rewrite firstn_len_app in Gs. apply streq_eq in Gs.
  apply negb_true_iff, Z.ltb_ge in Gl.
  assert (Eq2 : eq2 = x ++ skipn (Z.to_nat (len x)) eq2).
  { pose proof (firstn_skipn (Z.to_nat (len x)) eq2) as X. rewrite <- Gs in X.
    symmetry. exact X. }
  assert (V2' : V (skipn (Z.to_nat (len x)) eq2)).
  { apply (V_app_inv x); [eapply V_chunk; eassumption|]. rewrite <- Eq2. assumption. }
  unfold slide_next. cbn [sl_edit sl_equality2 sl_equality1 sl_bestScore
       sl_bestEquality1 sl_bestEdit sl_bestEquality2].
  rewrite (decode_chunk _ _ edit' Hx). cbn [snd].
  rewrite firstn_len_app, skipn_len_app.
  assert (T' : tape U W (eq1 ++ x) (edit' ++ x) (skipn (Z.to_nat (len x)) eq2)).
  { pose proof (tape_next U W _ _ _ (Z.to_nat (len x)) T) as X.
    rewrite firstn_len_app, skipn_len_app in X. apply X. exact Gs. }
  assert (HAl : Al (eq1 ++ x) (edit' ++ x) (skipn (Z.to_nat (len x)) eq2)).
  { repeat split; [apply V_app|apply V_app|]; try assumption; eapply V_chunk; eassumption. }
  assert (Hlen : (length (skipn (Z.to_nat (len x)) eq2) < length eq2)%nat).
  { rewrite length_skipn. pose proof (chunk_len _ _ Hx). unfold len in *. lia. }
  destruct (bs <=? _); cbn [sl_equality2]; (split; [|exact Hlen]);
    repeat split; cbn [sl_edit sl_equality2 sl_equality1 sl_bestScore
       sl_bestEquality1 sl_bestEdit sl_bestEquality2]; try apply T'; try apply Tb;
    left; split; assumption.
Qed.

Lemma mis_goes st :
  Mis (sl_equality1 st) (sl_edit st) (sl_equality2 st) ->
  sl_edit st <> [] /\ sl_equality2 st <> [].
Proof.
  intros (A & h1 & h2 & M & B & r & E1 & E2 & E3 & N1 & N2 & _).
  rewrite E2, E3. split; intros X; apply app_eq_nil in X; destruct X; congruence.
Qed.

(** The loop ends, and the best position it found is between two
    encodings and keeps the two texts. *)
Lemma slide_loop_ok U W fuel : forall st,
  slide_inv U W st -> (length (sl_equality2 st) <= fuel)%nat ->
  exists st', slide_loop fuel st = Ok st'
    /\ tape U W (sl_bestEquality1 st') (sl_bestEdit st') (sl_bestEquality2 st')
    /\ Al (sl_bestEquality1 st') (sl_bestEdit st') (sl_bestEquality2 st').
Proof.
  induction fuel as [|fuel IH]; intros st Hinv Hf.
  - assert (E : sl_equality2 st = []) by (destruct (sl_equality2 st); [reflexivity|cbn in Hf; lia]).
    destruct Hinv as (T & Tb & [[_ Hb]|[HM _]]).
    + exists st. destruct st as [eq1 edit eq2 b1 be b2 bs]. cbn [sl_equality2] in E. subst eq2.
      cbn [slide_loop]. change (len (@nil Z)) with 0. cbn [Z.eqb negb].
      rewrite andb_false_r. split; [reflexivity|]. split; assumption.
    + apply mis_goes in HM. tauto.
  - rewrite slide_loop_step.
    destruct (slide_goes st) eqn:G.
    + destruct Hinv as (T & Tb & [[Ha Hb]|[HM Hbs]]).
      * destruct (slide_next_al U W st (conj T (conj Tb (or_introl (conj Ha Hb)))) Ha Hb G)
          as [Hinv' Hl].
        apply IH; [assumption|lia].
      * destruct (slide_next_mis U W st (conj T (conj Tb (or_intror (conj HM Hbs)))) HM Hbs)
          as (_ & Hinv' & Hl).
        apply IH; [assumption|].
        pose proof (mis_goes st HM) as [_ Hq].
        destruct (sl_equality2 st); [congruence|]. cbn [length] in *. lia.
    + exists st. destruct Hinv as (T & Tb & [[_ Hb]|[HM Hbs]]).
      * split; [reflexivity|]. split; assumption.
      * destruct (slide_next_mis U W st (conj T (conj Tb (or_intror (conj HM Hbs)))) HM Hbs)
          as (G' & _). congruence.
Qed.

(** ** Entries and slices of a script *)

Lemma index_app_mid {A} (pre : list A) x post i :
  i = len pre -> index (pre ++ x :: post) i = Ok x.
Proof.
  intros ->. unfold index. rewrite len_app, len_cons.
  pose proof (len_nonneg pre). pose proof (len_nonneg post).
  destruct (Z.leb_spec 0 (len pre)); [|lia].
  destruct (Z.ltb_spec (len pre) (len pre + (1 + len post))); [|lia]. cbn [andb].
  unfold len. rewrite Nat2Z.id. rewrite nth_error_app2, Nat.sub_diag by lia. reflexivity.
Qed.

Lemma store_app_mid {A} (pre : list A) x post i v :
  i = len pre -> store (pre ++ x :: post) i v = Ok (pre ++ v :: post).
Proof.
  intros ->. unfold store. rewrite len_app, len_cons.
  pose proof (len_nonneg pre). pose proof (len_nonneg post).
  destruct (Z.leb_spec 0 (len pre)); [|lia].
  destruct (Z.ltb_spec (len pre) (len pre + (1 + len post))); [|lia]. cbn [andb].
  unfold len. rewrite Nat2Z.id.
  rewrite firstn_app, firstn_all, Nat.sub_diag. cbn [firstn]. rewrite app_nil_r.
  replace (S (length pre)) with (length pre + 1)%nat by lia.
  rewrite skipn_app, skipn_all2 by lia.
  replace (length pre + 1 - length pre)%nat with 1%nat by lia. reflexivity.
Qed.

Lemma set_text_app_mid (pre : list Diff) x post i t :
  i = len pre -> set_text (pre ++ x :: post) i t = Ok (pre ++ mkDiff (Type_ x) t :: post).
Proof.
  intros E. unfold set_text. rewrite (index_app_mid pre x post i E). cbn [bind].
  apply store_app_mid. exact E.
Qed.

Lemma slice_chk_prefix {A} (pre post : list A) i :
  i = len pre -> slice_chk (pre ++ post) 0 i = Ok pre.
Proof.
  intros ->. rewrite slice_chk_ok.
  - rewrite slice_prefix. reflexivity.
  - lia.
  - apply len_nonneg.
  - rewrite len_app. pose proof (len_nonneg post). lia.
Qed.

Lemma slice_chk_suffix {A} (pre post : list A) i j :
  i = len pre -> j = len (pre ++ post) -> slice_chk (pre ++ post) i j = Ok post.
Proof.
  intros -> ->. rewrite slice_chk_ok.
  - rewrite slice_suffix. reflexivity.
  - apply len_nonneg.
  - rewrite len_app. pose proof (len_nonneg post). lia.
  - lia.
Qed.

Lemma splice_remove_one (pre : list Diff) x post i :
  i = len pre -> splice (pre ++ x :: post) i 1 [] = Ok (pre ++ post).
Proof.
  intros ->. unfold splice.
  change (pre ++ x :: post) with (pre ++ [x] ++ post). rewrite app_assoc.
  rewrite (slice_chk_suffix (pre ++ [x]) post) by (rewrite ?len_app; reflexivity).
  cbn [bind]. rewrite <- app_assoc.
  rewrite (slice_chk_prefix pre ([x] ++ post)) by reflexivity. reflexivity.
Qed.

(** The state in which the loop to the right starts. *)
Lemma left_shift_ok (Q1 E0 Q2 : gostring) :
  V Q1 -> V E0 -> V Q2 ->
  let k := DiffCommonSuffix Q1 E0 in
  exists eq1 edit eq2,
    (if 0 <? k then
       commonString <- slice_chk E0 (len E0 - k) (len E0) ;;
       equality1 <- slice_chk Q1 0 (len Q1 - k) ;;
       cut <- slice_chk E0 0 (len E0 - k) ;;
       Ok (equality1, commonString ++ cut, commonString ++ Q2)
     else Ok (Q1, E0, Q2)) = Ok (eq1, edit, eq2)
    /\ slide_inv (Q1 ++ Q2) (Q1 ++ E0 ++ Q2)
         (mkSlide eq1 edit eq2 eq1 edit eq2
            (diffCleanupSemanticScore eq1 edit + diffCleanupSemanticScore edit eq2)).
Proof.
  intros V1 Ve V2 k.
  destruct (Z.ltb_spec 0 k) as [Hk|Hk].
  2:{ exists Q1, E0, Q2. split; [reflexivity|].
      repeat split; cbn [sl_edit sl_equality2 sl_equality1 sl_bestScore
       sl_bestEquality1 sl_bestEdit sl_bestEquality2]; try reflexivity.
      left. repeat split; assumption. }
  destruct (common_suffix_bytes Q1 E0 V1 Ve) as (a & e & c & -> & -> & Va & Ve0 & rc & Hc & Hl).
  fold k in Hl.
  pose proof (valid_len _ _ Hc) as Hlc.
  pose proof (len_nonneg a). pose proof (len_nonneg e).
  (* c = c1 ++ c2 with c2 the last k bytes *)
  set (n := (length c - Z.to_nat k)%nat).
  assert (Hn : (n <= length c)%nat) by (subst n; lia).
  assert (Ec : c = firstn n c ++ skipn n c) by (symmetry; apply firstn_skipn).
  set (c1 := firstn n c) in *. set (c2 := skipn n c) in *.
  assert (Lc1 : len c1 = len c - k).
  { subst c1 n. unfold len in *. rewrite length_firstn. lia. }
  assert (Lc2 : len c2 = k).
  { subst c2 n. unfold len in *. rewrite length_skipn. lia. }
  exists (a ++ c1), (c2 ++ e ++ c1), (c2 ++ Q2).
  split.
  { rewrite Ec. rewrite !app_assoc.
    rewrite (slice_chk_suffix ((e ++ c1)) c2)
      by (rewrite ?len_app in *; lia).
    cbn [bind].
    rewrite (slice_chk_prefix (a ++ c1) c2) by (rewrite ?len_app in *; lia).
    cbn [bind].
    rewrite (slice_chk_prefix (e ++ c1) c2) by (rewrite ?len_app in *; lia).
    cbn [bind]. rewrite <- !app_assoc. reflexivity. }
  assert (T : tape ((a ++ c) ++ Q2) ((a ++ c) ++ (e ++ c) ++ Q2)
                   (a ++ c1) (c2 ++ e ++ c1) (c2 ++ Q2)).
  { split; rewrite Ec at 1; [|rewrite Ec at 1]; rewrite <- !app_assoc; reflexivity. }
  destruct (valid_cut c rc Hc n Hn) as [[Hc1 Hc2]|(cA & h1 & h2 & r & cB & E & El & HA & HB & Hch & N1 & N2)].
  - fold c1 in Hc1. fold c2 in Hc2.
    repeat split; cbn [sl_edit sl_equality2 sl_equality1 sl_bestScore
       sl_bestEquality1 sl_bestEdit sl_bestEquality2]; try apply T.
    left. assert (HAl : Al (a ++ c1) (c2 ++ e ++ c1) (c2 ++ Q2)).
    { repeat split; repeat apply V_app; assumption. }
    split; exact HAl.
  - assert (E1 : c1 = cA ++ h1).
    { subst c1. rewrite E. rewrite app_assoc. rewrite <- El.
      rewrite firstn_app, firstn_all, Nat.sub_diag. cbn [firstn]. apply app_nil_r. }
    assert (E2 : c2 = h2 ++ cB).
    { subst c2. rewrite E. rewrite app_assoc. rewrite <- El.
      rewrite skipn_app, skipn_all, Nat.sub_diag. reflexivity. }
    assert (HM : Mis (a ++ c1) (c2 ++ e ++ c1) (c2 ++ Q2)).
    { exists (a ++ cA), h1, h2, (cB ++ e ++ cA), (cB ++ Q2), r.
      rewrite E1, E2. rewrite <- !app_assoc.
      repeat split; try assumption; repeat apply V_app; assumption. }
    repeat split; cbn [sl_edit sl_equality2 sl_equality1 sl_bestScore
       sl_bestEquality1 sl_bestEdit sl_bestEquality2]; try apply T.
    right. split; [exact HM|].
    (* both boundaries lie between two non-ASCII bytes *)
    destruct h2 as [|b h2']; [congruence|].
    destruct (chunk_tail_cont _ _ h1 (b :: h2') Hch eq_refl N1) as [[Hcont Hhigh]|]; [|discriminate].
    assert (Hb : 0x80 <= b) by (apply Forall_inv in Hcont; unfold cont in Hcont; lia).
    assert (Hl1 : 0x80 <= last h1 0).
    { apply Forall_app in Hhigh. destruct Hhigh as [Hh1 _].
      rewrite Forall_forall in Hh1. apply Hh1.
      destruct (exists_last N1) as (l & x & ->). rewrite last_last.
      apply in_or_app. right. left. reflexivity. }
    rewrite E1, E2.
    rewrite (score_high_high (a ++ cA ++ h1) (((b :: h2') ++ cB) ++ e ++ cA ++ h1)).
    + rewrite (score_high_high (((b :: h2') ++ cB) ++ e ++ cA ++ h1) (((b :: h2') ++ cB) ++ Q2)).
      * lia.
      * discriminate.
      * discriminate.
      * rewrite !app_assoc. rewrite last_app_nonempty by assumption. assumption.
      * exact Hb.
    + intros X. apply app_eq_nil in X. destruct X as [_ X].
      apply app_eq_nil in X. destruct X; congruence.
    + discriminate.
    + rewrite !app_assoc. rewrite last_app_nonempty by assumption. assumption.
    + exact Hb.
Qed.

Lemma lossless_edit_ok (pre post : list Diff) (p e n : Diff) (pointer : Z) :
  len pre = pointer - 1 ->
  V (Text p) -> V (Text e) -> V (Text n) ->
  exists mid pointer',
    lossless_edit (pre ++ p :: e :: n :: post) pointer = Ok (pre ++ mid ++ post, pointer')
    /\ edit_outcome p e n pointer mid pointer'.
Proof.
  intros Hl Vp Ve Vn. unfold lossless_edit.
  pose proof (len_nonneg pre) as Hpre.
  rewrite (index_app_mid pre p (e :: n :: post)) by lia. cbn [bind].
  change (pre ++ p :: e :: n :: post) with (pre ++ [p] ++ e :: n :: post).
  rewrite app_assoc.
  rewrite (index_app_mid (pre ++ [p]) e (n :: post))
    by (rewrite ?len_app, ?len_cons, ?len_nil; lia).
  cbn [bind].
  change ((pre ++ [p]) ++ e :: n :: post) with ((pre ++ [p]) ++ [e] ++ n :: post).
  rewrite app_assoc.
  rewrite (index_app_mid ((pre ++ [p]) ++ [e]) n post)
    by (rewrite ?len_app, ?len_cons, ?len_nil; lia).
  cbn [bind]. cbv zeta.
  destruct (left_shift_ok (Text p) (Text e) (Text n) Vp Ve Vn)
    as (eq1 & edit & eq2 & Es & Hinv).
  cbv zeta in Es. rewrite Es. cbn [bind].
  destruct (slide_loop_ok _ _ (length eq2) _ Hinv (le_n _)) as (st & El & Tb & Hb).
  rewrite El. cbn [bind].
  rewrite <- !app_assoc. cbn [app].
  destruct (streq (Text p) (sl_bestEquality1 st)) eqn:Sp; cbn [negb].
  { exists [p; e; n], pointer. split; [reflexivity|constructor]. }
  apply streq_neq in Sp.
  set (b1 := sl_bestEquality1 st) in *. set (be := sl_bestEdit st) in *.
  set (b2 := sl_bestEquality2 st) in *.
  destruct b1 as [|x1 b1'] eqn:E1.
  - (* the first equality is used up *)
    change (len (@nil Z) =? 0) with true. cbn [negb].
    rewrite (splice_remove_one pre p (e :: n :: post)) by lia. cbn [bind].
    rewrite (set_text_app_mid pre e (n :: post)) by lia. cbn [bind].
    destruct b2 as [|x2 b2'] eqn:E2.
    { exfalso. apply Sp. destruct Tb as [T _]. cbn in T.
      destruct (Text p); [reflexivity|]. destruct (Text n); discriminate. }
    rewrite len_eqb_0 by discriminate. cbn [negb].
    change (pre ++ {| Type_ := Type_ e; Text := be |} :: n :: post)
      with (pre ++ [{| Type_ := Type_ e; Text := be |}] ++ n :: post).
    rewrite app_assoc.
    rewrite (set_text_app_mid (pre ++ [_]) n post)
      by (rewrite ?len_app, ?len_cons, ?len_nil; lia).
    cbn [bind]. rewrite <- app_assoc. cbn [app].
    exists [mkDiff (Type_ e) be; mkDiff (Type_ n) (x2 :: b2')], (pointer - 1).
    split; [reflexivity|]. apply outcome_no_left; [assumption|assumption|discriminate].
  - rewrite len_eqb_0 by discriminate. cbn [negb].
    rewrite (set_text_app_mid pre p (e :: n :: post)) by lia. cbn [bind].
    change (pre ++ {| Type_ := Type_ p; Text := x1 :: b1' |} :: e :: n :: post)
      with (pre ++ [{| Type_ := Type_ p; Text := x1 :: b1' |}] ++ e :: n :: post).
    rewrite app_assoc.
    rewrite (set_text_app_mid (pre ++ [_]) e (n :: post))
      by (rewrite ?len_app, ?len_cons, ?len_nil; lia).
    cbn [bind].
    destruct b2 as [|x2 b2'] eqn:E2.
    + change (len (@nil Z) =? 0) with true. cbn [negb].
      change ((pre ++ [{| Type_ := Type_ p; Text := x1 :: b1' |}]) ++
                {| Type_ := Type_ e; Text := be |} :: n :: post)
        with ((pre ++ [{| Type_ := Type_ p; Text := x1 :: b1' |}]) ++
                [{| Type_ := Type_ e; Text := be |}] ++ [n] ++ post).
      rewrite !app_assoc.
      rewrite <- (app_assoc _ [n] post).
      rewrite (slice_chk_prefix ((pre ++ [_]) ++ [_]) ([n] ++ post))
        by (rewrite ?len_app, ?len_cons, ?len_nil; lia).
      cbn [bind].
      rewrite (app_assoc _ [n] post).
      rewrite (slice_chk_suffix (((pre ++ [_]) ++ [_]) ++ [n]) post)
        by (rewrite ?len_app, ?len_cons, ?len_nil; lia).
      cbn [bind]. rewrite <- !app_assoc. cbn [app].
      exists [mkDiff (Type_ p) (x1 :: b1'); mkDiff (Type_ e) be], (pointer - 1).
      split; [reflexivity|]. apply outcome_no_right; [assumption|assumption|discriminate].
    + rewrite len_eqb_0 by discriminate. cbn [negb].
      change ((pre ++ [{| Type_ := Type_ p; Text := x1 :: b1' |}]) ++
                {| Type_ := Type_ e; Text := be |} :: n :: post)
        with ((pre ++ [{| Type_ := Type_ p; Text := x1 :: b1' |}]) ++
                [{| Type_ := Type_ e; Text := be |}] ++ n :: post).
      rewrite app_assoc.
      rewrite (set_text_app_mid ((pre ++ [_]) ++ [_]) n post)
        by (rewrite ?len_app, ?len_cons, ?len_nil; lia).
      cbn [bind]. rewrite <- !app_assoc. cbn [app].
      exists [mkDiff (Type_ p) (x1 :: b1'); mkDiff (Type_ e) be; mkDiff (Type_ n) (x2 :: b2')],
        pointer.
      split; [reflexivity|]. apply outcome_moved; [assumption|assumption|discriminate|discriminate].
Qed.

Lemma DiffText1_app a b : DiffText1 (a ++ b) = DiffText1 a ++ DiffText1 b.
Proof.
  induction a as [|d a IH]; [reflexivity|]. cbn [app DiffText1].
  destruct (negb _); rewrite IH; [apply app_assoc|reflexivity].
Qed.

Lemma DiffText2_app a b : DiffText2 (a ++ b) = DiffText2 a ++ DiffText2 b.
Proof.
  induction a as [|d a IH]; [reflexivity|]. cbn [app DiffText2].
  destruct (negb _); rewrite IH; [apply app_assoc|reflexivity].
Qed.

Lemma split_three {A} (l : list A) (i : Z) :
  1 <= i -> i < len l - 1 ->
  exists pre p e n post, l = pre ++ p :: e :: n :: post /\ len pre = i - 1.
Proof.
  intros H1 H2.
  set (k := Z.to_nat (i - 1)).
  assert (Hk : (k + 3 <= length l)%nat) by (unfold len in H2; lia).
  pose proof (firstn_skipn k l) as E.
  destruct (skipn k l) as [|p [|e [|n post]]] eqn:Es;
    try (apply (f_equal (@length _)) in Es; rewrite length_skipn in Es; cbn in Es; lia).
  exists (firstn k l), p, e, n, post. split; [symmetry; exact E|].
  unfold len. rewrite length_firstn. lia.
Qed.

Lemma outcome_texts p e n pointer mid pointer' :
  Type_ p = DiffEqual -> Type_ n = DiffEqual ->
  edit_outcome p e n pointer mid pointer' ->
  DiffText1 mid = DiffText1 [p; e; n] /\ DiffText2 mid = DiffText2 [p; e; n]
  /\ (all_valid [p; e; n] -> all_valid mid)
  /\ ((len mid = 3 /\ pointer' = pointer) \/ (len mid = 2 /\ pointer' = pointer - 1)).
Proof.
  intros Tp Tn H.
  destruct H as [|b1 be b2 [T1 T2] (V1 & Ve & V2) N1 N2
                 |be b2 [T1 T2] (V1 & Ve & V2) N2
                 |b1 be [T1 T2] (V1 & Ve & V2) N1].
  - split; [reflexivity|]. split; [reflexivity|]. split; [tauto|].
    left. split; reflexivity.
  - cbn [DiffText1 DiffText2 Type_ Text]. rewrite Tp, Tn. cbn [op_eqb negb].
    rewrite !app_nil_r.
    split; [|split; [|split]].
    + destruct (negb (op_eqb (Type_ e) DiffInsert)); rewrite ?app_nil_r; [exact T2|exact T1].
    + destruct (negb (op_eqb (Type_ e) DiffDelete)); rewrite ?app_nil_r; [exact T2|exact T1].
    + intros _. repeat constructor; assumption.
    + left. split; reflexivity.
  - cbn [DiffText1 DiffText2 Type_ Text]. rewrite Tp, Tn. cbn [op_eqb negb].
    rewrite !app_nil_r. cbn [app] in T1, T2.
    split; [|split; [|split]].
    + destruct (negb (op_eqb (Type_ e) DiffInsert)); rewrite ?app_nil_r; [exact T2|exact T1].
    + destruct (negb (op_eqb (Type_ e) DiffDelete)); rewrite ?app_nil_r; [exact T2|exact T1].
    + intros _. repeat constructor; assumption.
    + right. split; reflexivity.
  - cbn [DiffText1 DiffText2 Type_ Text]. rewrite Tp, Tn. cbn [op_eqb negb].
    rewrite !app_nil_r in *.
    split; [|split; [|split]].
    + destruct (negb (op_eqb (Type_ e) DiffInsert)); rewrite ?app_nil_r; [exact T2|exact T1].
    + destruct (negb (op_eqb (Type_ e) DiffDelete)); rewrite ?app_nil_r; [exact T2|exact T1].
    + intros _. repeat constructor; assumption.
    + right. split; reflexivity.
Qed.

Lemma op_eqb_eq a b : op_eqb a b = true <-> a = b.
Proof. destruct a, b; cbn; split; intros; congruence. Qed.

(** The loop of [DiffCleanupSemanticLossless] ends without a panic and
    keeps both texts and the validity of the payloads. *)
Lemma lossless_loop_ok fuel : forall diffs pointer,
  1 <= pointer -> all_valid diffs ->
  2 * len diffs - pointer <= Z.of_nat fuel ->
  exists diffs',
    lossless_loop fuel diffs pointer = Ok diffs'
    /\ DiffText1 diffs' = DiffText1 diffs /\ DiffText2 diffs' = DiffText2 diffs
    /\ all_valid diffs'.
Proof.
  induction fuel as [|fuel IH]; intros diffs pointer Hp Hv Hf.
  - exists diffs. pose proof (len_nonneg diffs).
    cbn [lossless_loop].
    destruct (Z.ltb_spec pointer (len diffs - 1)); [lia|]. repeat split; assumption.
  - cbn [lossless_loop].
    destruct (Z.ltb_spec pointer (len diffs - 1)) as [Hlt|Hge].
    2:{ exists diffs. repeat split; assumption. }
    destruct (split_three diffs pointer Hp Hlt) as (pre & p & e & n & post & -> & Hl).
    rewrite (index_app_mid pre p (e :: n :: post)) by lia. cbn [bind].
    assert (Hidx : index (pre ++ p :: e :: n :: post) (pointer + 1) = Ok n).
    { change (pre ++ p :: e :: n :: post) with (pre ++ [p; e] ++ n :: post).
      rewrite app_assoc. apply index_app_mid.
      rewrite len_app, !len_cons, len_nil. lia. }
    assert (Hv3 : all_valid [p; e; n]).
    { unfold all_valid in *. apply Forall_app in Hv. destruct Hv as [_ Hv].
      inversion Hv as [|? ? Hp' Hv1]; subst. inversion Hv1 as [|? ? He' Hv2]; subst.
      inversion Hv2 as [|? ? Hn' Hv3]; subst. repeat constructor; assumption. }
    assert (Same : exists diffs',
               lossless_loop fuel (pre ++ p :: e :: n :: post) (pointer + 1) = Ok diffs'
               /\ DiffText1 diffs' = DiffText1 (pre ++ p :: e :: n :: post)
               /\ DiffText2 diffs' = DiffText2 (pre ++ p :: e :: n :: post)
               /\ all_valid diffs').
    { apply IH; [lia|assumption|lia]. }
    destruct (op_eqb (Type_ p) DiffEqual) eqn:Tp; [|cbn [bind]; exact Same].
    rewrite Hidx. cbn [bind].
    destruct (op_eqb (Type_ n) DiffEqual) eqn:Tn; [|cbn [bind]; exact Same].
    apply op_eqb_eq in Tp, Tn.
    assert (Vp : V (Text p)) by (inversion Hv3; assumption).
    assert (Ve : V (Text e)) by (inversion Hv3 as [|? ? ? X]; inversion X; assumption).
    assert (Vn : V (Text n))
      by (inversion Hv3 as [|? ? ? X]; inversion X as [|? ? ? Y]; inversion Y; assumption).
    destruct (lossless_edit_ok pre post p e n pointer Hl Vp Ve Vn) as (mid & pointer' & El & Ho).
    rewrite El. cbn [bind].
    destruct (outcome_texts _ _ _ _ _ _ Tp Tn Ho) as (E1 & E2 & Hvm & Hsz).
    assert (Hv' : all_valid (pre ++ mid ++ post)).
    { unfold all_valid in *. apply Forall_app in Hv. destruct Hv as [Hvpre Hv].
      apply Forall_app. split; [assumption|]. apply Forall_app. split; [apply Hvm; assumption|].
      inversion Hv as [|? ? ? X]; inversion X as [|? ? ? Y]; inversion Y; assumption. }
    destruct (IH (pre ++ mid ++ post) (pointer' + 1)) as (diffs' & Er & R1 & R2 & Rv).
    + destruct Hsz as [[_ ->]|[_ ->]]; lia.
    + exact Hv'.
    + rewrite !len_app in *. rewrite !len_cons in Hf.
      destruct Hsz as [[-> ->]|[-> ->]]; lia.
    + exists diffs'. split; [exact Er|].
      rewrite R1, R2.
      change (pre ++ p :: e :: n :: post) with (pre ++ [p; e; n] ++ post).
      rewrite !DiffText1_app, !DiffText2_app, E1, E2. repeat split. exact Rv.
Qed.

(** ** [DiffCleanupSemanticLossless] keeps the texts *)

Lemma valid_payloads_all_valid diffs : valid_payloads diffs <-> all_valid diffs.
Proof.
  unfold valid_payloads, all_valid, V. rewrite !Forall_forall.
  split; intros H d Hd; apply ValidString_valid; apply H; assumption.
Qed.

(** X25. On a script whose payloads are strings of codepoints, that
    is, well-formed UTF-8, [DiffCleanupSemanticLossless] returns without
    a panic, the script it returns has the same first text and the same
    second text, and its payloads are well-formed again. *)
Theorem DiffCleanupSemanticLossless_keeps_texts (diffs : list Diff) :
  valid_payloads diffs ->
  exists diffs',
    DiffCleanupSemanticLossless diffs = Ok diffs'
    /\ DiffText1 diffs' = DiffText1 diffs
    /\ DiffText2 diffs' = DiffText2 diffs
    /\ valid_payloads diffs'.
Proof.
  intros Hv. apply valid_payloads_all_valid in Hv.
  destruct (lossless_loop_ok (2 * length diffs) diffs 1 ltac:(lia) Hv)
    as (diffs' & E & E1 & E2 & Hv').
  { unfold len. lia. }
  exists diffs'. repeat split; try assumption.
  apply valid_payloads_all_valid. exact Hv'.
Qed.

(** The theorem at [chess_script]. *)
Lemma DiffCleanupSemanticLossless_keeps_texts_witness :
  exists diffs',
    DiffCleanupSemanticLossless chess_script = Ok diffs'
    /\ DiffText1 diffs' = DiffText1 chess_script
    /\ DiffText2 diffs' = DiffText2 chess_script
    /\ valid_payloads diffs'.
Proof.
  apply (DiffCleanupSemanticLossless_keeps_texts chess_script).
  repeat constructor.
Defined.


(** ** The scan of [DiffCleanupSemantic] *)

Lemma ins_len_app a b : ins_len (a ++ b) = ins_len a + ins_len b.
Proof. induction a as [|d a IH]; cbn [app ins_len]; [reflexivity|]. rewrite IH. lia. Qed.

Lemma del_len_app a b : del_len (a ++ b) = del_len a + del_len b.
Proof. induction a as [|d a IH]; cbn [app del_len]; [reflexivity|]. rewrite IH. lia. Qed.

Lemma blocks_ends pre st : blocks pre st -> ends_with_equality pre.
Proof.
  intros [|pre' es e st' _ _]; [left; reflexivity|].
  right. exists (pre' ++ es), e. rewrite app_assoc. reflexivity.
Qed.

Lemma blocks_peek pre st : blocks pre st -> Peek st + 1 = len pre.
Proof.
  intros [|pre' es e st' _ _]; [reflexivity|].
  cbn [Peek]. rewrite !len_app, len_cons, len_nil. lia.
Qed.

Lemma sem_step_cases (st : sem_state) :
  sem_inv st -> (s_pointer st <? len (s_diffs st)) = true ->
  exists st', sem_step st = Ok st' /\ sem_inv st'
    /\ (s_diffs st' = s_diffs st
        \/ exists pre before e after rest,
             s_diffs st = pre ++ before ++ [mkDiff DiffEqual e] ++ after ++ rest
             /\ s_diffs st' = pre ++ before ++
                  [mkDiff DiffDelete e; mkDiff DiffInsert e] ++ after ++ rest
             /\ ends_with_equality pre /\ edits before /\ edits after
             /\ len (pre ++ before ++ [mkDiff DiffEqual e] ++ after) = s_pointer st + 1
             /\ dominated before after e).
Proof.
  destruct st as [diffs changes equalities lastequality pointer li1 ld1 li2 ld2].
  intros (pre & es & rest & Hd & Hp & Hes & Hb & Hi & Hdl & Hlive) Hlt.
  cbn [s_diffs s_pointer s_equalities s_length_insertions2 s_length_deletions2] in *.
  apply Z.ltb_lt in Hlt.
  destruct rest as [|d rest].
  { exfalso. rewrite Hd, Hp in Hlt. rewrite app_nil_r in Hlt. lia. }
  assert (Hidx : index diffs pointer = Ok d).
  { rewrite Hd, app_assoc. apply index_app_mid. exact Hp. }
  unfold sem_step. rewrite Hidx. cbn [bind].
  destruct (op_eqb (Type_ d) DiffEqual) eqn:Heq.
  - (* an equality is pushed *)
    eexists. split; [reflexivity|]. split; [|left; reflexivity].
    destruct d as [ty tx]. cbn [Type_ Text] in *.
    destruct ty; try discriminate.
    exists (pre ++ es ++ [mkDiff DiffEqual tx]), [], rest.
    cbn [s_diffs s_pointer s_equalities s_length_insertions2 s_length_deletions2
         s_lastequality s_length_insertions1 s_length_deletions1].
    split. { rewrite Hd. rewrite <- !app_assoc. reflexivity. }
    split. { rewrite Hp. rewrite app_nil_r, !len_app, len_cons, len_nil. lia. }
    split. { constructor. }
    split. { unfold Push. rewrite Hp. constructor; assumption. }
    split; [reflexivity|]. split; [reflexivity|].
    right. exists pre, es, equalities.
    cbn [s_lastequality s_equalities s_length_insertions1 s_length_deletions1].
    unfold Push. rewrite Hp. repeat split; assumption.
  - (* an edit *)
    set (li2' := if op_eqb (Type_ d) DiffInsert then li2 + len (Text d) else li2).
    set (ld2' := if op_eqb (Type_ d) DiffInsert then ld2 else ld2 + len (Text d)).
    assert (Hed : edits (es ++ [d])).
    { apply Forall_app. split; [assumption|]. constructor; [|constructor].
      unfold is_edit. rewrite Heq. reflexivity. }
    assert (Hi' : li2' = ins_len (es ++ [d])).
    { subst li2'. rewrite ins_len_app. cbn [ins_len].
      destruct (op_eqb (Type_ d) DiffInsert); lia. }
    assert (Hd' : ld2' = del_len (es ++ [d])).
    { subst ld2'. rewrite del_len_app. cbn [del_len].
      destruct d as [[] tx]; cbn [Type_ Text op_eqb] in *; try discriminate; lia. }
    destruct (sem_eliminates lastequality li1 ld1 li2' ld2') eqn:Hel.
    + (* the last equality is eliminated *)
      unfold sem_eliminates in Hel. cbv zeta in Hel.
      apply andb_true_iff in Hel. destruct Hel as [Hel H3].
      apply andb_true_iff in Hel. destruct Hel as [H1 H2].
      apply Z.ltb_lt in H1. apply Z.leb_le in H2. apply Z.leb_le in H3.
      destruct Hlive as [Hnil|(pre' & es' & stack' & Hpre & Hst & Hb' & Hes' & Hl1 & Hl2)].
      { cbn [s_lastequality] in Hnil. subst lastequality. cbn in H1. lia. }
      cbn [s_lastequality s_equalities s_length_insertions1 s_length_deletions1] in *.
      subst equalities. cbn [Peek Pop tl].
      assert (Hd2 : diffs = (pre' ++ es') ++
                      (mkDiff DiffEqual lastequality :: es ++ d :: rest)).
      { rewrite Hd, Hpre. rewrite <- !app_assoc. reflexivity. }
      assert (Hs1 : slice_chk diffs 0 (len (pre' ++ es')) = Ok (pre' ++ es')).
      { rewrite Hd2. apply slice_chk_prefix. reflexivity. }
      assert (Hs2 : slice_chk diffs (len (pre' ++ es')) (len diffs)
                    = Ok (mkDiff DiffEqual lastequality :: es ++ d :: rest)).
      { rewrite Hd2. apply slice_chk_suffix; reflexivity. }
      rewrite Hs1. cbn [bind]. rewrite Hs2. cbn [bind].
      change ((pre' ++ es') ++ mkDiff DiffDelete lastequality ::
                mkDiff DiffEqual lastequality :: es ++ d :: rest)
        with ((pre' ++ es') ++ [mkDiff DiffDelete lastequality] ++
                mkDiff DiffEqual lastequality :: es ++ d :: rest).
      rewrite (app_assoc (pre' ++ es')).
      rewrite index_app_mid by (rewrite !len_app, len_cons, len_nil; lia).
      cbn [bind Text].
      rewrite store_app_mid by (rewrite !len_app, len_cons, len_nil; lia).
      cbn [bind].
      set (diffs' := ((pre' ++ es') ++ [mkDiff DiffDelete lastequality]) ++
                      mkDiff DiffInsert lastequality :: es ++ d :: rest).
      assert (Hshape : diffs' = pre' ++ es' ++
                 [mkDiff DiffDelete lastequality; mkDiff DiffInsert lastequality]
                 ++ (es ++ [d]) ++ rest).
      { subst diffs'. rewrite <- !app_assoc. reflexivity. }
      assert (Hout : forall st', s_diffs st' = diffs' ->
         s_diffs st' = diffs \/
         exists pre0 before e after rest0,
           diffs = pre0 ++ before ++ [mkDiff DiffEqual e] ++ after ++ rest0
           /\ s_diffs st' = pre0 ++ before ++
                [mkDiff DiffDelete e; mkDiff DiffInsert e] ++ after ++ rest0
           /\ ends_with_equality pre0 /\ edits before /\ edits after
           /\ len (pre0 ++ before ++ [mkDiff DiffEqual e] ++ after) = pointer + 1
           /\ dominated before after e).
      { intros st' E. right.
        exists pre', es', lastequality, (es ++ [d]), rest.
        split. { rewrite Hd2. rewrite <- !app_assoc. reflexivity. }
        split. { rewrite E. exact Hshape. }
        split. { eapply blocks_ends; eassumption. }
        split; [assumption|]. split; [assumption|].
        split. { rewrite Hp, Hpre. rewrite !len_app, !len_cons, !len_nil. lia. }
        unfold dominated. rewrite <- Hl1, <- Hl2, <- Hi', <- Hd'. lia. }
      destruct Hb' as [|p3 es3 e3 st3 Hb3 Hes3].
      * (* no equality is left on the stack *)
        cbn [Len len length Z.of_nat Z.ltb Z.compare].
        eexists. split; [reflexivity|]. split; [|apply Hout; reflexivity].
        exists [], [], diffs'.
        cbn [s_diffs s_pointer s_equalities s_length_insertions2 s_length_deletions2].
        repeat split; try constructor. reflexivity.
      * unfold Len. rewrite len_cons.
        pose proof (len_nonneg st3).
        destruct (Z.ltb_spec 0 (1 + len st3)); [|lia].
        cbn [Pop tl].
        eexists. split; [reflexivity|]. split; [|apply Hout; reflexivity].
        exists p3, [], ((es3 ++ [mkDiff DiffEqual e3]) ++ es' ++
                 [mkDiff DiffDelete lastequality; mkDiff DiffInsert lastequality]
                 ++ (es ++ [d]) ++ rest).
        cbn [s_diffs s_pointer s_equalities s_length_insertions2 s_length_deletions2].
        split. { rewrite Hshape. rewrite <- !app_assoc. reflexivity. }
        split. { rewrite app_nil_r. apply blocks_peek. assumption. }
        split; [constructor|]. split; [assumption|].
        split; [reflexivity|]. split; [reflexivity|]. left. reflexivity.
    + eexists. split; [reflexivity|]. split; [|left; reflexivity].
      exists pre, (es ++ [d]), rest.
      cbn [s_diffs s_pointer s_equalities s_length_insertions2 s_length_deletions2].
      split. { rewrite Hd. rewrite <- !app_assoc. reflexivity. }
      split. { rewrite Hp. rewrite !len_app, len_cons, len_nil. lia. }
      split; [assumption|]. split; [assumption|].
      split; [assumption|]. split; [assumption|].
      destruct Hlive as [Hnil|(pre' & es' & stack' & Hpre & Hst & Hb' & Hes' & Hl1 & Hl2)].
      * left. exact Hnil.
      * right. exists pre', es', stack'. repeat split; assumption.
Qed.

Lemma sem_reach_inv diffs0 st : sem_reach diffs0 st -> sem_inv st.
Proof.
  induction 1 as [|st st' _ IH Hlt Hstep].
  - exists [], [], diffs0. cbn. repeat split; try constructor. reflexivity.
  - destruct (sem_step_cases st IH Hlt) as (st'' & E & Hinv & _).
    rewrite E in Hstep. injection Hstep as <-. exact Hinv.
Qed.

(** The states that the loop of [DiffCleanupSemantic] runs through are
    the states of [sem_reach]. *)
Lemma sem_loop_reach diffs0 fuel st st' :
  sem_reach diffs0 st -> sem_loop fuel st = Ok st' -> sem_reach diffs0 st'.
Proof.
  revert st. induction fuel as [|fuel IH]; intros st Hr H; simpl in H;
    destruct (s_pointer st <? len (s_diffs st)) eqn:E; try discriminate.
  - injection H as <-. exact Hr.
  - destruct (sem_step st) as [st1| |] eqn:Es; simpl in H; try discriminate.
    apply (IH st1); [|exact H]. apply (reach_step _ st); assumption.
  - injection H as <-. exact Hr.
Qed.

Lemma ascii_valid s : ascii s -> valid s s.
Proof.
  induction 1 as [|b s Hb _ IH]; [constructor|].
  change (b :: s) with ([b] ++ s) at 1. constructor; [|exact IH].
  apply chunk1. lia.
Qed.

Lemma ascii_runes s : ascii s -> runes s = s.
Proof. intros H. apply runes_valid, ascii_valid, H. Qed.

Lemma ascii_edit_runes ds :
  ascii_payloads ds -> ins_runes ds = ins_len ds /\ del_runes ds = del_len ds.
Proof.
  induction 1 as [|d r Hd _ [I1 I2]]; [split; reflexivity|].
  cbn [ins_runes del_runes ins_len del_len]. rewrite (ascii_runes _ Hd), I1, I2.
  split; reflexivity.
Qed.

(** The scan replaces an equality by a deletion and an insertion of the
    same payload: payloads of bytes below 0x80 stay so. *)
Lemma sem_reach_ascii diffs0 st :
  ascii_payloads diffs0 -> sem_reach diffs0 st -> ascii_payloads (s_diffs st).
Proof.
  intros Ha. induction 1 as [|st st' Hr IH Hlt Hstep]; [exact Ha|].
  destruct (sem_step_cases st (sem_reach_inv _ _ Hr) Hlt) as (st'' & E & _ & Hc).
  rewrite E in Hstep. injection Hstep as <-.
  destruct Hc as [->|(pre & before & e & after & rest & Hd & -> & _)]; [exact IH|].
  rewrite Hd in IH. unfold ascii_payloads in *. rewrite !Forall_app in *.
  destruct IH as (A1 & A2 & A3 & A4 & A5). inversion A3; subst.
  repeat split; try assumption. repeat constructor; assumption.
Qed.

(** C3, counterexample: the equality "b" between the deletions "a" and
    "c" has exactly the length of the edits on either side, and
    [DiffCleanupSemantic] eliminates it. *)
Lemma DiffCleanupSemantic_eliminates_equal_length :
  DiffCleanupSemantic 4 simple_elimination
    = Ok [mkDiff DiffDelete [97; 98; 99]; mkDiff DiffInsert [98]]
  /\ len (runes [98]) = Z.max (ins_len [mkDiff DiffDelete [97]])
                              (del_len [mkDiff DiffDelete [97]])
  /\ len (runes [98]) = Z.max (ins_len [mkDiff DiffDelete [99]])
                              (del_len [mkDiff DiffDelete [99]]).
Proof. repeat split. Qed.

(** C3, amended: on a script whose payloads are bytes below 0x80, one
    byte for each codepoint, every iteration of the scan of
    [DiffCleanupSemantic] succeeds, and it either leaves the script as
    it is or replaces one equality [e] by [Delete e, Insert e]; that
    equality is not empty and its length in codepoints is at most the
    larger of the codepoints inserted and the codepoints deleted by the
    run of edits right before it, and at most the larger of those of
    the edits after it up to the cursor. *)
Theorem sem_step_eliminates_only_dominated (diffs0 : list Diff) (st : sem_state) :
  ascii_payloads diffs0 ->
  sem_reach diffs0 st -> (s_pointer st <? len (s_diffs st)) = true ->
  exists st', sem_step st = Ok st'
    /\ (s_diffs st' = s_diffs st
        \/ exists pre before e after rest,
             s_diffs st = pre ++ before ++ [mkDiff DiffEqual e] ++ after ++ rest
             /\ s_diffs st' = pre ++ before ++
                  [mkDiff DiffDelete e; mkDiff DiffInsert e] ++ after ++ rest
             /\ ends_with_equality pre /\ edits before /\ edits after
             /\ len (pre ++ before ++ [mkDiff DiffEqual e] ++ after) = s_pointer st + 1
             /\ dominated_runes before after e).
Proof.
  intros Ha Hr Hlt.
  destruct (sem_step_cases st (sem_reach_inv _ _ Hr) Hlt) as (st' & E & _ & H).
  exists st'. split; [exact E|].
  destruct H as [H|(pre & before & e & after & rest & Hd & Hd' & He & Hb & Hf & Hl & Hdom)];
    [left; exact H|right].
  exists pre, before, e, after, rest. repeat split; try assumption;
    pose proof (sem_reach_ascii diffs0 st Ha Hr) as Hall;
    rewrite Hd in Hall; unfold ascii_payloads in Hall; rewrite !Forall_app in Hall;
    destruct Hall as (_ & Ab & Ae & Aa & _); inversion Ae as [|? ? Aet _]; subst;
    cbn [Text] in Aet;
    destruct (ascii_edit_runes before Ab) as [B1 B2];
    destruct (ascii_edit_runes after Aa) as [F1 F2];
    destruct Hdom as (D0 & D1 & D2);
    rewrite (ascii_runes e Aet), ?B1, ?B2, ?F1, ?F2; assumption.
Qed.

(** The theorem at the last entry of [simple_elimination]. *)
Lemma sem_step_eliminates_only_dominated_witness :
  exists st', sem_step simple_elimination_at_2 = Ok st'
    /\ (s_diffs st' = s_diffs simple_elimination_at_2
        \/ exists pre before e after rest,
             s_diffs simple_elimination_at_2
               = pre ++ before ++ [mkDiff DiffEqual e] ++ after ++ rest
             /\ s_diffs st' = pre ++ before ++
                  [mkDiff DiffDelete e; mkDiff DiffInsert e] ++ after ++ rest
             /\ ends_with_equality pre /\ edits before /\ edits after
             /\ len (pre ++ before ++ [mkDiff DiffEqual e] ++ after)
                = s_pointer simple_elimination_at_2 + 1
             /\ dominated_runes before after e).
Proof.
  apply (sem_step_eliminates_only_dominated simple_elimination simple_elimination_at_2).
  - repeat (constructor; try lia).
  - apply (reach_step _ (mkSem simple_elimination false [] [] 1 0 0 0 1));
      [|reflexivity|reflexivity].
    apply (reach_step _ (mkSem simple_elimination false [] [] 0 0 0 0 0));
      [|reflexivity|reflexivity].
    apply reach_init.
  - reflexivity.
Defined.

(** ** [MatchMain] *)

(** C6, counterexample: in the text U+00E9, "a" the pattern "a" stands
    at codepoint position 1 and at byte offset 2.  [MatchMain] finds it
    at [loc = 2] and returns 2; at [loc = 1] it compares the second byte
    of U+00E9 with the pattern and hands over to [MatchBitap].  With an
    empty pattern and [loc = 5] the location is clamped to the length in
    bytes, 3. *)
Lemma MatchMain_clamps_to_bytes :
  runes (e_acute ++ [97]) = [0xE9; 97]
  /\ MatchMain no_bitap (e_acute ++ [97]) [97] 2 = Ok 2
  /\ MatchMain no_bitap (e_acute ++ [97]) [97] 1 = Ok (-1)
  /\ MatchMain no_bitap (e_acute ++ [97]) [] 5 = Ok 3.
Proof. repeat split. Qed.

Lemma occurs_at_slice s pattern loc :
  0 <= loc ->
  (if loc + len pattern <=? len s then
     w <- slice_chk s loc (loc + len pattern) ;; Ok (streq w pattern)
   else Ok false) = Ok (occurs_at s pattern loc).
Proof.
  intros Hl. unfold occurs_at.
  destruct (Z.leb_spec (loc + len pattern) (len s)) as [H|H]; [|reflexivity].
  rewrite slice_chk_ok; [reflexivity|lia| |lia].
  pose proof (len_nonneg pattern). lia.
Qed.

(** C6, amended: [MatchMain] never panics; with [loc] clamped to
    [0, len(s)], the length in bytes, it returns 0 when text and pattern
    are the same string, -1 when the text is empty, the clamped [loc]
    when the pattern occurs at that byte offset, and what [MatchBitap]
    returns for the clamped [loc] otherwise. *)
Theorem MatchMain_cases (MatchBitap : gostring -> gostring -> Z -> Z)
    (s pattern : gostring) (loc : Z) :
  MatchMain MatchBitap s pattern loc =
    Ok (if streq s pattern then 0
        else if len s =? 0 then -1
        else if occurs_at s pattern (Z.max 0 (Z.min loc (len s)))
             then Z.max 0 (Z.min loc (len s))
             else MatchBitap s pattern (Z.max 0 (Z.min loc (len s)))).
Proof.
  unfold MatchMain. cbv zeta.
  destruct (streq s pattern); [reflexivity|].
  destruct (len s =? 0); [reflexivity|].
  rewrite occurs_at_slice by lia. cbn [bind].
  destruct (occurs_at s pattern (Z.max 0 (Z.min loc (len s)))); reflexivity.
Qed.

(** When [occurs_at] holds the pattern stands in the text at that byte
    offset. *)
Lemma occurs_at_spec s pattern loc :
  0 <= loc -> occurs_at s pattern loc = true ->
  exists pre post, s = pre ++ pattern ++ post /\ len pre = loc.
Proof.
  intros Hl H. unfold occurs_at in H. apply andb_true_iff in H.
  destruct H as [Hb He]. apply Z.leb_le in Hb. apply streq_eq in He.
  exists (firstn (Z.to_nat loc) s), (skipn (Z.to_nat (len pattern)) (skipn (Z.to_nat loc) s)).
  pose proof (len_nonneg pattern).
  split.
  - rewrite <- He at 1. unfold slice.
    replace (Z.to_nat (loc + len pattern - loc)) with (Z.to_nat (len pattern)) by lia.
    rewrite firstn_skipn. rewrite firstn_skipn. reflexivity.
  - unfold len in *. rewrite length_firstn. lia.
Qed.

(** ** [diffBisect] and the deadline *)

(** X1. Where the arrays of the walk are long enough, [diffBisect] with an
    expired deadline reads the clock once and returns the deletion of
    the first text and the insertion of the second. *)
Lemma diffBisect_expired (expired : clock)
    (rec : list rune -> list rune -> bool -> nat -> result (list Diff * nat))
    (s1 s2 : list rune) (t : nat) :
  3 <= len s1 + len s2 -> expired t = true ->
  diffBisect expired rec s1 s2 t =
    Ok ([mkDiff DiffDelete (string_of_runes s1);
         mkDiff DiffInsert (string_of_runes s2)], S t).
Proof.
  intros H3 He. unfold diffBisect, bisect_walk. cbv zeta.
  set (dmax := (len s1 + len s2 + 1) / 2).
  assert (Hd : 2 <= dmax) by (subst dmax; apply Z.div_le_lower_bound; lia).
  assert (Hs : forall v, store (repeat (-1) (Z.to_nat (2 * dmax))) (dmax + 1) v
               = Ok (firstn (Z.to_nat (dmax + 1)) (repeat (-1) (Z.to_nat (2 * dmax)))
                     ++ v :: skipn (S (Z.to_nat (dmax + 1)))
                                   (repeat (-1) (Z.to_nat (2 * dmax))))).
  { intros v. unfold store, len. rewrite repeat_length.
    destruct (Z.leb_spec 0 (dmax + 1)); [|lia].
    destruct (Z.ltb_spec (dmax + 1) (Z.of_nat (Z.to_nat (2 * dmax)))); [|lia].
    reflexivity. }
  rewrite !Hs. cbn [bind].
  destruct (Z.to_nat dmax) as [|n] eqn:En; [lia|].
  cbn [d_loop]. fold dmax.
  destruct (Z.ltb_spec 0 dmax); [|lia].
  rewrite He. reflexivity.
Qed.

(** ** [DiffLevenshtein] and [DiffFromDelta] *)

Lemma levenshtein_loop_runs diffs : forall ret ins del,
  levenshtein_loop diffs ret ins del =
    ret + match runs_of diffs with
          | run :: runs =>
            Z.max (ins + measured len DiffInsert run) (del + measured len DiffDelete run)
            + fold_right Z.add 0
                (map (fun run => Z.max (measured len DiffInsert run)
                                       (measured len DiffDelete run)) runs)
          | [] => Z.max ins del
          end.
Proof.
  induction diffs as [|d diffs IH]; intros ret ins del.
  - cbn. rewrite !Z.add_0_r. reflexivity.
  - cbn [levenshtein_loop runs_of].
    destruct d as [[] tx]; cbn [Type_ Text op_eqb]; rewrite IH;
      destruct (runs_of diffs) as [|run runs]; cbn [measured Type_ Text op_eqb map fold_right];
      rewrite ?Z.add_0_l, ?Z.add_0_r, ?Z.add_assoc; try reflexivity; lia.
Qed.

(** [DiffLevenshtein] is the sum over the runs with the payloads
    measured in bytes. *)
Lemma DiffLevenshtein_runs_bytes diffs :
  DiffLevenshtein diffs = levenshtein_runs len diffs.
Proof.
  unfold DiffLevenshtein, levenshtein_runs. rewrite levenshtein_loop_runs.
  destruct (runs_of diffs) as [|run runs]; cbn [map fold_right]; lia.
Qed.

Lemma measured_ext m1 m2 op run :
  Forall (fun d => m1 (Text d) = m2 (Text d)) run ->
  measured m1 op run = measured m2 op run.
Proof.
  induction 1 as [|d r Hd _ IH]; [reflexivity|].
  cbn [measured]. rewrite Hd, IH. reflexivity.
Qed.

Lemma levenshtein_runs_ext m1 m2 diffs :
  Forall (fun d => m1 (Text d) = m2 (Text d)) diffs ->
  levenshtein_runs m1 diffs = levenshtein_runs m2 diffs.
Proof.
  unfold levenshtein_runs. intros H. f_equal.
  assert (Hr : Forall (Forall (fun d => m1 (Text d) = m2 (Text d))) (runs_of diffs)).
  { induction H as [|d r Hd Hrest IH]; [repeat constructor|].
    cbn [runs_of]. destruct (op_eqb (Type_ d) DiffEqual).
    - constructor; [constructor|exact IH].
    - destruct (runs_of r) as [|run runs]; [repeat constructor; exact Hd|].
      inversion IH; subst. constructor; [constructor; assumption|assumption]. }
  induction Hr as [|run runs Hrun _ IH]; [reflexivity|].
  cbn [map]. rewrite IH.
  rewrite (measured_ext m1 m2 DiffInsert run Hrun), (measured_ext m1 m2 DiffDelete run Hrun).
  reflexivity.
Qed.

(** X2. On payloads of bytes below 0x80 a byte is a codepoint, and
    [DiffLevenshtein] is the sum over the runs in codepoints. *)
Lemma DiffLevenshtein_runs_ascii diffs :
  Forall (fun d => ascii (Text d)) diffs ->
  DiffLevenshtein diffs = levenshtein_runs (fun s => len (runes s)) diffs.
Proof.
  intros H. rewrite DiffLevenshtein_runs_bytes. apply levenshtein_runs_ext.
  eapply Forall_impl; [|exact H]. cbv beta. intros d Hd.
  rewrite ascii_runes by exact Hd. reflexivity.
Qed.

Lemma wrap_int_small z : MinInt <= z <= MaxInt -> wrap_int z = z.
Proof.
  unfold MinInt, MaxInt, wrap_int. intros H.
  rewrite Z.mod_small; lia.
Qed.

Lemma delta_tokens_total s tokens :
  Forall (count_fits s) tokens ->
  forall diffs pointer, 0 <= pointer <= len (runes s) ->
    exists r, delta_tokens s tokens diffs pointer = Ok r
      /\ match r with
         | inr (_, p) => 0 <= p <= len (runes s)
         | inl _ => True
         end.
Proof.
  induction 1 as [|token rest Hfit _ IH]; intros diffs pointer Hp.
  - eexists. split; [reflexivity|]. exact Hp.
  - cbn [delta_tokens].
    destruct (Z.eqb_spec (len token) 0) as [E|E]; [apply IH; exact Hp|].
    pose proof (len_nonneg token).
    rewrite slice_chk_ok by lia. cbn [bind].
    destruct token as [|c tk]; [cbn in E; lia|].
    assert (Hi : index (c :: tk) 0 = Ok c).
    { unfold index. rewrite len_cons. pose proof (len_nonneg tk).
      destruct (Z.ltb_spec 0 (1 + len tk)); [reflexivity|lia]. }
    rewrite Hi. cbn [bind].
    destruct (c =? 43).
    { destruct (QueryUnescape _) as [param|]; [|eexists; split; [reflexivity|exact I]].
      destruct (negb (ValidString param)); [eexists; split; [reflexivity|exact I]|].
      apply IH. exact Hp. }
    destruct ((c =? 61) || (c =? 45)); [|eexists; split; [reflexivity|exact I]].
    destruct (ParseInt _) as [n|] eqn:En; [|eexists; split; [reflexivity|exact I]].
    destruct (Z.ltb_spec n 0) as [Hn|Hn]; [eexists; split; [reflexivity|exact I]|].
    cbv zeta.
    specialize (Hfit n En).
    rewrite wrap_int_small by (unfold MinInt, MaxInt in *; lia).
    destruct (Z.ltb_spec (len (runes s)) (pointer + n)) as [Ho|Ho];
      [eexists; split; [reflexivity|exact I]|].
    rewrite slice_chk_ok by lia. cbn [bind].
    destruct (c =? 61); apply IH; lia.
Qed.

(** X3. Where no count carries the cursor beyond the largest [int],
    [DiffFromDelta] returns, with or without an error. *)
Lemma DiffFromDelta_returns s delta :
  Forall (count_fits s) (Split_tab [] delta) ->
  exists r, DiffFromDelta s delta = Ok r.
Proof.
  intros H. unfold DiffFromDelta. cbv zeta.
  destruct (delta_tokens_total s _ H [] 0) as (r & E & _).
  { pose proof (len_nonneg (runes s)). lia. }
  rewrite E. cbn [bind].
  destruct r as [res|[diffs pointer]]; [eexists; reflexivity|].
  destruct (negb (pointer =? len (runes s))); eexists; reflexivity.
Qed.

(** ** Evaluations *)

(** The last loop of [DiffCleanupSemantic] on a deletion that the
    insertion after it ends with: the equality it inserts is
    [insertion[overlap_length2:]], here "bc\n", and not the overlap
    "abc\n"; the first text of the script was "abc\n" and is "bc\n"
    afterwards. *)
Lemma DiffCleanupSemantic_reverse_overlap_loses_text :
  DiffCleanupSemantic 4
    [mkDiff DiffDelete [97; 98; 99; 10];
     mkDiff DiffInsert [120; 121; 122; 97; 98; 99; 10]]
  = Ok [mkDiff DiffInsert [120; 121; 122];
        mkDiff DiffEqual [98; 99; 10];
        mkDiff DiffDelete []].
Proof. vm_compute. reflexivity. Qed.

(** C1, failing input: for the texts [linemode_text1] and
    [linemode_text2] and [checkLines = true], with the half-match
    speed-up on ([DiffTimeout = 1], the deadline never reached) or off
    ([DiffTimeout = 0]), [DiffMain] returns [linemode_script]; the first
    text of that script is [linemode_text1] without its first byte, and
    its second text is not [linemode_text2] either. *)
Theorem DiffMain_linemode_drops_byte :
  DiffMain 1 never 8 8 linemode_text1 linemode_text2 true = Ok linemode_script
  /\ DiffMain 0 never 8 8 linemode_text1 linemode_text2 true = Ok linemode_script
  /\ DiffText1 linemode_script = skipn 1 linemode_text1
  /\ streq (DiffText1 linemode_script) linemode_text1 = false
  /\ streq (DiffText2 linemode_script) linemode_text2 = false.
Proof. repeat split; vm_compute; reflexivity. Qed.

(** C2, failing inputs: [DiffBisect] panics on two empty strings, on "a"
    and the empty string, and on "a" and "b", whatever the configuration
    and the deadline: the arrays [v1] and [v2] have [2 * dmax] entries,
    which is at most two, and [v1[offset+1]] is out of range. *)
Theorem DiffBisect_panics_on_tiny_inputs :
  forall (DiffTimeout : Z) (expired : clock) (merge_fuel fuel : nat),
    DiffBisect DiffTimeout expired merge_fuel fuel [] [] = Panic
    /\ DiffBisect DiffTimeout expired merge_fuel fuel [97] [] = Panic
    /\ DiffBisect DiffTimeout expired merge_fuel fuel [97] [98] = Panic.
Proof. intros. repeat split. Qed.

(** C4, failing input: for the source "a" and the delta [overflow_delta]
    the sum [pointer+int(n)] wraps around, the test of the bound passes
    and the slice expression panics; no error is returned. *)
Theorem DiffFromDelta_overflow_panics :
  DiffFromDelta [97] overflow_delta = Panic
  /\ ParseInt [57; 50; 50; 51; 51; 55; 50; 48; 51; 54; 56; 53; 52; 55; 55; 53; 56; 48; 55]
     = Some MaxInt
  /\ wrap_int (1 + MaxInt) = MinInt.
Proof. repeat split; vm_compute; reflexivity. Qed.

(** C5, failing input: the insertion of the one codepoint U+00E9 counts
    as two, its length in bytes. *)
Theorem DiffLevenshtein_counts_bytes :
  DiffLevenshtein [mkDiff DiffInsert e_acute] = 2
  /\ runes e_acute = [0xE9]
  /\ ValidString e_acute = true.
Proof. repeat split. Qed.

(** C7, failing inputs: with a deadline that has expired, [diffBisect]
    panics on two empty strings and on "a" and "b" before it reads the
    clock. *)
Theorem diffBisect_expired_panics_on_tiny_inputs :
  forall (rec : list rune -> list rune -> bool -> nat -> result (list Diff * nat))
         (t : nat),
    diffBisect (fun _ => true) rec [] [] t = Panic
    /\ diffBisect (fun _ => true) rec [97] [98] t = Panic.
Proof. intros. split; reflexivity. Qed.

(** C8, failing input: for the deletion of U+00E9, "b" and the insertion
    of U+00E9, "c" the common prefix is one rune, and one byte is moved
    into the equality; a second run moves the other byte. *)
Theorem DiffCleanupMerge_not_idempotent :
  forall fuel : nat,
    DiffCleanupMerge_fuel (S fuel)
      [mkDiff DiffDelete (e_acute ++ [98]); mkDiff DiffInsert (e_acute ++ [99])]
    = Ok [mkDiff DiffEqual [0xC3]; mkDiff DiffDelete [0xA9; 98];
          mkDiff DiffInsert [0xA9; 99]]
    /\ DiffCleanupMerge_fuel (S fuel)
         [mkDiff DiffEqual [0xC3]; mkDiff DiffDelete [0xA9; 98];
          mkDiff DiffInsert [0xA9; 99]]
       = Ok [mkDiff DiffEqual e_acute; mkDiff DiffDelete [98];
             mkDiff DiffInsert [99]].
Proof. intros. split; reflexivity. Qed.

(** C9, failing input: for the deletion of "ab" and the insertion of "a"
    the common prefix "a" is factored out and the insertion stays in the
    script with an empty payload. *)
Theorem DiffCleanupMerge_leaves_empty_insert :
  forall fuel : nat,
    DiffCleanupMerge_fuel (S fuel)
      [mkDiff DiffDelete [97; 98]; mkDiff DiffInsert [97]]
    = Ok [mkDiff DiffEqual [97]; mkDiff DiffDelete [98]; mkDiff DiffInsert []].
Proof. intros. reflexivity. Qed.

(** * Further properties *)

(** ** Common prefix, suffix and overlap *)

(** ** Common prefix and suffix *)

Lemma cpl_longest (text1 text2 : list rune) :
  exists p t1 t2,
    text1 = p ++ t1 /\ text2 = p ++ t2
    /\ commonPrefixLength text1 text2 = len p
    /\ match t1, t2 with
       | r1 :: _, r2 :: _ => r1 <> r2
       | _, _ => True
       end.
Proof.
  revert text2. induction text1 as [|a l1 IH]; intros l2.
  - exists [], [], l2. destruct l2; repeat split; reflexivity.
  - destruct l2 as [|b l2].
    + exists [], (a :: l1), []. repeat split; reflexivity.
    + cbn [commonPrefixLength]. destruct (Z.eqb_spec a b) as [->|Hne].
      * destruct (IH l2) as (p & t1 & t2 & -> & -> & E & Hd).
        exists (b :: p), t1, t2. repeat split; [|exact Hd].
        rewrite E, len_cons. reflexivity.
      * exists [], (a :: l1), (b :: l2). repeat split. exact Hne.
Qed.

Lemma csl_longest (text1 text2 : list rune) :
  exists p t1 t2,
    text1 = t1 ++ p /\ text2 = t2 ++ p
    /\ commonSuffixLength text1 text2 = len p
    /\ match rev t1, rev t2 with
       | r1 :: _, r2 :: _ => r1 <> r2
       | _, _ => True
       end.
Proof.
  unfold commonSuffixLength.
  destruct (cpl_longest (rev text1) (rev text2))
    as (p & t1 & t2 & E1 & E2 & El & Hd).
  exists (rev p), (rev t1), (rev t2).
  apply (f_equal (@rev _)) in E1, E2. rewrite rev_involutive, rev_app_distr in E1, E2.
  rewrite !rev_involutive.
  repeat split; try assumption. rewrite El. unfold len. rewrite length_rev. reflexivity.
Qed.

(** X4. [commonPrefixLength] is the length of the longest common prefix:
    what follows it in the two slices does not start with the same
    rune. *)
Theorem commonPrefixLength_longest (text1 text2 : list rune) :
  exists p t1 t2,
    text1 = p ++ t1 /\ text2 = p ++ t2
    /\ commonPrefixLength text1 text2 = len p
    /\ match t1, t2 with
       | r1 :: _, r2 :: _ => r1 <> r2
       | _, _ => True
       end.
Proof. exact (cpl_longest text1 text2). Qed.

(** X5. [commonSuffixLength] is the length of the longest common suffix:
    what precedes it in the two slices does not end with the same
    rune. *)
Theorem commonSuffixLength_longest (text1 text2 : list rune) :
  exists p t1 t2,
    text1 = t1 ++ p /\ text2 = t2 ++ p
    /\ commonSuffixLength text1 text2 = len p
    /\ match rev t1, rev t2 with
       | r1 :: _, r2 :: _ => r1 <> r2
       | _, _ => True
       end.
Proof. exact (csl_longest text1 text2). Qed.

(** ** [strings.Index] *)

Lemma HasPrefix_spec (s p : gostring) : HasPrefix s p = true <-> exists r, s = p ++ r.
Proof.
  revert s. induction p as [|x p IH]; intros s; cbn [HasPrefix].
  - split; [intros _; exists s; reflexivity|intros _; destruct s; reflexivity].
  - destruct s as [|y s]; cbn [HasPrefix].
    + split; [discriminate|]. intros [r Hr]. discriminate.
    + rewrite andb_true_iff, Z.eqb_eq, IH. split.
      * intros [-> [r ->]]. exists r. reflexivity.
      * intros [r Hr]. injection Hr as -> ->. split; [reflexivity|exists r; reflexivity].
Qed.

(** [Index] finds the first occurrence, or there is none. *)
Lemma Index_spec (s pattern : gostring) :
  (Index s pattern = -1 /\ forall a, ~ occurs s pattern a)
  \/ (exists a, occurs s pattern a /\ Index s pattern = len a
                /\ forall a', occurs s pattern a' -> len a <= len a').
Proof.
  induction s as [|x s IH].
  - cbn [Index]. destruct (HasPrefix [] pattern) eqn:Hp.
    + right. exists []. apply HasPrefix_spec in Hp. destruct Hp as [r Hr].
      split; [exists r; exact Hr|]. split; [reflexivity|].
      intros a' _. apply len_nonneg.
    + left. split; [reflexivity|]. intros a [b Hb].
      destruct a; [|discriminate]. cbn [app] in Hb.
      assert (HasPrefix [] pattern = true) by (apply HasPrefix_spec; exists b; exact Hb).
      congruence.
  - cbn [Index]. destruct (HasPrefix (x :: s) pattern) eqn:Hp.
    + right. exists []. apply HasPrefix_spec in Hp. destruct Hp as [r Hr].
      split; [exists r; exact Hr|]. split; [reflexivity|].
      intros a' _. apply len_nonneg.
    + assert (Hno : ~ occurs (x :: s) pattern []).
      { intros [b Hb]. cbn [app] in Hb.
        assert (HasPrefix (x :: s) pattern = true) by (apply HasPrefix_spec; exists b; exact Hb).
        congruence. }
      destruct IH as [[E Hnone]|(a & Ha & E & Hmin)].
      * left. rewrite E. cbn. split; [reflexivity|].
        intros a' Ha'. destruct a' as [|y a']; [exact (Hno Ha')|].
        destruct Ha' as [b Hb]. cbn [app] in Hb. injection Hb as _ Hb.
        apply (Hnone a'). exists b. exact Hb.
      * right. exists (x :: a). rewrite E.
        pose proof (len_nonneg a).
        destruct (Z.eqb_spec (len a) (-1)); [lia|].
        split. { destruct Ha as [b Hb]. exists b. cbn [app]. rewrite Hb. reflexivity. }
        split. { rewrite len_cons. lia. }
        intros a' Ha'. destruct a' as [|y a']; [exfalso; exact (Hno Ha')|].
        destruct Ha' as [b Hb]. cbn [app] in Hb. injection Hb as _ Hb.
        rewrite !len_cons. assert (len a <= len a') by (apply Hmin; exists b; exact Hb). lia.
Qed.

(** ** [DiffCommonOverlap] *)

Lemma split_at {A} (s : list A) (k : Z) :
  0 <= k <= len s -> exists a b, s = a ++ b /\ len a = k.
Proof.
  intros H. exists (firstn (Z.to_nat k) s), (skipn (Z.to_nat k) s).
  split; [symmetry; apply firstn_skipn|].
  unfold len in *. rewrite length_firstn. lia.
Qed.

Lemma slice_chk_split_suffix {A} (s a b : list A) :
  s = a ++ b -> slice_chk s (len a) (len s) = Ok b.
Proof. intros ->. apply slice_chk_suffix; reflexivity. Qed.

Lemma slice_chk_split_prefix {A} (s a b : list A) :
  s = a ++ b -> slice_chk s 0 (len a) = Ok a.
Proof. intros ->. apply slice_chk_prefix; reflexivity. Qed.

(** An overlap that is at least as long as the suffix [pattern] of [t1]
    shows an occurrence of [pattern] in [t2]. *)
Lemma overlap_occurs (t1 t2 u0 pattern : gostring) (m : Z) :
  t1 = u0 ++ pattern -> overlaps t1 t2 m -> len pattern <= m ->
  exists a, occurs t2 pattern a /\ len a = m - len pattern.
Proof.
  intros E (u & w & v & E1 & E2 & Hm) Hle.
  rewrite E in E1. apply app_eq_app in E1.
  destruct E1 as [l [[Ea Eb]|[Ea Eb]]].
  - exists l. split; [exists v; rewrite E2, Eb, <- app_assoc; reflexivity|].
    rewrite Eb, len_app in Hm. lia.
  - (* the pattern is not shorter than the overlap *)
    rewrite Eb, len_app in Hle. assert (len l = 0) by (pose proof (len_nonneg l); lia).
    apply len_0 in H. subst l. cbn [app] in Eb.
    exists []. split; [exists v; rewrite E2, Eb; reflexivity|]. rewrite len_nil, Eb. lia.
Qed.

Lemma overlap_loop_spec (t1 t2 : gostring) (n : Z) :
  len t1 = n -> len t2 = n -> t1 <> t2 ->
  forall fuel best length,
    0 <= best < length -> length <= n ->
    overlaps t1 t2 best ->
    (forall m, overlaps t1 t2 m -> m <= best \/ length <= m) ->
    (Z.to_nat (n - length) < fuel)%nat ->
    exists k, overlap_loop fuel t1 t2 n best length = Ok k
      /\ overlaps t1 t2 k /\ forall m, overlaps t1 t2 m -> m <= k.
Proof.
  intros H1 H2 Hne.
  assert (Hfull : ~ overlaps t1 t2 n).
  { intros (u & w & v & E1 & E2 & Hw). apply Hne.
    assert (u = []).
    { apply len_0. rewrite E1, len_app in H1. lia. }
    assert (v = []).
    { apply len_0. rewrite E2, len_app in H2. lia. }
    subst u v. rewrite app_nil_r in E2. cbn [app] in E1. congruence. }
  induction fuel as [|fuel IH]; intros best L Hb HL Hov Hmax Hf; [lia|].
  cbn [overlap_loop].
  destruct (split_at t1 (n - L)) as (u0 & pattern & E & Hu0); [lia|].
  assert (Hpl : len pattern = L) by (rewrite E, len_app in H1; lia).
  replace (n - L) with (len u0) by lia.
  rewrite (slice_chk_split_suffix t1 u0 pattern E). cbn [bind].
  destruct (Index_spec t2 pattern) as [[Ei Hnone]|(a & Ha & Ei & Hmin)].
  - rewrite Ei. cbn [Z.eqb]. exists best. split; [reflexivity|]. split; [exact Hov|].
    intros m Hm. destruct (Hmax m Hm) as [|Hge]; [assumption|].
    destruct (overlap_occurs t1 t2 u0 pattern m E Hm) as (a & Ha & _); [lia|].
    exfalso. exact (Hnone a Ha).
  - rewrite Ei. pose proof (len_nonneg a) as Hna.
    destruct (Z.eqb_spec (len a) (-1)); [lia|].
    assert (HL' : L + len a <= n).
    { destruct Ha as [b Hb']. rewrite Hb', !len_app in H2. pose proof (len_nonneg b). lia. }
    assert (Hgap : forall m, overlaps t1 t2 m -> m <= best \/ L + len a <= m).
    { intros m Hm. destruct (Hmax m Hm) as [|Hge]; [left; assumption|]. right.
      destruct (overlap_occurs t1 t2 u0 pattern m E Hm) as (a' & Ha' & Hla'); [lia|].
      specialize (Hmin a' Ha'). lia. }
    cbv zeta.
    assert (Hnext : forall flag,
      (flag = true -> overlaps t1 t2 (L + len a)) ->
      (flag = false -> 1 <= len a) ->
      exists k,
        (if flag then overlap_loop fuel t1 t2 n (L + len a) (L + len a + 1)
         else overlap_loop fuel t1 t2 n best (L + len a)) = Ok k
        /\ overlaps t1 t2 k /\ forall m, overlaps t1 t2 m -> m <= k).
    { intros [|] Ht Hfl.
      - specialize (Ht eq_refl).
        assert (L + len a <> n) by (intros X; rewrite X in Ht; exact (Hfull Ht)).
        apply IH; [lia|lia|exact Ht| |lia].
        intros m Hm. destruct (Hgap m Hm); [left; lia|].
        destruct (Z.eq_dec m (L + len a)); [left; lia|right; lia].
      - specialize (Hfl eq_refl). apply IH; [lia|lia|exact Hov|exact Hgap|lia]. }
    destruct (Z.eqb_spec (len a) 0) as [Ez|Enz].
    + cbn [bind]. apply (Hnext true); [|discriminate]. intros _.
      apply len_0 in Ez. subst a. destruct Ha as [b Hb']. cbn [app] in Hb'.
      exists u0, pattern, b. rewrite len_nil. repeat split; try assumption. lia.
    + destruct (split_at t1 (n - (L + len a))) as (u1 & w1 & E1 & Hu1); [lia|].
      destruct (split_at t2 (L + len a)) as (w2 & v2 & E2 & Hw2); [lia|].
      assert (Hsa : slice_chk t1 (n - (L + len a)) (len t1) = Ok w1).
      { rewrite <- Hu1. apply slice_chk_split_suffix. exact E1. }
      assert (Hsb : slice_chk t2 0 (L + len a) = Ok w2).
      { rewrite <- Hw2. apply slice_chk_split_prefix with (b := v2). exact E2. }
      rewrite Hsa. cbn [bind]. rewrite Hsb. cbn [bind].
      apply Hnext; [|intros _; lia].
      intros Hs. apply streq_eq in Hs. subst w2.
      exists u1, w1, v2. repeat split; assumption.
Qed.

Lemma DiffCommonOverlap_spec (s1 s2 : gostring) :
  exists k, DiffCommonOverlap s1 s2 = Ok k
    /\ overlaps s1 s2 k
    /\ forall m, overlaps s1 s2 m -> m <= k.
Proof.
  unfold DiffCommonOverlap. cbv zeta.
  pose proof (len_nonneg s1) as N1. pose proof (len_nonneg s2) as N2.
  destruct ((len s1 =? 0) || (len s2 =? 0)) eqn:Hz.
  { exists 0. split; [reflexivity|]. split.
    - exists s1, [], s2. rewrite app_nil_r. repeat split.
    - intros m (u & w & v & E1 & E2 & Hw). pose proof (len_nonneg u). pose proof (len_nonneg v).
      rewrite E1, E2, !len_app in Hz. apply orb_true_iff in Hz.
      rewrite !Z.eqb_eq in Hz. lia. }
  apply orb_false_iff in Hz. rewrite !Z.eqb_neq in Hz. destruct Hz as [Z1 Z2].
  set (n := Z.min (len s1) (len s2)).
  assert (Hn : n = Z.min (len s1) (len s2)) by reflexivity. clearbody n.
  (* the truncated strings *)
  destruct (split_at s1 (len s1 - n)) as (c1 & t1 & E1 & Hc1); [lia|].
  destruct (split_at s2 n) as (t2 & c2 & E2 & Ht2); [lia|].
  assert (Ht1 : len t1 = n) by (rewrite E1, len_app in *; lia).
  assert (Hs1 : (if len s2 <? len s1 then slice_chk s1 (len s1 - len s2) (len s1) else Ok s1)
                = Ok t1).
  { destruct (Z.ltb_spec (len s2) (len s1)).
    - replace (len s1 - len s2) with (len c1) by lia.
      apply slice_chk_split_suffix. exact E1.
    - assert (c1 = []) by (apply len_0; lia). subst c1. rewrite E1. reflexivity. }
  assert (Hs2 : (if len s2 <? len s1 then Ok s2
                 else if len s1 <? len s2 then slice_chk s2 0 (len s1) else Ok s2)
                = Ok t2).
  { assert (Hc2 : len c2 = len s2 - n) by (rewrite E2, len_app in *; lia).
    destruct (Z.ltb_spec (len s2) (len s1)).
    - assert (c2 = []) by (apply len_0; lia). subst c2. rewrite E2, app_nil_r. reflexivity.
    - destruct (Z.ltb_spec (len s1) (len s2)).
      + replace (len s1) with (len t2) by lia.
        apply slice_chk_split_prefix with (b := c2). exact E2.
      + assert (c2 = []) by (apply len_0; lia). subst c2. rewrite E2, app_nil_r. reflexivity. }
  rewrite Hs1. cbn [bind]. rewrite Hs2. cbn [bind].
  (* overlaps of the strings and of the truncated strings *)
  assert (Hto : forall m, overlaps t1 t2 m -> overlaps s1 s2 m).
  { intros m (u & w & v & -> & -> & Hw).
    exists (c1 ++ u), w, (v ++ c2). rewrite E1, E2, <- !app_assoc. repeat split. exact Hw. }
  assert (Hfrom : forall m, overlaps s1 s2 m -> overlaps t1 t2 m).
  { intros m (u & w & v & F1 & F2 & Hw).
    assert (Hm : m <= n).
    { pose proof (len_nonneg u). pose proof (len_nonneg v).
      pose proof (f_equal (@len Z) F1) as L1. pose proof (f_equal (@len Z) F2) as L2.
      rewrite len_app in L1, L2. lia. }
    assert (X1 : exists l, t1 = l ++ w).
    { rewrite E1 in F1. apply app_eq_app in F1.
      destruct F1 as [l1 [[Fa Fb]|[Fa Fb]]]; [|exists l1; exact Fb].
      pose proof (f_equal (@len Z) Fb) as Lb. rewrite len_app in Lb.
      assert (len l1 = 0) by (pose proof (len_nonneg l1); lia).
      apply len_0 in H. subst l1. exists []. symmetry. exact Fb. }
    assert (X2 : exists l, t2 = w ++ l).
    { rewrite E2 in F2. symmetry in F2. apply app_eq_app in F2.
      destruct F2 as [l2 [[Fc Fd]|[Fc Fd]]]; [|exists l2; exact Fc].
      pose proof (f_equal (@len Z) Fc) as Lc. rewrite len_app in Lc.
      assert (len l2 = 0) by (pose proof (len_nonneg l2); lia).
      apply len_0 in H. subst l2. exists []. rewrite app_nil_r in *. symmetry. exact Fc. }
    destruct X1 as [l1 X1]. destruct X2 as [l2 X2].
    exists l1, w, l2. repeat split; assumption. }
  destruct (streq t1 t2) eqn:Hs.
  { apply streq_eq in Hs. exists n. split; [reflexivity|]. split.
    - apply Hto. exists [], t1, []. rewrite app_nil_r. repeat split; congruence.
    - intros m (u & w & v & F1 & F2 & Hw). pose proof (len_nonneg u). pose proof (len_nonneg v).
      pose proof (f_equal (@len Z) F1) as L1. pose proof (f_equal (@len Z) F2) as L2.
      rewrite len_app in L1, L2. lia. }
  apply streq_neq in Hs.
  destruct (overlap_loop_spec t1 t2 n Ht1 Ht2 Hs (2 * Z.to_nat n + 2) 0 1)
    as (k & Ek & Hk & Hmax).
  - lia.
  - lia.
  - exists t1, [], t2. rewrite app_nil_r. repeat split.
  - intros m (u & w & v & _ & _ & Hw). pose proof (len_nonneg w). lia.
  - lia.
  - exists k. split; [exact Ek|]. split; [apply Hto; exact Hk|].
    intros m Hm. apply Hmax, Hfrom, Hm.
Qed.

(** X6. [DiffCommonOverlap] returns, and what it returns is the length of
    the longest suffix of [s1] that is a prefix of [s2]. *)
Theorem DiffCommonOverlap_longest (s1 s2 : gostring) :
  exists k, DiffCommonOverlap s1 s2 = Ok k
    /\ overlaps s1 s2 k
    /\ forall m, overlaps s1 s2 m -> m <= k.
Proof. exact (DiffCommonOverlap_spec s1 s2). Qed.

(** ** Encoding runes *)

Lemma lor_80 x : Z.lor 0x80 (Z.land x 0x3F) = 0x80 + x mod 64.
Proof.
  change 0x3F with (2 ^ 6 - 1). rewrite land_ones_mod by lia. change (2 ^ 6) with 64.
  apply (lor_const_low 0x80 _ 6 2); [lia|reflexivity|].
  change (2 ^ 6) with 64. apply Z.mod_pos_bound. lia.
Qed.

(** [utf8.EncodeRune] writes the well-formed encoding of a scalar
    value. *)
Lemma chunk_encode r : scalar r -> chunk (encode_rune r) r.
Proof.
  intros Hs. unfold scalar in Hs. unfold encode_rune.
  destruct (Z.leb_spec 0 r); [|lia]. cbn [andb].
  destruct (Z.ltb_spec r 0x80).
  { apply chunk1. assumption. }
  destruct (Z.leb_spec 0x80 r); [|lia]. cbn [andb].
  rewrite !lor_80. rewrite !Z.shiftr_div_pow2 by lia.
  change (2 ^ 6) with 64. change (2 ^ 12) with 4096. change (2 ^ 18) with 262144.
  destruct (Z.ltb_spec r 0x800).
  { rewrite (lor_const_low 0xC0 (r / 64) 6 3);
      [|lia|reflexivity|change (2 ^ 6) with 64; Z.div_mod_to_equations; lia].
    pose proof (chunk2 (0xC0 + r / 64) (0x80 + r mod 64)) as C.
    replace (rune2 (0xC0 + r / 64) (0x80 + r mod 64)) with r in C
      by (unfold rune2; Z.div_mod_to_equations; lia).
    apply C; [|unfold cont]; Z.div_mod_to_equations; lia. }
  destruct (Z.leb_spec 0x800 r); [|lia]. cbn [andb].
  destruct (Z.ltb_spec r 0x10000); cbn [andb].
  { unfold between.
    destruct (Z.leb_spec 0xD800 r); destruct (Z.leb_spec r 0xDFFF); cbn [andb negb];
      try lia.
    all: rewrite (lor_const_low 0xE0 (r / 4096) 5 7);
      [|lia|reflexivity|change (2 ^ 5) with 32; Z.div_mod_to_equations; lia].
    all: pose proof (chunk3 (0xE0 + r / 4096) (0x80 + (r / 64) mod 64) (0x80 + r mod 64)) as C.
    all: replace (rune3 (0xE0 + r / 4096) (0x80 + (r / 64) mod 64) (0x80 + r mod 64))
        with r in C by (unfold rune3; Z.div_mod_to_equations; lia).
    all: apply C; [Z.div_mod_to_equations; lia| |unfold cont; Z.div_mod_to_equations; lia].
    all: unfold accept_lo, accept_hi, locb, hicb.
    all: destruct (Z.eqb_spec (0xE0 + r / 4096) 0xE0);
         destruct (Z.eqb_spec (0xE0 + r / 4096) 0xF0);
         destruct (Z.eqb_spec (0xE0 + r / 4096) 0xED);
         destruct (Z.eqb_spec (0xE0 + r / 4096) 0xF4);
         Z.div_mod_to_equations; lia. }
  destruct (Z.leb_spec 0x10000 r); [|lia]. cbn [andb].
  destruct (Z.leb_spec r 0x10FFFF); [|lia].
  rewrite (lor_const_low 0xF0 (r / 262144) 4 15);
    [|lia|reflexivity|change (2 ^ 4) with 16; Z.div_mod_to_equations; lia].
  pose proof (chunk4 (0xF0 + r / 262144) (0x80 + (r / 4096) mod 64)
                     (0x80 + (r / 64) mod 64) (0x80 + r mod 64)) as C.
  replace (rune4 (0xF0 + r / 262144) (0x80 + (r / 4096) mod 64)
                 (0x80 + (r / 64) mod 64) (0x80 + r mod 64))
    with r in C by (unfold rune4; Z.div_mod_to_equations; lia).
  apply C; [Z.div_mod_to_equations; lia| |unfold cont; Z.div_mod_to_equations; lia
            |unfold cont; Z.div_mod_to_equations; lia].
  unfold accept_lo, accept_hi, locb, hicb.
  destruct (Z.eqb_spec (0xF0 + r / 262144) 0xE0);
    destruct (Z.eqb_spec (0xF0 + r / 262144) 0xF0);
    destruct (Z.eqb_spec (0xF0 + r / 262144) 0xED);
    destruct (Z.eqb_spec (0xF0 + r / 262144) 0xF4);
    Z.div_mod_to_equations; lia.
Qed.

(** The rune of a well-formed encoding made of bytes is a scalar
    value. *)
Lemma chunk_scalar x r : chunk x r -> bytes x -> scalar r.
Proof.
  intros H Hb. unfold scalar.
  destruct H as [s0 H0|s0 s1 H0 H1|s0 s1 s2 H0 H1 H2|s0 s1 s2 s3 H0 H1 H2 H3].
  - apply Forall_inv in Hb. lia.
  - unfold rune2, cont in *. lia.
  - unfold rune3. accept_cases s0; lia.
  - unfold rune4. accept_cases s0; lia.
Qed.

(** Encoding what was decoded from well-formed UTF-8 gives the bytes
    back. *)
Lemma string_of_runes_valid s rs : valid s rs -> bytes s -> string_of_runes rs = s.
Proof.
  induction 1 as [|x r rest rs Hx Hrest IH]; intros Hb; [reflexivity|].
  apply Forall_app in Hb. destruct Hb as [Hbx Hbr].
  unfold string_of_runes in *. cbn [flat_map]. rewrite (IH Hbr). f_equal.
  apply (chunk_inj _ _ r); [|exact Hx].
  apply chunk_encode. eapply chunk_scalar; eassumption.
Qed.

Lemma string_of_runes_app a b :
  string_of_runes (a ++ b) = string_of_runes a ++ string_of_runes b.
Proof. unfold string_of_runes. apply flat_map_app. Qed.

(** ** [DiffFromDelta] on success *)

Lemma firstn_plus {A} (a b : nat) (l : list A) :
  firstn (a + b) l = firstn a l ++ firstn b (skipn a l).
Proof.
  revert l. induction a as [|a IH]; intros l; [reflexivity|].
  destruct l as [|x l]; [cbn; destruct b; reflexivity|].
  cbn [Nat.add firstn skipn app]. rewrite IH. reflexivity.
Qed.

Lemma DiffText1_snoc diffs d :
  DiffText1 (diffs ++ [d]) =
    DiffText1 diffs ++ (if op_eqb (Type_ d) DiffInsert then [] else Text d).
Proof.
  rewrite DiffText1_app. cbn [DiffText1].
  destruct d as [[] tx]; cbn [Type_ Text op_eqb negb]; rewrite ?app_nil_r; reflexivity.
Qed.

(** The loop keeps the first text of the script equal to the runes of
    the source before the cursor. *)
Lemma delta_tokens_text1 s tokens : forall diffs pointer diffs' pointer',
  0 <= pointer <= len (runes s) ->
  DiffText1 diffs = string_of_runes (slice (runes s) 0 pointer) ->
  delta_tokens s tokens diffs pointer = Ok (inr (diffs', pointer')) ->
  0 <= pointer' <= len (runes s)
  /\ DiffText1 diffs' = string_of_runes (slice (runes s) 0 pointer').
Proof.
  induction tokens as [|token rest IH]; intros diffs pointer diffs' pointer' Hp Ht H.
  - cbn [delta_tokens] in H. injection H as <- <-. split; assumption.
  - cbn [delta_tokens] in H.
    destruct (len token =? 0); [eapply IH; eassumption|].
    destruct (slice_chk token 1 (len token)) as [param| |]; cbn [bind] in H; try discriminate.
    destruct (index token 0) as [op| |]; cbn [bind] in H; try discriminate.
    destruct (op =? 43).
    { destruct (QueryUnescape _) as [param'|]; [|discriminate].
      destruct (negb (ValidString param')); [discriminate|].
      apply (fun a b => IH _ _ _ _ a b H); [exact Hp|].
      rewrite DiffText1_snoc. cbn [Type_ op_eqb]. rewrite app_nil_r. exact Ht. }
    destruct ((op =? 61) || (op =? 45)); [|discriminate].
    destruct (ParseInt param) as [n|]; [|discriminate].
    destruct (n <? 0); [discriminate|].
    cbv zeta in H.
    destruct (Z.ltb_spec (len (runes s)) (wrap_int (pointer + n))); [discriminate|].
    unfold slice_chk in H.
    destruct (Z.leb_spec 0 pointer); [|lia].
    destruct (Z.leb_spec pointer (wrap_int (pointer + n))); cbn [andb] in H;
      [|discriminate].
    destruct (Z.leb_spec (wrap_int (pointer + n)) (len (runes s))); cbn [andb] in H;
      [|discriminate].
    cbn [bind] in H.
    set (p' := wrap_int (pointer + n)) in *.
    assert (Hnew : forall ty, op_eqb ty DiffInsert = false ->
      DiffText1 (diffs ++ [mkDiff ty (string_of_runes (slice (runes s) pointer p'))])
      = string_of_runes (slice (runes s) 0 p')).
    { intros ty Hty. rewrite DiffText1_snoc. cbn [Type_ Text]. rewrite Hty, Ht.
      rewrite <- string_of_runes_app. f_equal.
      unfold slice. rewrite !Z.sub_0_r. cbn [Z.to_nat skipn].
      replace (Z.to_nat p') with (Z.to_nat pointer + Z.to_nat (p' - pointer))%nat by lia.
      rewrite firstn_plus. reflexivity. }
    destruct (op =? 61);
      (apply (fun a b => IH _ _ _ _ a b H); [lia|apply Hnew; reflexivity]).
Qed.

(** When [DiffFromDelta] returns without an error, the first text of the
    script is the source, decoded to runes and encoded again. *)
Lemma DiffFromDelta_text1_runes s delta diffs :
  DiffFromDelta s delta = Ok (diffs, None) ->
  DiffText1 diffs = string_of_runes (runes s).
Proof.
  unfold DiffFromDelta. cbv zeta.
  destruct (delta_tokens s (Split_tab [] delta) [] 0) as [[[ds e]|[ds p]]| |] eqn:E;
    cbn [bind]; try discriminate.
  - intros H. injection H as -> ->.
    (* a return from inside the loop carries an error *)
    exfalso. clear -E.
    revert E. generalize (@nil Diff) as acc, 0 as pointer.
    induction (Split_tab [] delta) as [|token rest IH]; intros acc pointer E;
      cbn [delta_tokens] in E; [discriminate|].
    destruct (len token =? 0); [eapply IH; eassumption|].
    destruct (slice_chk token 1 (len token)) as [param| |]; cbn [bind] in E; try discriminate.
    destruct (index token 0) as [op| |]; cbn [bind] in E; try discriminate.
    destruct (op =? 43).
    { destruct (QueryUnescape _) as [param'|]; [|discriminate].
      destruct (negb (ValidString param')); [discriminate|]. eapply IH; eassumption. }
    destruct ((op =? 61) || (op =? 45)); [|discriminate].
    destruct (ParseInt param) as [n|]; [|discriminate].
    destruct (n <? 0); [discriminate|].
    cbv zeta in E.
    destruct (len (runes s) <? wrap_int (pointer + n)); [discriminate|].
    destruct (slice_chk (runes s) pointer (wrap_int (pointer + n))); cbn [bind] in E;
      try discriminate.
    destruct (op =? 61); eapply IH; eassumption.
  - destruct (Z.eqb_spec p (len (runes s))) as [->|]; cbn [negb]; [|discriminate].
    intros H. injection H as ->.
    pose proof (len_nonneg (runes s)).
    destruct (delta_tokens_text1 s (Split_tab [] delta) [] 0 diffs (len (runes s)))
      as [_ Ht]; [lia|reflexivity|exact E|].
    rewrite Ht, slice_full. reflexivity.
Qed.

(** X7. When the source is well-formed UTF-8 and [DiffFromDelta] returns
    without an error, the first text of the script is the source. *)
Theorem DiffFromDelta_text1 s delta diffs :
  bytes s -> ValidString s = true ->
  DiffFromDelta s delta = Ok (diffs, None) ->
  DiffText1 diffs = s.
Proof.
  intros Hb Hv H. rewrite (DiffFromDelta_text1_runes s delta diffs H).
  apply ValidString_valid in Hv. destruct Hv as [rs Hrs].
  rewrite (runes_valid _ _ Hrs). apply string_of_runes_valid; assumption.
Qed.

(** The source "ab" and the delta "=1", TAB, "-1", TAB, "+c". *)
Lemma DiffFromDelta_text1_witness :
  DiffText1 [mkDiff DiffEqual [97]; mkDiff DiffDelete [98]; mkDiff DiffInsert [99]]
  = [97; 98].
Proof.
  apply (DiffFromDelta_text1 [97; 98] [61; 49; 9; 45; 49; 9; 43; 99]).
  - repeat constructor; lia.
  - reflexivity.
  - reflexivity.
Defined.

(** ** The scans of [DiffCleanupSemantic] and [diffCleanupEfficiency] end *)

Lemma count_eq_app a b : count_eq (a ++ b) = count_eq a + count_eq b.
Proof. induction a as [|d a IH]; cbn [app count_eq]; [reflexivity|]. rewrite IH. lia. Qed.

Lemma count_eq_bounds ds : 0 <= count_eq ds <= len ds.
Proof.
  induction ds as [|d ds IH]; cbn [count_eq]; [cbn; lia|].
  rewrite len_cons. destruct (op_eqb (Type_ d) DiffEqual); lia.
Qed.

Lemma slice_chk_len {A} (s x : list A) lo hi :
  slice_chk s lo hi = Ok x -> 0 <= lo /\ lo <= hi /\ hi <= len s /\ len x = hi - lo.
Proof.
  unfold slice_chk.
  destruct (Z.leb_spec 0 lo); [|discriminate].
  destruct (Z.leb_spec lo hi); [|discriminate].
  destruct (Z.leb_spec hi (len s)); [|discriminate]. cbn [andb].
  intros Hx. injection Hx as <-. repeat split; try assumption.
  unfold slice, len in *. rewrite length_firstn, length_skipn. lia.
Qed.

Lemma store_len {A} (s s' : list A) i v : store s i v = Ok s' -> len s' = len s.
Proof.
  unfold store.
  destruct (Z.leb_spec 0 i); [|discriminate].
  destruct (Z.ltb_spec i (len s)); [|discriminate]. cbn [andb].
  intros Hx. injection Hx as <-. unfold len in *.
  rewrite length_app, length_firstn.
  change (match s with [] => [] | _ :: l => skipn (Z.to_nat i) l end)
    with (skipn (S (Z.to_nat i)) s).
  cbn [length]. rewrite length_skipn. lia.
Qed.

(** A step that keeps the length of the script moves the cursor on by
    one. *)
Lemma sem_step_cursor st st' :
  sem_step st = Ok st' -> len (s_diffs st') = len (s_diffs st) ->
  s_pointer st' = s_pointer st + 1.
Proof.
  destruct st as [diffs changes equalities lastequality pointer li1 ld1 li2 ld2].
  unfold sem_step. cbn [s_diffs s_pointer].
  destruct (index diffs pointer) as [d| |]; cbn [bind]; try discriminate.
  destruct (op_eqb (Type_ d) DiffEqual).
  { intros H _. injection H as <-. reflexivity. }
  destruct (sem_eliminates _ _ _ _ _).
  2:{ intros H _. injection H as <-. reflexivity. }
  destruct (slice_chk diffs 0 (Peek equalities)) as [hd| |] eqn:Eh; cbn [bind];
    try discriminate.
  destruct (slice_chk diffs (Peek equalities) (len diffs)) as [tl| |] eqn:Et; cbn [bind];
    try discriminate.
  destruct (index _ _) as [d2| |]; cbn [bind]; try discriminate.
  destruct (store _ _ _) as [diffs'| |] eqn:Es; cbn [bind]; try discriminate.
  apply store_len in Es. apply slice_chk_len in Eh, Et.
  rewrite len_app, len_cons in Es.
  destruct (0 <? Len (Pop equalities)); intros H; injection H as <-;
    cbn [s_diffs]; intros Hl; lia.
Qed.

Lemma replaced_texts (hd tl : list Diff) e :
  DiffText1 (hd ++ [mkDiff DiffDelete e; mkDiff DiffInsert e] ++ tl)
    = DiffText1 (hd ++ [mkDiff DiffEqual e] ++ tl)
  /\ DiffText2 (hd ++ [mkDiff DiffDelete e; mkDiff DiffInsert e] ++ tl)
    = DiffText2 (hd ++ [mkDiff DiffEqual e] ++ tl).
Proof.
  rewrite !DiffText1_app, !DiffText2_app. cbn. rewrite ?app_nil_r. split; reflexivity.
Qed.

Lemma replaced_count (hd tl : list Diff) e :
  count_eq (hd ++ [mkDiff DiffDelete e; mkDiff DiffInsert e] ++ tl)
    = count_eq (hd ++ [mkDiff DiffEqual e] ++ tl) - 1
  /\ len (hd ++ [mkDiff DiffDelete e; mkDiff DiffInsert e] ++ tl)
    = len (hd ++ [mkDiff DiffEqual e] ++ tl) + 1.
Proof.
  rewrite !count_eq_app, !len_app. cbn [count_eq Type_ op_eqb].
  rewrite !len_cons, ?(@len_nil Diff). lia.
Qed.

Lemma sem_inv_cursor st : sem_inv st -> 0 <= s_pointer st <= len (s_diffs st).
Proof.
  intros (pre & es & rest & Hd & Hp & _). rewrite Hd, Hp, !len_app.
  pose proof (len_nonneg pre). pose proof (len_nonneg es). pose proof (len_nonneg rest). lia.
Qed.

Lemma sem_loop_ends (N : Z) : forall fuel st,
  sem_inv st ->
  len (s_diffs st) + count_eq (s_diffs st) = N ->
  count_eq (s_diffs st) * (N + 1) + (len (s_diffs st) - s_pointer st) < Z.of_nat fuel ->
  exists st', sem_loop fuel st = Ok st'
    /\ DiffText1 (s_diffs st') = DiffText1 (s_diffs st)
    /\ DiffText2 (s_diffs st') = DiffText2 (s_diffs st).
Proof.
  induction fuel as [|fuel IH]; intros st Hinv HN Hf.
  - pose proof (sem_inv_cursor st Hinv). pose proof (count_eq_bounds (s_diffs st)).
    pose proof (len_nonneg (s_diffs st)). nia.
  - cbn [sem_loop]. destruct (s_pointer st <? len (s_diffs st)) eqn:Hlt.
    2:{ exists st. repeat split. }
    destruct (sem_step_cases st Hinv Hlt) as (st1 & Es & Hinv1 & Hc).
    rewrite Es. cbn [bind]. apply Z.ltb_lt in Hlt.
    pose proof (count_eq_bounds (s_diffs st)) as Hce.
    destruct Hc as [Hsame|(pre & before & e & after & rest & Hd & Hd1 & _)].
    + pose proof (sem_step_cursor st st1 Es ltac:(rewrite Hsame; reflexivity)) as Hc1.
      destruct (IH st1 Hinv1) as (st' & El & T1 & T2).
      * rewrite Hsame. exact HN.
      * rewrite Hsame, Hc1. lia.
      * exists st'. rewrite <- Hsame. repeat split; assumption.
    + pose proof (sem_inv_cursor st1 Hinv1) as Hc1.
      assert (Hrc := replaced_count (pre ++ before) (after ++ rest) e).
      assert (Hrt := replaced_texts (pre ++ before) (after ++ rest) e).
      rewrite <- !app_assoc in Hrc, Hrt. rewrite <- Hd, <- Hd1 in Hrc, Hrt.
      destruct Hrc as [Hcnt Hlen]. destruct Hrt as [Ht1 Ht2].
      destruct (IH st1 Hinv1) as (st' & El & T1 & T2).
      * lia.
      * rewrite Hcnt, Hlen.
        replace ((count_eq (s_diffs st) - 1) * (N + 1))
          with (count_eq (s_diffs st) * (N + 1) - (N + 1)) by ring.
        pose proof (count_eq_bounds (s_diffs st1)). lia.
      * exists st'. rewrite T1, T2, Ht1, Ht2. repeat split; assumption.
Qed.

(** X8. The scan of [DiffCleanupSemantic] ends within the fuel it is given,
    without a panic, and the script it leaves has the two texts of the
    script it started from. *)
Theorem sem_loop_keeps_texts (diffs : list Diff) :
  exists st,
    sem_loop ((length diffs + 1) * (2 * length diffs + 2))
             (mkSem diffs false [] [] 0 0 0 0 0) = Ok st
    /\ DiffText1 (s_diffs st) = DiffText1 diffs
    /\ DiffText2 (s_diffs st) = DiffText2 diffs.
Proof.
  apply (sem_loop_ends (len diffs + count_eq diffs)).
  - apply (sem_reach_inv diffs). constructor.
  - reflexivity.
  - cbn [s_diffs s_pointer]. pose proof (count_eq_bounds diffs) as Hc.
    unfold len in *. rewrite Nat2Z.inj_mul, !Nat2Z.inj_add, Nat2Z.inj_mul.
    change (Z.of_nat 1) with 1. change (Z.of_nat 2) with 2.
    set (L := Z.of_nat (length diffs)) in *. set (E := count_eq diffs) in *.
    assert (E * (L + E + 1) <= L * (2 * L + 1)).
    { apply Z.mul_le_mono_nonneg; lia. }
    nia.
Qed.

(** ** The scan of [diffCleanupEfficiency] *)

Lemma index_in_range {A} (s : list A) i :
  0 <= i < len s -> exists a d b, s = a ++ d :: b /\ len a = i.
Proof.
  intros H. destruct (split_at s i) as (a & b & E & Ha); [lia|].
  destruct b as [|d b].
  - rewrite app_nil_r in E. subst a. lia.
  - exists a, d, b. split; assumption.
Qed.

Lemma Peek_bounds (L : Z) (st : Stack) :
  0 <= L -> Forall (fun q => 0 <= q < L) st -> -1 <= Peek st < L.
Proof.
  intros HL H. destruct H as [|q st Hq _]; cbn [Peek]; lia.
Qed.

Lemma Forall_Pop (P : Z -> Prop) (st : Stack) : Forall P st -> Forall P (Pop st).
Proof. intros H. destruct H; [constructor|assumption]. Qed.

Lemma eff_step_cases (editCost : Z) (st : eff_state) :
  eff_inv st -> e_i st < len (e_diffs st) ->
  exists st', eff_step editCost st = Ok st' /\ eff_inv st'
    /\ ((e_diffs st' = e_diffs st /\ e_i st' = e_i st + 1
         /\ e_changes st' = e_changes st)
        \/ exists hd e tl,
             e_diffs st = hd ++ [mkDiff DiffEqual e] ++ tl
             /\ e_diffs st' = hd ++ [mkDiff DiffDelete e; mkDiff DiffInsert e] ++ tl
             /\ e_changes st' = true).
Proof.
  destruct st as [diffs changes equalities lastequality i preIns preDel postIns postDel].
  unfold eff_inv, eff_live.
  cbn [e_diffs e_changes e_equalities e_lastequality e_i].
  intros (Hi & Hst & Hlive) Hlt.
  destruct (index_in_range diffs i) as (a & d & b & Ed & Ha); [lia|].
  assert (Hidx : index diffs i = Ok d).
  { rewrite Ed. apply index_app_mid. symmetry. exact Ha. }
  unfold eff_step. rewrite Hidx. cbn [bind].
  destruct (op_eqb (Type_ d) DiffEqual) eqn:Heq.
  - destruct ((len (Text d) <? editCost) && (postIns || postDel)).
    + eexists. split; [reflexivity|].
      cbn [e_diffs e_changes e_equalities e_lastequality e_i].
      split; [|left; repeat split].
      split; [lia|]. split.
      * unfold Push. constructor; [lia|assumption].
      * right. exists a, b, equalities. unfold Push. rewrite Ha. split; [|reflexivity].
        rewrite Ed. destruct d as [[] tx]; try discriminate. reflexivity.
    + eexists. split; [reflexivity|].
      cbn [e_diffs e_changes e_equalities e_lastequality e_i].
      split; [|left; repeat split].
      split; [lia|]. split; [constructor|]. left. reflexivity.
  - set (postDel' := if op_eqb (Type_ d) DiffDelete then true else postDel).
    set (postIns' := if op_eqb (Type_ d) DiffDelete then postIns else true).
    destruct (eff_eliminates editCost lastequality preIns preDel postIns' postDel') eqn:Hel.
    2:{ eexists. split; [reflexivity|].
        cbn [e_diffs e_changes e_equalities e_lastequality e_i].
        split; [|left; repeat split].
        split; [lia|]. split; assumption. }
    unfold eff_eliminates in Hel. apply andb_true_iff in Hel. destruct Hel as [Hpos _].
    apply Z.ltb_lt in Hpos.
    destruct Hlive as [Hnil|(hd & tl & stack' & Eh & Es)].
    { subst lastequality. cbn in Hpos. lia. }
    subst equalities. cbn [Peek Pop List.tl].
    assert (Hs1 : slice_chk diffs 0 (len hd) = Ok hd).
    { apply slice_chk_split_prefix with (b := mkDiff DiffEqual lastequality :: tl). exact Eh. }
    assert (Hs2 : slice_chk diffs (len hd) (len diffs)
                  = Ok (mkDiff DiffEqual lastequality :: tl)).
    { apply slice_chk_split_suffix. exact Eh. }
    rewrite Hs1. cbn [bind]. rewrite Hs2. cbn [bind].
    change (hd ++ mkDiff DiffDelete lastequality :: mkDiff DiffEqual lastequality :: tl)
      with (hd ++ [mkDiff DiffDelete lastequality] ++ mkDiff DiffEqual lastequality :: tl).
    rewrite (app_assoc hd).
    rewrite index_app_mid by (rewrite !len_app, len_cons, len_nil; lia).
    cbn [bind Text].
    rewrite store_app_mid by (rewrite !len_app, len_cons, len_nil; lia).
    cbn [bind].
    set (diffs' := (hd ++ [mkDiff DiffDelete lastequality]) ++
                    mkDiff DiffInsert lastequality :: tl).
    assert (Hshape : diffs' = hd ++ [mkDiff DiffDelete lastequality;
                                     mkDiff DiffInsert lastequality] ++ tl).
    { subst diffs'. rewrite <- app_assoc. reflexivity. }
    assert (Hlen : len diffs' = len diffs + 1).
    { rewrite Hshape, Eh, !len_app, !len_cons, (@len_nil Diff). lia. }
    assert (Hst' : Forall (fun q => 0 <= q < len diffs') stack').
    { apply Forall_inv_tail in Hst. eapply Forall_impl; [|exact Hst].
      cbv beta. intros q Hq. lia. }
    assert (Hout : exists hd0 e tl0,
              diffs = hd0 ++ [mkDiff DiffEqual e] ++ tl0
              /\ diffs' = hd0 ++ [mkDiff DiffDelete e; mkDiff DiffInsert e] ++ tl0
              /\ true = true).
    { exists hd, lastequality, tl. repeat split; assumption. }
    destruct (preIns && preDel).
    + eexists. split; [reflexivity|].
      cbn [e_diffs e_changes e_equalities e_lastequality e_i].
      split; [|right; exact Hout].
      split; [lia|]. split; [constructor|]. left. reflexivity.
    + assert (Hp : -1 <= Peek (Pop stack') < len diffs').
      { apply Peek_bounds; [lia|]. apply Forall_Pop. exact Hst'. }
      destruct (0 <? Len stack').
      * eexists. split; [reflexivity|].
        cbn [e_diffs e_changes e_equalities e_lastequality e_i].
        split; [|right; exact Hout].
        split; [lia|]. split; [apply Forall_Pop; exact Hst'|]. left. reflexivity.
      * eexists. split; [reflexivity|].
        cbn [e_diffs e_changes e_equalities e_lastequality e_i].
        split; [|right; exact Hout].
        split; [lia|]. split; [exact Hst'|]. left. reflexivity.
Qed.

Lemma eff_loop_ends (editCost N : Z) : forall fuel st,
  eff_inv st ->
  len (e_diffs st) + count_eq (e_diffs st) = N ->
  count_eq (e_diffs st) * (N + 1) + (len (e_diffs st) - e_i st) < Z.of_nat fuel ->
  exists st', eff_loop editCost fuel st = Ok st'
    /\ DiffText1 (e_diffs st') = DiffText1 (e_diffs st)
    /\ DiffText2 (e_diffs st') = DiffText2 (e_diffs st)
    /\ (e_changes st = true -> e_changes st' = true)
    /\ (e_changes st' = false -> e_diffs st' = e_diffs st).
Proof.
  induction fuel as [|fuel IH]; intros st Hinv HN Hf.
  - destruct Hinv as (Hi & _). pose proof (count_eq_bounds (e_diffs st)).
    pose proof (len_nonneg (e_diffs st)). nia.
  - cbn [eff_loop]. destruct (Z.ltb_spec (e_i st) (len (e_diffs st))) as [Hlt|Hge].
    2:{ exists st. repeat split; auto. }
    destruct (eff_step_cases editCost st Hinv Hlt) as (st1 & Es & Hinv1 & Hc).
    rewrite Es. cbn [bind].
    pose proof (count_eq_bounds (e_diffs st)) as Hce.
    destruct Hc as [(Hsame & Hi1 & Hch)|(hd & e & tl & Hd & Hd1 & Hch)].
    + destruct (IH st1 Hinv1) as (st' & El & T1 & T2 & C1 & C2).
      * rewrite Hsame. exact HN.
      * rewrite Hsame, Hi1. lia.
      * exists st'. rewrite <- Hsame, <- Hch. repeat split; assumption.
    + destruct Hinv1 as (Hi1 & Hrest1).
      assert (Hinv1 : eff_inv st1) by (split; assumption).
      destruct (replaced_count hd tl e) as [Hcnt Hlen].
      destruct (replaced_texts hd tl e) as [Ht1 Ht2].
      rewrite <- Hd, <- Hd1 in Hcnt, Hlen, Ht1, Ht2.
      destruct (IH st1 Hinv1) as (st' & El & T1 & T2 & C1 & C2).
      * lia.
      * rewrite Hcnt, Hlen.
        replace ((count_eq (e_diffs st) - 1) * (N + 1))
          with (count_eq (e_diffs st) * (N + 1) - (N + 1)) by ring.
        lia.
      * exists st'. rewrite T1, T2, Ht1, Ht2.
        split; [exact El|]. split; [reflexivity|]. split; [reflexivity|].
        split; [intros _; apply C1; exact Hch|].
        intros Hf'. rewrite (C1 Hch) in Hf'. discriminate.
Qed.

Lemma eff_fuel_enough (diffs : list Diff) :
  count_eq diffs * (len diffs + count_eq diffs + 1) + (len diffs - 0)
  < Z.of_nat ((length diffs + 1) * (2 * length diffs + 2)).
Proof.
  pose proof (count_eq_bounds diffs) as Hc.
  unfold len in *. rewrite Nat2Z.inj_mul, !Nat2Z.inj_add, Nat2Z.inj_mul.
  change (Z.of_nat 1) with 1. change (Z.of_nat 2) with 2.
  set (L := Z.of_nat (length diffs)) in *. set (E := count_eq diffs) in *.
  assert (E * (L + E + 1) <= L * (2 * L + 1)).
  { apply Z.mul_le_mono_nonneg; lia. }
  nia.
Qed.

(** X9. [diffCleanupEfficiency] gets through its scan without a panic and
    within the fuel: it returns the script as it is, or what
    [DiffCleanupMerge] makes of a script that has the same two texts. *)
Theorem diffCleanupEfficiency_scan_keeps_texts (merge_fuel : nat) (diffs : list Diff)
    (editCost : Z) :
  diffCleanupEfficiency merge_fuel diffs editCost = Ok diffs
  \/ exists diffs',
       DiffText1 diffs' = DiffText1 diffs /\ DiffText2 diffs' = DiffText2 diffs
       /\ diffCleanupEfficiency merge_fuel diffs editCost
          = DiffCleanupMerge_fuel merge_fuel diffs'.
Proof.
  unfold diffCleanupEfficiency.
  destruct (eff_loop_ends editCost (len diffs + count_eq diffs)
              ((length diffs + 1) * (2 * length diffs + 2))
              (mkEff diffs false [] [] 0 false false false false))
    as (st & El & T1 & T2 & _ & C2).
  - repeat split; cbn [e_i e_diffs e_equalities e_lastequality].
    + lia.
    + apply len_nonneg.
    + constructor.
    + left. reflexivity.
  - reflexivity.
  - apply eff_fuel_enough.
  - rewrite El. cbn [bind]. cbn [e_diffs] in *.
    destruct (e_changes st).
    + right. exists (e_diffs st). repeat split; assumption.
    + left. rewrite C2; reflexivity.
Qed.

Lemma eff_loop_idle (editCost : Z) (diffs : list Diff) :
  no_short_equality editCost diffs ->
  forall fuel changes equalities i preIns preDel postIns postDel,
    0 <= i <= len diffs -> len diffs - i <= Z.of_nat fuel ->
    exists st', eff_loop editCost fuel
                  (mkEff diffs changes equalities [] i preIns preDel postIns postDel) = Ok st'
      /\ e_diffs st' = diffs /\ e_changes st' = changes.
Proof.
  intros Hno. induction fuel as [|fuel IH];
    intros changes equalities i preIns preDel postIns postDel Hi Hf;
    cbn [eff_loop e_i e_diffs].
  - destruct (Z.ltb_spec i (len diffs)); [lia|]. eexists. repeat split.
  - destruct (Z.ltb_spec i (len diffs)) as [Hlt|]; [|eexists; repeat split].
    destruct (index_in_range diffs i) as (a & d & b & Ed & Ha); [lia|].
    assert (Hidx : index diffs i = Ok d).
    { rewrite Ed. apply index_app_mid. symmetry. exact Ha. }
    assert (Hd : op_eqb (Type_ d) DiffEqual = true -> editCost <= len (Text d)).
    { unfold no_short_equality in Hno. rewrite Forall_forall in Hno. apply Hno.
      rewrite Ed. apply in_or_app. right. left. reflexivity. }
    unfold eff_step. rewrite Hidx. cbn [bind].
    destruct (op_eqb (Type_ d) DiffEqual).
    + specialize (Hd eq_refl).
      destruct (Z.ltb_spec (len (Text d)) editCost); [lia|]. cbn [andb bind].
      apply IH; lia.
    + unfold eff_eliminates. cbn [len length Z.of_nat Z.ltb Z.compare andb bind].
      apply IH; lia.
Qed.

(** X10. When no equality of the script is shorter than the edit cost,
    [diffCleanupEfficiency] returns the script as it is. *)
Theorem diffCleanupEfficiency_no_short_equality (merge_fuel : nat) (diffs : list Diff)
    (editCost : Z) :
  no_short_equality editCost diffs ->
  diffCleanupEfficiency merge_fuel diffs editCost = Ok diffs.
Proof.
  intros Hno. unfold diffCleanupEfficiency.
  destruct (eff_loop_idle editCost diffs Hno
              ((length diffs + 1) * (2 * length diffs + 2))
              false [] 0 false false false false) as (st & El & Hd & Hc).
  - pose proof (len_nonneg diffs). lia.
  - unfold len. nia.
  - rewrite El. cbn [bind]. rewrite Hc, Hd. reflexivity.
Qed.

(** The script of the test "No elimination" with the edit cost 4. *)
Lemma diffCleanupEfficiency_no_short_equality_witness :
  diffCleanupEfficiency 1
    [mkDiff DiffDelete [97; 98]; mkDiff DiffInsert [49; 50];
     mkDiff DiffEqual [119; 120; 121; 122];
     mkDiff DiffDelete [99; 100]; mkDiff DiffInsert [51; 52]] 4
  = Ok [mkDiff DiffDelete [97; 98]; mkDiff DiffInsert [49; 50];
        mkDiff DiffEqual [119; 120; 121; 122];
        mkDiff DiffDelete [99; 100]; mkDiff DiffInsert [51; 52]].
Proof.
  apply diffCleanupEfficiency_no_short_equality.
  repeat constructor; cbn; intros; try discriminate; lia.
Defined.

(** ** [DiffXIndex] *)

Lemma len_DiffText1_cons d rest :
  len (DiffText1 (d :: rest)) =
    (if negb (op_eqb (Type_ d) DiffInsert) then len (Text d) else 0) + len (DiffText1 rest).
Proof.
  cbn [DiffText1]. destruct (negb (op_eqb (Type_ d) DiffInsert)); [apply len_app|lia].
Qed.

Lemma len_DiffText2_cons d rest :
  len (DiffText2 (d :: rest)) =
    (if negb (op_eqb (Type_ d) DiffDelete) then len (Text d) else 0) + len (DiffText2 rest).
Proof.
  cbn [DiffText2]. destruct (negb (op_eqb (Type_ d) DiffDelete)); [apply len_app|lia].
Qed.

Lemma xindex_loop_inside (pre : list Diff) (d : Diff) (rest : list Diff) (loc : Z) :
  forall c1 c2 l1 l2 last,
    c1 + len (DiffText1 pre) <= loc < c1 + len (DiffText1 (pre ++ [d])) ->
    (pre = [] -> l1 = c1 /\ l2 = c2) ->
    xindex_loop (pre ++ d :: rest) loc c1 c2 l1 l2 last
    = (c1 + len (DiffText1 pre), c2 + len (DiffText2 pre), d).
Proof.
  induction pre as [|x pre IH]; intros c1 c2 l1 l2 last H Hl.
  - destruct (Hl eq_refl) as [-> ->]. cbn [app xindex_loop].
    cbn [app] in H. rewrite len_DiffText1_cons in H. cbn [DiffText1 DiffText2] in *.
    rewrite (@len_nil Z) in *.
    destruct (negb (op_eqb (Type_ d) DiffInsert)).
    + destruct (Z.ltb_spec loc (c1 + len (Text d))); [|lia].
      rewrite !Z.add_0_r. reflexivity.
    + lia.
  - cbn [app xindex_loop]. cbn [app] in H.
    rewrite !len_DiffText1_cons in H. rewrite len_DiffText1_cons, len_DiffText2_cons.
    pose proof (len_nonneg (DiffText1 pre)). pose proof (len_nonneg (Text x)).
    set (c1' := if negb (op_eqb (Type_ x) DiffInsert) then c1 + len (Text x) else c1).
    set (c2' := if negb (op_eqb (Type_ x) DiffDelete) then c2 + len (Text x) else c2).
    assert (E1 : c1' = c1 + (if negb (op_eqb (Type_ x) DiffInsert) then len (Text x) else 0)).
    { subst c1'. destruct (op_eqb (Type_ x) DiffInsert); cbn [negb]; lia. }
    assert (E2 : c2' = c2 + (if negb (op_eqb (Type_ x) DiffDelete) then len (Text x) else 0)).
    { subst c2'. destruct (op_eqb (Type_ x) DiffDelete); cbn [negb]; lia. }
    destruct (Z.ltb_spec loc c1'); [lia|].
    rewrite IH; [|lia|intros _; split; reflexivity].
    rewrite E1, E2, !Z.add_assoc. reflexivity.
Qed.

(** X11. A location inside the entry [d] of a script: when [d] is a deletion
    [DiffXIndex] gives the place of the deletion in the second text,
    otherwise the location at the same distance from the start of [d]
    in the second text. *)
Theorem DiffXIndex_inside (zero : Operation) (pre : list Diff) (d : Diff)
    (rest : list Diff) (loc : Z) :
  len (DiffText1 pre) <= loc < len (DiffText1 (pre ++ [d])) ->
  DiffXIndex zero (pre ++ d :: rest) loc =
    if op_eqb (Type_ d) DiffDelete then len (DiffText2 pre)
    else len (DiffText2 pre) + (loc - len (DiffText1 pre)).
Proof.
  intros H. unfold DiffXIndex.
  rewrite (xindex_loop_inside pre d rest loc 0 0 0 0); [|lia|intros _; split; reflexivity].
  rewrite !Z.add_0_l. reflexivity.
Qed.

(** The test "Translation on equality". *)
Lemma DiffXIndex_inside_witness :
  DiffXIndex DiffEqual
    ([mkDiff DiffDelete [97]; mkDiff DiffInsert [49; 50; 51; 52]]
     ++ mkDiff DiffEqual [120; 121; 122] :: []) 2
  = 5.
Proof.
  apply (DiffXIndex_inside DiffEqual
           [mkDiff DiffDelete [97]; mkDiff DiffInsert [49; 50; 51; 52]]
           (mkDiff DiffEqual [120; 121; 122]) [] 2).
  cbn. lia.
Defined.

Lemma xindex_loop_beyond (diffs : list Diff) (loc : Z) :
  forall c1 c2 l1 l2 last,
    c1 + len (DiffText1 diffs) <= loc ->
    (diffs = [] -> l1 = c1 /\ l2 = c2) ->
    xindex_loop diffs loc c1 c2 l1 l2 last
    = (c1 + len (DiffText1 diffs), c2 + len (DiffText2 diffs), last).
Proof.
  induction diffs as [|x diffs IH]; intros c1 c2 l1 l2 last H Hl.
  - destruct (Hl eq_refl) as [-> ->]. cbn [xindex_loop DiffText1 DiffText2].
    rewrite (@len_nil Z), !Z.add_0_r. reflexivity.
  - cbn [xindex_loop]. rewrite len_DiffText1_cons in H.
    rewrite len_DiffText1_cons, len_DiffText2_cons.
    pose proof (len_nonneg (DiffText1 diffs)). pose proof (len_nonneg (Text x)).
    set (c1' := if negb (op_eqb (Type_ x) DiffInsert) then c1 + len (Text x) else c1).
    set (c2' := if negb (op_eqb (Type_ x) DiffDelete) then c2 + len (Text x) else c2).
    assert (E1 : c1' = c1 + (if negb (op_eqb (Type_ x) DiffInsert) then len (Text x) else 0)).
    { subst c1'. destruct (op_eqb (Type_ x) DiffInsert); cbn [negb]; lia. }
    assert (E2 : c2' = c2 + (if negb (op_eqb (Type_ x) DiffDelete) then len (Text x) else 0)).
    { subst c2'. destruct (op_eqb (Type_ x) DiffDelete); cbn [negb]; lia. }
    destruct (Z.ltb_spec loc c1'); [lia|].
    rewrite IH; [|lia|intros _; split; reflexivity].
    rewrite E1, E2, !Z.add_assoc. reflexivity.
Qed.

(** X12. A location at or beyond the end of the first text, and so far
    from the largest [int] that the length of the second text and the
    distance of the location from the end of the first give a sum
    within [int]: the loop runs to its end, and the result depends on
    the zero value of [Operation] only through the test
    [lastDiff.Type == DiffDelete]. *)
Theorem DiffXIndex_beyond (zero : Operation) (diffs : list Diff) (loc : Z) :
  len (DiffText1 diffs) <= loc <= MaxInt ->
  len (DiffText2 diffs) + (loc - len (DiffText1 diffs)) <= MaxInt ->
  DiffXIndex zero diffs loc =
    (if op_eqb zero DiffDelete then len (DiffText2 diffs)
     else len (DiffText2 diffs) + (loc - len (DiffText1 diffs)))
  /\ 0 <= DiffXIndex zero diffs loc <= MaxInt.
Proof.
  intros H Hsum. unfold DiffXIndex.
  rewrite (xindex_loop_beyond diffs loc 0 0 0 0); [|lia|intros _; split; reflexivity].
  rewrite !Z.add_0_l. cbn [Type_].
  pose proof (len_nonneg (DiffText2 diffs)).
  split; [reflexivity|]. destruct (op_eqb zero DiffDelete); lia.
Qed.

Lemma DiffXIndex_beyond_witness :
  DiffXIndex DiffEqual
    [mkDiff DiffEqual [97]; mkDiff DiffDelete [49; 50; 51; 52];
     mkDiff DiffEqual [120; 121; 122]] 9
  = 5
  /\ 0 <= DiffXIndex DiffEqual
            [mkDiff DiffEqual [97]; mkDiff DiffDelete [49; 50; 51; 52];
             mkDiff DiffEqual [120; 121; 122]] 9 <= MaxInt.
Proof.
  apply (DiffXIndex_beyond DiffEqual
           [mkDiff DiffEqual [97]; mkDiff DiffDelete [49; 50; 51; 52];
            mkDiff DiffEqual [120; 121; 122]] 9).
  - unfold MaxInt. cbn. lia.
  - unfold MaxInt. cbn. lia.
Defined.

(** ** [DiffLevenshtein] between bounds *)

Lemma ins_len_nonneg ds : 0 <= ins_len ds.
Proof.
  induction ds as [|d ds IH]; cbn [ins_len]; [lia|].
  pose proof (len_nonneg (Text d)). destruct (op_eqb (Type_ d) DiffInsert); lia.
Qed.

Lemma del_len_nonneg ds : 0 <= del_len ds.
Proof.
  induction ds as [|d ds IH]; cbn [del_len]; [lia|].
  pose proof (len_nonneg (Text d)). destruct (op_eqb (Type_ d) DiffDelete); lia.
Qed.

Lemma levenshtein_loop_bounds diffs : forall ret ins del,
  0 <= ins -> 0 <= del ->
  ret + Z.max (ins + ins_len diffs) (del + del_len diffs)
    <= levenshtein_loop diffs ret ins del
    <= ret + ins + del + ins_len diffs + del_len diffs.
Proof.
  induction diffs as [|d diffs IH]; intros ret ins del Hi Hd.
  - cbn [levenshtein_loop ins_len del_len]. lia.
  - cbn [levenshtein_loop ins_len del_len].
    pose proof (len_nonneg (Text d)).
    pose proof (ins_len_nonneg diffs). pose proof (del_len_nonneg diffs).
    destruct d as [[] tx]; cbn [Type_ Text op_eqb] in *.
    + specialize (IH ret ins (del + len tx) Hi ltac:(lia)). lia.
    + specialize (IH ret (ins + len tx) del ltac:(lia) Hd). lia.
    + specialize (IH (ret + Z.max ins del) 0 0 ltac:(lia) ltac:(lia)). lia.
Qed.

(** X13. [DiffLevenshtein] is at least the larger of the bytes inserted and
    the bytes deleted by the whole script, and at most their sum. *)
Theorem DiffLevenshtein_bounds (diffs : list Diff) :
  Z.max (ins_len diffs) (del_len diffs) <= DiffLevenshtein diffs
  /\ DiffLevenshtein diffs <= ins_len diffs + del_len diffs.
Proof.
  unfold DiffLevenshtein.
  pose proof (levenshtein_loop_bounds diffs 0 0 0 ltac:(lia) ltac:(lia)). lia.
Qed.

Lemma len_texts diffs :
  len (DiffText2 diffs) - len (DiffText1 diffs) = ins_len diffs - del_len diffs.
Proof.
  induction diffs as [|d diffs IH]; [reflexivity|].
  rewrite len_DiffText1_cons, len_DiffText2_cons. cbn [ins_len del_len].
  destruct d as [[] tx]; cbn [Type_ Text op_eqb negb]; lia.
Qed.

(** X14. [DiffLevenshtein] is at least the difference of the lengths of the
    two texts of the script. *)
Theorem DiffLevenshtein_length_difference (diffs : list Diff) :
  Z.abs (len (DiffText2 diffs) - len (DiffText1 diffs)) <= DiffLevenshtein diffs.
Proof.
  rewrite len_texts. unfold DiffLevenshtein.
  pose proof (levenshtein_loop_bounds diffs 0 0 0 ltac:(lia) ltac:(lia)).
  pose proof (ins_len_nonneg diffs). pose proof (del_len_nonneg diffs). lia.
Qed.

Lemma no_edits_texts diffs :
  ins_len diffs = 0 -> del_len diffs = 0 -> DiffText1 diffs = DiffText2 diffs.
Proof.
  induction diffs as [|d diffs IH]; [reflexivity|].
  cbn [ins_len del_len DiffText1 DiffText2].
  pose proof (len_nonneg (Text d)).
  pose proof (ins_len_nonneg diffs). pose proof (del_len_nonneg diffs).
  destruct d as [[] tx]; cbn [Type_ Text op_eqb negb] in *; intros Hi Hd.
  - assert (tx = []) by (apply len_0; lia). subst tx. cbn [app]. apply IH; lia.
  - assert (tx = []) by (apply len_0; lia). subst tx. cbn [app]. apply IH; lia.
  - f_equal. apply IH; lia.
Qed.

(** X15. A script whose [DiffLevenshtein] is zero has two equal texts. *)
Theorem DiffLevenshtein_zero (diffs : list Diff) :
  DiffLevenshtein diffs = 0 -> DiffText1 diffs = DiffText2 diffs.
Proof.
  unfold DiffLevenshtein. intros H.
  pose proof (levenshtein_loop_bounds diffs 0 0 0 ltac:(lia) ltac:(lia)).
  pose proof (ins_len_nonneg diffs). pose proof (del_len_nonneg diffs).
  apply no_edits_texts; lia.
Qed.

Lemma DiffLevenshtein_zero_witness :
  DiffText1 [mkDiff DiffEqual [97]; mkDiff DiffInsert []; mkDiff DiffEqual [98]]
  = DiffText2 [mkDiff DiffEqual [97]; mkDiff DiffInsert []; mkDiff DiffEqual [98]].
Proof.
  apply (DiffLevenshtein_zero
           [mkDiff DiffEqual [97]; mkDiff DiffInsert []; mkDiff DiffEqual [98]]).
  reflexivity.
Defined.

(** ** [DiffMain] on equal texts and on an empty text *)

Lemma runesEqual_refl rs : runesEqual rs rs = true.
Proof. induction rs as [|r rs IH]; [reflexivity|]. cbn. rewrite Z.eqb_refl. exact IH. Qed.

Lemma string_runes s : bytes s -> ValidString s = true -> string_of_runes (runes s) = s.
Proof.
  intros Hb Hv. apply ValidString_valid in Hv. destruct Hv as [rs Hrs].
  rewrite (runes_valid _ _ Hrs). apply string_of_runes_valid; assumption.
Qed.

(** X16. For two equal texts [DiffMain] returns the empty script when they
    are empty and the one equality of the text otherwise, whatever the
    configuration. *)
Theorem DiffMain_equal_texts (DiffTimeout : Z) (now_after : clock) (merge_fuel fuel : nat)
    (s : gostring) (checkLines : bool) :
  bytes s -> ValidString s = true ->
  DiffMain DiffTimeout now_after merge_fuel (S fuel) s s checkLines
  = Ok (match s with [] => [] | _ => [mkDiff DiffEqual s] end).
Proof.
  intros Hb Hv. unfold DiffMain. cbn [diffMainRunes]. unfold diffMainRunes_body.
  rewrite runesEqual_refl. cbn [bind].
  destruct s as [|b s]; [reflexivity|].
  assert (Hne : runes (b :: s) <> []) by (apply runes_nonempty; discriminate).
  destruct (Z.ltb_spec 0 (len (runes (b :: s)))) as [_|Hl].
  - rewrite string_runes by assumption. reflexivity.
  - exfalso. apply Hne. apply len_0. pose proof (len_nonneg (runes (b :: s))). lia.
Qed.

Lemma DiffMain_equal_texts_witness :
  DiffMain 1 (fun _ => false) 0 1 [97; 0xC3; 0xA9] [97; 0xC3; 0xA9] true
  = Ok [mkDiff DiffEqual [97; 0xC3; 0xA9]].
Proof.
  apply (DiffMain_equal_texts 1 (fun _ => false) 0 0 [97; 0xC3; 0xA9] true).
  - repeat constructor; lia.
  - reflexivity.
Defined.

Lemma runesEqual_nil_r rs : rs <> [] -> runesEqual rs [] = false.
Proof. destruct rs; [congruence|reflexivity]. Qed.

Lemma runesEqual_nil_l rs : rs <> [] -> runesEqual [] rs = false.
Proof. destruct rs; [congruence|reflexivity]. Qed.

Lemma cpl_nil_r rs : commonPrefixLength rs [] = 0.
Proof. destruct rs; reflexivity. Qed.

Lemma slice_chk_full {A} (s : list A) : slice_chk s 0 (len s) = Ok s.
Proof.
  rewrite slice_chk_ok; [rewrite slice_full; reflexivity|lia|apply len_nonneg|lia].
Qed.

Lemma slice_chk_00 {A} (s : list A) : slice_chk s 0 0 = Ok [].
Proof. rewrite slice_chk_ok; [reflexivity|lia|lia|apply len_nonneg]. Qed.

Lemma slice_chk_end {A} (s : list A) : slice_chk s (len s) (len s) = Ok [].
Proof.
  rewrite slice_chk_ok; [|apply len_nonneg|lia|lia].
  unfold slice. rewrite Z.sub_diag. reflexivity.
Qed.

Ltac trim_step :=
  rewrite ?(@len_nil Z), ?Z.sub_0_r, ?cpl_nil_r;
  first [rewrite slice_chk_00 | rewrite slice_chk_end | rewrite slice_chk_full];
  cbn [bind].

(** X17. When one of the two texts is empty and the other is not,
    [DiffMain] returns the insertion or the deletion of the other text,
    whatever the configuration. *)
Theorem DiffMain_empty_text (DiffTimeout : Z) (now_after : clock) (merge_fuel fuel : nat)
    (s : gostring) (checkLines : bool) :
  bytes s -> ValidString s = true -> s <> [] ->
  DiffMain DiffTimeout now_after (S merge_fuel) (S fuel) [] s checkLines
    = Ok [mkDiff DiffInsert s]
  /\ DiffMain DiffTimeout now_after (S merge_fuel) (S fuel) s [] checkLines
    = Ok [mkDiff DiffDelete s].
Proof.
  intros Hb Hv Hne.
  assert (Hr : runes s <> []) by (apply runes_nonempty; exact Hne).
  assert (Hl : (len (runes s) =? 0) = false).
  { apply Z.eqb_neq. intros E. apply Hr, len_0, E. }
  unfold DiffMain. cbn [diffMainRunes]. unfold diffMainRunes_body.
  change (runes []) with (@nil Z).
  split.
  - rewrite runesEqual_nil_l by exact Hr.
    unfold commonSuffixLength. cbn [rev commonPrefixLength].
    repeat trim_step.
    unfold diffCompute. rewrite (@len_nil Z).
    cbn [Z.eqb bind negb diffPrepend diffAppend].
    rewrite string_runes by assumption. reflexivity.
  - rewrite runesEqual_nil_r by exact Hr.
    unfold commonSuffixLength. cbn [rev].
    repeat trim_step.
    unfold diffCompute. rewrite Hl, (@len_nil Z).
    cbn [Z.eqb bind negb diffPrepend diffAppend].
    rewrite string_runes by assumption. reflexivity.
Qed.

Lemma DiffMain_empty_text_witness :
  DiffMain 0 (fun _ => false) 1 1 [] [97; 98] false = Ok [mkDiff DiffInsert [97; 98]]
  /\ DiffMain 0 (fun _ => false) 1 1 [97; 98] [] false = Ok [mkDiff DiffDelete [97; 98]].
Proof.
  apply (DiffMain_empty_text 0 (fun _ => false) 0 0 [97; 98] false).
  - repeat constructor; lia.
  - reflexivity.
  - discriminate.
Defined.

(** ** [diffBisect] and [DiffFromDelta]: the theorems at an input *)

Lemma diffBisect_expired_witness :
  diffBisect (fun _ => true) (fun _ _ _ _ => Panic) [97; 98] [99] 0%nat
  = Ok ([mkDiff DiffDelete [97; 98]; mkDiff DiffInsert [99]], 1%nat).
Proof.
  apply (diffBisect_expired (fun _ => true) (fun _ _ _ _ => Panic) [97; 98] [99] 0%nat).
  - cbn. lia.
  - reflexivity.
Defined.

Lemma DiffFromDelta_returns_witness :
  exists r, DiffFromDelta [97; 98] [61; 49; 9; 45; 49; 9; 43; 99] = Ok r.
Proof.
  apply (DiffFromDelta_returns [97; 98] [61; 49; 9; 45; 49; 9; 43; 99]).
  repeat constructor; intros n H; vm_compute in H; try discriminate;
    injection H as <-; vm_compute; discriminate.
Defined.

Lemma DiffLevenshtein_runs_ascii_witness :
  DiffLevenshtein [mkDiff DiffDelete [97; 98; 99]; mkDiff DiffEqual [120];
                   mkDiff DiffInsert [49; 50]]
  = levenshtein_runs (fun s => len (runes s))
      [mkDiff DiffDelete [97; 98; 99]; mkDiff DiffEqual [120];
       mkDiff DiffInsert [49; 50]].
Proof.
  apply DiffLevenshtein_runs_ascii.
  repeat constructor; lia.
Defined.

(** ** [DiffPrettyHtml] *)

(** The report of the test "Pretty print": the equality "a\n", the
    deletion of "<B>b</B>" and the insertion of "c&d". *)
Lemma DiffPrettyHtml_test :
  DiffPrettyHtml [mkDiff DiffEqual [97; 10];
                  mkDiff DiffDelete [60; 66; 62; 98; 60; 47; 66; 62];
                  mkDiff DiffInsert [99; 38; 100]]
  = [60; 115; 112; 97; 110; 62; 97; 38; 112; 97; 114; 97; 59; 60; 98; 114; 62; 60; 47;
     115; 112; 97; 110; 62; 60; 100; 101; 108; 32; 115; 116; 121; 108; 101; 61; 34; 98;
     97; 99; 107; 103; 114; 111; 117; 110; 100; 58; 35; 102; 102; 101; 54; 101; 54; 59;
     34; 62; 38; 108; 116; 59; 66; 38; 103; 116; 59; 98; 38; 108; 116; 59; 47; 66; 38;
     103; 116; 59; 60; 47; 100; 101; 108; 62; 60; 105; 110; 115; 32; 115; 116; 121; 108;
     101; 61; 34; 98; 97; 99; 107; 103; 114; 111; 117; 110; 100; 58; 35; 101; 54; 102;
     102; 101; 54; 59; 34; 62; 99; 38; 97; 109; 112; 59; 100; 60; 47; 105; 110; 115; 62].
Proof. reflexivity. Qed.

Lemma DiffPrettyHtml_app (a b : list Diff) :
  DiffPrettyHtml (a ++ b) = DiffPrettyHtml a ++ DiffPrettyHtml b.
Proof.
  induction a as [|d a IH]; [reflexivity|].
  cbn [app DiffPrettyHtml]. rewrite IH. rewrite <- !app_assoc. reflexivity.
Qed.

Lemma escaped_text (s : gostring) :
  Forall (fun c => c <> 10 /\ c <> 39) (Replace_newline (EscapeString s)).
Proof.
  unfold Replace_newline, EscapeString.
  induction s as [|c s IH]; [constructor|].
  cbn [flat_map]. rewrite flat_map_app. apply Forall_app. split; [|exact IH].
  unfold escape_byte.
  destruct (Z.eqb_spec c 38); [repeat constructor; lia|].
  destruct (Z.eqb_spec c 39); [repeat constructor; lia|].
  destruct (Z.eqb_spec c 60); [repeat constructor; lia|].
  destruct (Z.eqb_spec c 62); [repeat constructor; lia|].
  destruct (Z.eqb_spec c 34); [repeat constructor; lia|].
  cbn [flat_map app]. destruct (Z.eqb_spec c 10); repeat constructor; lia.
Qed.

(** X18. The report that [DiffPrettyHtml] writes holds no line feed and no
    apostrophe, whatever the payloads of the script hold. *)
Theorem DiffPrettyHtml_no_line_feed (diffs : list Diff) :
  Forall (fun c => c <> 10 /\ c <> 39) (DiffPrettyHtml diffs).
Proof.
  induction diffs as [|d diffs IH]; [constructor|].
  cbn [DiffPrettyHtml]. apply Forall_app. split; [|exact IH].
  pose proof (escaped_text (Text d)) as He.
  destruct (Type_ d); repeat (apply Forall_app; split);
    try exact He; repeat constructor; lia.
Qed.

(** ** [DiffCommonPrefix] and [DiffCommonSuffix] as byte counts *)

Lemma firstn_app_le {A} (n : nat) (a b : list A) :
  (n <= length a)%nat -> firstn n (a ++ b) = firstn n a.
Proof.
  intros H. rewrite firstn_app. replace (n - length a)%nat with 0%nat by lia.
  cbn [firstn]. apply app_nil_r.
Qed.

(** X19. The callers of [DiffCommonPrefix] slice the strings at the number
    it returns, which counts runes: on well-formed UTF-8 that many
    leading bytes of the two strings are the same. *)
Theorem DiffCommonPrefix_bytes (s1 s2 : gostring) :
  ValidString s1 = true -> ValidString s2 = true ->
  0 <= DiffCommonPrefix s1 s2 <= Z.min (len s1) (len s2)
  /\ slice s1 0 (DiffCommonPrefix s1 s2) = slice s2 0 (DiffCommonPrefix s1 s2).
Proof.
  intros H1 H2. apply ValidString_valid in H1, H2.
  destruct H1 as [r1 H1]. destruct H2 as [r2 H2]. unfold DiffCommonPrefix.
  rewrite (runes_valid _ _ H1), (runes_valid _ _ H2).
  destruct (cpl_longest r1 r2) as (p & t1 & t2 & E1 & E2 & El & _).
  rewrite El. subst r1 r2.
  destruct (valid_split _ _ _ H1) as (a & c1 & -> & Ha & _).
  destruct (valid_split _ _ _ H2) as (a' & c2 & -> & Ha' & _).
  assert (a' = a) by (eapply valid_inj; eassumption). subst a'.
  pose proof (valid_len _ _ Ha) as Hl. pose proof (len_nonneg p).
  rewrite !len_app. pose proof (len_nonneg c1). pose proof (len_nonneg c2).
  split; [lia|].
  rewrite !slice_0. rewrite !firstn_app_le by (unfold len in *; lia). reflexivity.
Qed.

Lemma DiffCommonPrefix_bytes_witness :
  0 <= DiffCommonPrefix [0xC3; 0xA9; 98] [0xC3; 0xA9; 99]
    <= Z.min (len [0xC3; 0xA9; 98]) (len [0xC3; 0xA9; 99])
  /\ slice [0xC3; 0xA9; 98] 0 (DiffCommonPrefix [0xC3; 0xA9; 98] [0xC3; 0xA9; 99])
     = slice [0xC3; 0xA9; 99] 0 (DiffCommonPrefix [0xC3; 0xA9; 98] [0xC3; 0xA9; 99]).
Proof.
  apply (DiffCommonPrefix_bytes [0xC3; 0xA9; 98] [0xC3; 0xA9; 99]); reflexivity.
Defined.

Lemma skipn_app_ge {A} (n : nat) (a b : list A) :
  (length a <= n)%nat -> skipn n (a ++ b) = skipn (n - length a) b.
Proof.
  intros H. rewrite skipn_app. rewrite skipn_all2 by exact H. reflexivity.
Qed.

(** X20. The number that [DiffCommonSuffix] returns counts runes as well: on
    well-formed UTF-8 it is at most the length in bytes of either
    string, and that many trailing bytes of the two strings are the
    same. *)
Theorem DiffCommonSuffix_bytes (s1 s2 : gostring) :
  ValidString s1 = true -> ValidString s2 = true ->
  0 <= DiffCommonSuffix s1 s2 <= Z.min (len s1) (len s2)
  /\ slice s1 (len s1 - DiffCommonSuffix s1 s2) (len s1)
     = slice s2 (len s2 - DiffCommonSuffix s1 s2) (len s2).
Proof.
  intros H1 H2. apply ValidString_valid in H1, H2.
  destruct H1 as [r1 H1]. destruct H2 as [r2 H2]. unfold DiffCommonSuffix.
  rewrite (runes_valid _ _ H1), (runes_valid _ _ H2).
  destruct (csl_longest r1 r2) as (p & t1 & t2 & E1 & E2 & El & _).
  rewrite El. subst r1 r2.
  destruct (valid_split _ _ _ H1) as (c1 & a & -> & _ & Ha).
  destruct (valid_split _ _ _ H2) as (c2 & a' & -> & _ & Ha').
  assert (a' = a) by (eapply valid_inj; eassumption). subst a'.
  pose proof (valid_len _ _ Ha) as Hl. pose proof (len_nonneg p).
  rewrite !len_app. pose proof (len_nonneg c1). pose proof (len_nonneg c2).
  split; [lia|].
  pose proof (len_nonneg a).
  rewrite <- !len_app. rewrite !slice_to_end by (rewrite !len_app; lia).
  rewrite !len_app.
  rewrite !skipn_app_ge by (unfold len in *; lia).
  f_equal. unfold len in *. lia.
Qed.

Lemma DiffCommonSuffix_bytes_witness :
  0 <= DiffCommonSuffix [98; 0xC3; 0xA9] [99; 0xC3; 0xA9]
    <= Z.min (len [98; 0xC3; 0xA9]) (len [99; 0xC3; 0xA9])
  /\ slice [98; 0xC3; 0xA9]
           (len [98; 0xC3; 0xA9] - DiffCommonSuffix [98; 0xC3; 0xA9] [99; 0xC3; 0xA9])
           (len [98; 0xC3; 0xA9])
     = slice [99; 0xC3; 0xA9]
           (len [99; 0xC3; 0xA9] - DiffCommonSuffix [98; 0xC3; 0xA9] [99; 0xC3; 0xA9])
           (len [99; 0xC3; 0xA9]).
Proof.
  apply (DiffCommonSuffix_bytes [98; 0xC3; 0xA9] [99; 0xC3; 0xA9]); reflexivity.
Defined.

(** ** The last loop of [DiffCleanupSemantic] *)

(** X21. On a deletion and the insertion after it, when the overlap of the
    end of the deletion with the start of the insertion is not the
    shorter one, the step of the last loop of [DiffCleanupSemantic]
    keeps the two texts of the script. *)
Theorem overlap_step_forward (pre rest : list Diff) (deletion insertion : gostring)
    (k1 k2 : Z) :
  DiffCommonOverlap deletion insertion = Ok k1 ->
  DiffCommonOverlap insertion deletion = Ok k2 ->
  k2 <= k1 ->
  exists diffs' pointer',
    overlap_step (pre ++ [mkDiff DiffDelete deletion; mkDiff DiffInsert insertion] ++ rest)
                 (len pre + 1) = Ok (diffs', pointer')
    /\ DiffText1 diffs'
       = DiffText1 (pre ++ [mkDiff DiffDelete deletion; mkDiff DiffInsert insertion] ++ rest)
    /\ DiffText2 diffs'
       = DiffText2 (pre ++ [mkDiff DiffDelete deletion; mkDiff DiffInsert insertion] ++ rest).
Proof.
  intros E1 E2 Hk.
  destruct (DiffCommonOverlap_spec deletion insertion) as (k & Ek & Hov & _).
  rewrite E1 in Ek. injection Ek as <-.
  destruct Hov as (u & w & v & Ed & Ei & Hw).
  unfold overlap_step. cbn [app].
  replace (len pre + 1 - 1) with (len pre) by lia.
  rewrite index_app_mid by reflexivity. cbn [bind Type_ op_eqb].
  change (pre ++ mkDiff DiffDelete deletion :: mkDiff DiffInsert insertion :: rest)
    with (pre ++ [mkDiff DiffDelete deletion] ++ mkDiff DiffInsert insertion :: rest).
  rewrite (app_assoc pre).
  rewrite index_app_mid by (rewrite len_app, len_cons, (@len_nil Diff); lia).
  cbn [bind Type_ Text op_eqb andb].
  rewrite E1, E2. cbn [bind].
  destruct (Z.leb_spec k2 k1); [|lia].
  destruct ((len deletion <=? 2 * k1) || (len insertion <=? 2 * k1)).
  2:{ eexists _, _. repeat split. }
  assert (Hs1 : slice_chk insertion 0 k1 = Ok w).
  { rewrite <- Hw. apply slice_chk_split_prefix with (b := v). exact Ei. }
  assert (Hs2 : slice_chk deletion 0 (len deletion - k1) = Ok u).
  { replace (len deletion - k1) with (len u) by (rewrite Ed, len_app; lia).
    apply slice_chk_split_prefix with (b := w). exact Ed. }
  assert (Hs3 : slice_chk insertion k1 (len insertion) = Ok v).
  { rewrite <- Hw. apply slice_chk_split_suffix. exact Ei. }
  rewrite Hs1. cbn [bind].
  rewrite slice_chk_prefix by (rewrite len_app, len_cons, (@len_nil Diff); lia).
  cbn [bind].
  rewrite slice_chk_suffix
    by (rewrite ?len_app, ?len_cons, ?(@len_nil Diff); try reflexivity; lia).
  cbn [bind]. rewrite Hs2. cbn [bind].
  rewrite <- (app_assoc pre). cbn [app].
  replace (len pre + 1 - 1) with (len pre) by lia.
  rewrite set_text_app_mid by reflexivity. cbn [bind Type_].
  rewrite Hs3. cbn [bind].
  change (pre ++ mkDiff DiffDelete u :: mkDiff DiffEqual w
              :: mkDiff DiffInsert insertion :: rest)
    with (pre ++ [mkDiff DiffDelete u; mkDiff DiffEqual w]
              ++ mkDiff DiffInsert insertion :: rest).
  rewrite (app_assoc pre).
  rewrite set_text_app_mid by (rewrite len_app, !len_cons, (@len_nil Diff); lia).
  cbn [bind Type_].
  eexists _, _. split; [reflexivity|].
  rewrite !DiffText1_app, !DiffText2_app. cbn [DiffText1 DiffText2 Type_ Text op_eqb negb].
  rewrite Ed, Ei, <- ?app_assoc. cbn [app]. rewrite <- ?app_assoc. split; reflexivity.
Qed.

(** The test "Overlap elimination": the deletion of "abcxxx" and the
    insertion of "xxxdef". *)
Lemma overlap_step_forward_witness :
  exists diffs' pointer',
    overlap_step ([] ++ [mkDiff DiffDelete [97; 98; 99; 120; 120; 120];
                         mkDiff DiffInsert [120; 120; 120; 100; 101; 102]] ++ [])
                 (len (@nil Diff) + 1) = Ok (diffs', pointer')
    /\ DiffText1 diffs'
       = DiffText1 ([] ++ [mkDiff DiffDelete [97; 98; 99; 120; 120; 120];
                           mkDiff DiffInsert [120; 120; 120; 100; 101; 102]] ++ [])
    /\ DiffText2 diffs'
       = DiffText2 ([] ++ [mkDiff DiffDelete [97; 98; 99; 120; 120; 120];
                           mkDiff DiffInsert [120; 120; 120; 100; 101; 102]] ++ []).
Proof.
  apply (overlap_step_forward [] [] [97; 98; 99; 120; 120; 120]
           [120; 120; 120; 100; 101; 102] 3 0).
  - reflexivity.
  - reflexivity.
  - lia.
Defined.

(** ** The second pass of [DiffCleanupMerge] *)

Lemma HasSuffix_spec (s p : gostring) : HasSuffix s p = true <-> exists r, s = r ++ p.
Proof.
  unfold HasSuffix. rewrite HasPrefix_spec. split.
  - intros [r E]. exists (rev r). apply (f_equal (@rev Z)) in E.
    rewrite rev_involutive, rev_app_distr, rev_involutive in E. exact E.
  - intros [r ->]. exists (rev r). apply rev_app_distr.
Qed.

Lemma weight_app a b : weight (a ++ b) = weight a + weight b.
Proof. unfold weight. rewrite len_app, ins_len_app, del_len_app. lia. Qed.

Lemma ascii_app a b : ascii (a ++ b) <-> ascii a /\ ascii b.
Proof. apply Forall_app. Qed.

Lemma weight_nonneg ds : 0 <= weight ds.
Proof.
  unfold weight. pose proof (len_nonneg ds). pose proof (ins_len_nonneg ds).
  pose proof (del_len_nonneg ds). lia.
Qed.

Lemma shift_step_cases (pre : list Diff) p e n post i changes :
  i = len pre + 1 ->
  shift_step (pre ++ p :: e :: n :: post) i changes = Ok (pre ++ p :: e :: n :: post, changes)
  \/ (Type_ p = DiffEqual /\ Type_ n = DiffEqual
      /\ exists mid, shifted p e n mid
         /\ shift_step (pre ++ p :: e :: n :: post) i changes = Ok (pre ++ mid ++ post, true)).
Proof.
  intros ->. unfold shift_step.
  replace (len pre + 1 - 1) with (len pre) by lia.
  rewrite (index_app_mid pre p (e :: n :: post)) by reflexivity. cbn [bind].
  assert (Hn : index (pre ++ p :: e :: n :: post) (len pre + 1 + 1) = Ok n).
  { change (pre ++ p :: e :: n :: post) with (pre ++ [p; e] ++ n :: post).
    rewrite app_assoc. apply index_app_mid. rewrite len_app. cbn. lia. }
  assert (He : index (pre ++ p :: e :: n :: post) (len pre + 1) = Ok e).
  { change (pre ++ p :: e :: n :: post) with (pre ++ [p] ++ e :: n :: post).
    rewrite app_assoc. apply index_app_mid. rewrite len_app. cbn. lia. }
  destruct p as [tp p], n as [tn n], e as [te e]. cbn [Type_ Text] in *.
  destruct tp; cbn [op_eqb andb bind]; try (left; reflexivity).
  rewrite Hn. cbn [bind Type_].
  destruct tn; cbn [op_eqb andb bind]; try (left; reflexivity).
  rewrite He. cbn [bind Text Type_].
  destruct (HasSuffix e p) eqn:Hs.
  - right. split; [reflexivity|]. split; [reflexivity|].
    apply HasSuffix_spec in Hs. destruct Hs as [x ->].
    eexists. split; [apply (shifted_left _ _ _ x); reflexivity|].
    rewrite len_app. replace (len x + len p - len p) with (len x) by lia.
    rewrite (slice_chk_prefix x p) by reflexivity. cbn [bind].
    change (pre ++ mkDiff DiffEqual p :: mkDiff te (x ++ p) :: mkDiff DiffEqual n :: post)
      with (pre ++ [mkDiff DiffEqual p] ++ mkDiff te (x ++ p) :: mkDiff DiffEqual n :: post).
    rewrite app_assoc.
    rewrite set_text_app_mid by (rewrite len_app; cbn; lia). cbn [bind Type_].
    change ((pre ++ [mkDiff DiffEqual p]) ++ mkDiff te (p ++ x) :: mkDiff DiffEqual n :: post)
      with ((pre ++ [mkDiff DiffEqual p]) ++ [mkDiff te (p ++ x)] ++ mkDiff DiffEqual n :: post).
    rewrite app_assoc.
    rewrite set_text_app_mid by (rewrite !len_app; cbn; lia). cbn [bind Type_].
    rewrite <- !app_assoc. cbn [app].
    replace (len pre + 1 - 1) with (len pre) by lia.
    rewrite splice_remove_one by reflexivity. reflexivity.
  - destruct (HasPrefix e n) eqn:Hp; [|left; reflexivity].
    right. split; [reflexivity|]. split; [reflexivity|].
    apply HasPrefix_spec in Hp. destruct Hp as [y ->].
    eexists. split; [apply (shifted_right _ _ _ y); reflexivity|].
    cbn [Text Type_].
    rewrite set_text_app_mid by reflexivity. cbn [bind Type_].
    rewrite (slice_chk_suffix n y) by reflexivity. cbn [bind].
    change (pre ++ mkDiff DiffEqual (p ++ n) :: mkDiff te (n ++ y) :: mkDiff DiffEqual n :: post)
      with (pre ++ [mkDiff DiffEqual (p ++ n)] ++ mkDiff te (n ++ y) :: mkDiff DiffEqual n :: post).
    rewrite app_assoc.
    rewrite set_text_app_mid by (rewrite len_app; cbn; lia). cbn [bind Type_].
    rewrite <- app_assoc. cbn [app].
    change (pre ++ mkDiff DiffEqual (p ++ n) :: mkDiff te (y ++ n) :: mkDiff DiffEqual n :: post)
      with (pre ++ [mkDiff DiffEqual (p ++ n); mkDiff te (y ++ n)] ++ mkDiff DiffEqual n :: post).
    rewrite app_assoc.
    rewrite splice_remove_one by (rewrite len_app; cbn; lia).
    rewrite <- app_assoc. reflexivity.
Qed.

(** A shift keeps the two texts and the payloads below 0x80, and takes
    one entry and no byte of an edit away. *)
Lemma shifted_keeps p e n mid :
  Type_ p = DiffEqual -> Type_ n = DiffEqual -> shifted p e n mid ->
  DiffText1 mid = DiffText1 [p; e; n]
  /\ DiffText2 mid = DiffText2 [p; e; n]
  /\ (ascii_payloads [p; e; n] -> ascii_payloads mid)
  /\ weight mid = weight [p; e; n] - 1.
Proof.
  destruct p as [tp p], n as [tn n], e as [te e]. cbn [Type_ Text].
  intros -> -> H. inversion H as [x E|y E]; cbn [Type_ Text] in *; subst e.
  - repeat split.
    + destruct te; cbn; rewrite ?app_nil_r, <- ?app_assoc; reflexivity.
    + destruct te; cbn; rewrite ?app_nil_r, <- ?app_assoc; reflexivity.
    + intros Ha. inversion Ha as [|? ? Hp Ha1]; subst. inversion Ha1 as [|? ? He Ha2]; subst.
      inversion Ha2 as [|? ? Hn _]; subst. cbn [Text] in *.
      apply ascii_app in He. destruct He as [Hx _].
      repeat constructor; cbn [Text]; apply ascii_app; split; assumption.
    + unfold weight. destruct te; cbn [ins_len del_len Type_ Text op_eqb];
        rewrite !len_cons, ?(@len_nil Diff), ?len_app; lia.
  - repeat split.
    + destruct te; cbn; rewrite ?app_nil_r, <- ?app_assoc; reflexivity.
    + destruct te; cbn; rewrite ?app_nil_r, <- ?app_assoc; reflexivity.
    + intros Ha. inversion Ha as [|? ? Hp Ha1]; subst. inversion Ha1 as [|? ? He Ha2]; subst.
      inversion Ha2 as [|? ? Hn _]; subst. cbn [Text] in *.
      apply ascii_app in He. destruct He as [_ Hy].
      repeat constructor; cbn [Text]; apply ascii_app; split; assumption.
    + unfold weight. destruct te; cbn [ins_len del_len Type_ Text op_eqb];
        rewrite !len_cons, ?(@len_nil Diff), ?len_app; lia.
Qed.

Lemma shift_loop_ends : forall fuel ds i changes,
  1 <= i -> len ds - i <= Z.of_nat fuel ->
  exists ds' changes',
    shift_loop fuel ds i changes = Ok (ds', changes')
    /\ DiffText1 ds' = DiffText1 ds /\ DiffText2 ds' = DiffText2 ds
    /\ (ascii_payloads ds -> ascii_payloads ds')
    /\ weight ds' <= weight ds
    /\ (changes' = true -> changes = true \/ weight ds' < weight ds).
Proof.
  induction fuel as [|fuel IH]; intros ds i changes Hi Hf.
  - cbn [shift_loop]. destruct (Z.ltb_spec i (len ds - 1)); [lia|].
    exists ds, changes. repeat split; try lia; auto.
  - cbn [shift_loop]. destruct (Z.ltb_spec i (len ds - 1)) as [Hlt|Hge].
    2:{ exists ds, changes. repeat split; try lia; auto. }
    destruct (split_three ds i Hi Hlt) as (pre & p & e & n & post & -> & Hp).
    destruct (shift_step_cases pre p e n post i changes ltac:(lia))
      as [Es|(Tp & Tn & mid & Hm & Es)]; rewrite Es; cbn [bind].
    + destruct (IH (pre ++ p :: e :: n :: post) (i + 1) changes) as (ds' & c' & El & R);
        [lia|lia|].
      exists ds', c'. split; [exact El|exact R].
    + destruct (shifted_keeps p e n mid Tp Tn Hm) as (K1 & K2 & Ka & Kw).
      assert (Hlm : len mid = 2).
      { inversion Hm; reflexivity. }
      destruct (IH (pre ++ mid ++ post) (i + 1) true) as (ds' & c' & El & T1 & T2 & Ha & Hw & Hc).
      { lia. }
      { rewrite !len_app, !len_cons in *. lia. }
      exists ds', c'. split; [exact El|].
      change (pre ++ p :: e :: n :: post) with (pre ++ [p; e; n] ++ post).
      rewrite T1, T2, !DiffText1_app, !DiffText2_app, K1, K2.
      assert (Hww : weight (pre ++ mid ++ post) = weight (pre ++ [p; e; n] ++ post) - 1).
      { rewrite !weight_app, Kw. lia. }
      repeat split.
      * intros Hall. apply Ha. unfold ascii_payloads in *.
        rewrite !Forall_app in *. destruct Hall as (A1 & A2 & A3).
        repeat split; try assumption. apply Ka. exact A2.
      * lia.
      * intros _. right. lia.
Qed.

(** ** The first pass of [DiffCleanupMerge] *)

Lemma splice_mid (a b c : list Diff) i amount elements :
  i = len a -> amount = len b ->
  splice (a ++ b ++ c) i amount elements = Ok (a ++ elements ++ c).
Proof.
  intros -> ->. unfold splice. rewrite app_assoc.
  rewrite (slice_chk_suffix (a ++ b) c) by (rewrite ?len_app; reflexivity).
  cbn [bind]. rewrite <- app_assoc.
  rewrite (slice_chk_prefix a (b ++ c)) by reflexivity. reflexivity.
Qed.

Lemma count_op_nonneg op ds : 0 <= count_op op ds.
Proof. induction ds as [|d ds IH]; cbn [count_op]; [lia|]. destruct (op_eqb _ _); lia. Qed.

Lemma count_op_app op a b : count_op op (a ++ b) = count_op op a + count_op op b.
Proof. induction a as [|d a IH]; cbn [app count_op]; [reflexivity|]. rewrite IH. lia. Qed.

Lemma edits_count run :
  edits run -> count_op DiffDelete run + count_op DiffInsert run = len run.
Proof.
  induction 1 as [|d r Hd _ IH]; [reflexivity|].
  cbn [count_op]. rewrite len_cons. destruct d as [[] t]; cbn in Hd;
    try discriminate; cbn [Type_ op_eqb]; lia.
Qed.

Lemma edits_texts run :
  edits run ->
  len (DiffText1 run) = del_len run /\ len (DiffText2 run) = ins_len run
  /\ (count_op DiffDelete run = 0 -> DiffText1 run = [])
  /\ (count_op DiffInsert run = 0 -> DiffText2 run = []).
Proof.
  induction 1 as [|d r Hd _ (I1 & I2 & I3 & I4)]; [repeat split|].
  pose proof (count_op_nonneg DiffDelete r). pose proof (count_op_nonneg DiffInsert r).
  destruct d as [[] t]; cbn in Hd; try discriminate;
    cbn [DiffText1 DiffText2 del_len ins_len count_op Type_ Text op_eqb negb];
    rewrite ?len_app; repeat split; intros; try lia; auto.
Qed.

Lemma ascii_texts ds :
  ascii_payloads ds -> ascii (DiffText1 ds) /\ ascii (DiffText2 ds).
Proof.
  induction 1 as [|d r Hd _ [I1 I2]]; [split; constructor|].
  cbn [DiffText1 DiffText2].
  destruct (negb (op_eqb (Type_ d) DiffInsert)), (negb (op_eqb (Type_ d) DiffDelete));
    split; try assumption; apply ascii_app; split; assumption.
Qed.

Lemma ascii_common_prefix a b :
  ascii a -> ascii b ->
  exists c a' b', a = c ++ a' /\ b = c ++ b' /\ DiffCommonPrefix a b = len c.
Proof.
  intros Ha Hb. unfold DiffCommonPrefix. rewrite !ascii_runes by assumption.
  destruct (cpl_longest a b) as (c & a' & b' & E1 & E2 & E & _).
  exists c, a', b'. repeat split; assumption.
Qed.

Lemma ascii_common_suffix a b :
  ascii a -> ascii b ->
  exists c a' b', a = a' ++ c /\ b = b' ++ c /\ DiffCommonSuffix a b = len c.
Proof.
  intros Ha Hb. unfold DiffCommonSuffix. rewrite !ascii_runes by assumption.
  destruct (csl_longest a b) as (c & a' & b' & E1 & E2 & E & _).
  exists c, a', b'. repeat split; assumption.
Qed.

Lemma ends_with_equality_last done_ :
  ends_with_equality done_ -> 0 < len done_ ->
  exists done0 t, done_ = done0 ++ [mkDiff DiffEqual t].
Proof. intros [->|H] Hl; [cbn in Hl; lia|exact H]. Qed.

(** The common prefix of the collected insertion and deletion goes to
    the equality before the run, or to a new equality at the front. *)
Lemma merge_prefix_ok (done_ run rest : list Diff) i ndel nins insStr delStr :
  ends_with_equality done_ -> i = len (done_ ++ run) -> ndel + nins = len run ->
  ascii insStr -> ascii delStr ->
  exists done1 c ins' del',
    merge_prefix (done_ ++ run ++ rest) i ndel nins insStr delStr
      = Ok (done1 ++ run ++ rest, len (done1 ++ run), ins', del')
    /\ insStr = c ++ ins' /\ delStr = c ++ del'
    /\ ends_with_equality done1
    /\ DiffText1 done1 = DiffText1 done_ ++ c
    /\ DiffText2 done1 = DiffText2 done_ ++ c
    /\ weight done1 <= weight done_ + len c
    /\ (ascii_payloads done_ -> ascii_payloads done1).
Proof.
  intros Hend -> Hn Hi Hd.
  destruct (ascii_common_prefix insStr delStr Hi Hd) as (c & ins' & del' & -> & -> & Ek).
  unfold merge_prefix. cbv zeta. rewrite Ek.
  destruct (Z.eqb_spec (len c) 0) as [E0|E0]; cbn [negb].
  { apply len_0 in E0. subst c. exists done_, [], ins', del'.
    rewrite !app_nil_r. cbn [app].
    split; [reflexivity|]. split; [reflexivity|]. split; [reflexivity|].
    split; [exact Hend|]. split; [reflexivity|]. split; [reflexivity|].
    split; [cbn; lia|auto]. }
  rewrite (slice_chk_prefix c ins') by reflexivity. cbn [bind].
  rewrite (slice_chk_suffix c ins') by reflexivity.
  rewrite (slice_chk_suffix c del') by reflexivity.
  apply ascii_app in Hi. destruct Hi as [Hc _].
  pose proof (len_nonneg c) as Hc0.
  rewrite len_app. replace (len done_ + len run - ndel - nins) with (len done_) by lia.
  destruct (Z.ltb_spec 0 (len done_)) as [Hpos|Hz].
  - destruct (ends_with_equality_last done_ Hend Hpos) as (done0 & t & ->).
    rewrite len_app. change (len [mkDiff DiffEqual t]) with 1.
    replace (len done0 + 1 - 1) with (len done0) by lia.
    rewrite <- app_assoc. cbn [app].
    rewrite index_app_mid by reflexivity. cbn [bind Type_ Text op_eqb].
    rewrite set_text_app_mid by reflexivity. cbn [bind Type_].
    exists (done0 ++ [mkDiff DiffEqual (t ++ c)]), c, ins', del'.
    rewrite <- !app_assoc. cbn [app]. rewrite !len_app. cbn [bind].
    change (len [mkDiff DiffEqual (t ++ c)]) with 1.
    split.
    { replace (len done0 + len (mkDiff DiffEqual (t ++ c) :: run))
        with (len done0 + 1 + len run) by (rewrite len_cons; lia). reflexivity. }
    split; [reflexivity|]. split; [reflexivity|].
    split; [|split; [|split; [|split]]].
    + right. exists done0, (t ++ c). reflexivity.
    + rewrite !DiffText1_app. cbn. rewrite !app_nil_r, app_assoc. reflexivity.
    + rewrite !DiffText2_app. cbn. rewrite !app_nil_r, app_assoc. reflexivity.
    + rewrite !weight_app. unfold weight. cbn. lia.
    + unfold ascii_payloads. rewrite !Forall_app. intros [A1 A2]. split; [exact A1|].
      inversion A2; subst. constructor; [|constructor]. cbn [Text] in *.
      apply ascii_app. split; assumption.
  - assert (done_ = []) by (apply len_0; pose proof (len_nonneg done_); lia). subst done_.
    cbn [app bind]. exists [mkDiff DiffEqual c], c, ins', del'.
    cbn [app]. rewrite !len_cons, (@len_nil Diff).
    replace (0 + len run + 1) with (1 + len run) by lia.
    split; [reflexivity|]. split; [reflexivity|]. split; [reflexivity|].
    split; [|split; [|split; [|split]]].
    + right. exists [], c. reflexivity.
    + cbn. rewrite app_nil_r. reflexivity.
    + cbn. rewrite app_nil_r. reflexivity.
    + unfold weight. cbn. lia.
    + intros _. constructor; [exact Hc|constructor].
Qed.

(** The common suffix goes to the equality after the run. *)
Lemma merge_suffix_ok (pre : list Diff) d rest i insStr delStr :
  i = len pre -> ascii insStr -> ascii delStr ->
  exists s ins' del',
    merge_suffix (pre ++ d :: rest) i insStr delStr
      = Ok (pre ++ mkDiff (Type_ d) (s ++ Text d) :: rest, ins', del')
    /\ insStr = ins' ++ s /\ delStr = del' ++ s.
Proof.
  intros -> Hi Hd.
  destruct (ascii_common_suffix insStr delStr Hi Hd) as (s & ins' & del' & -> & -> & Ek).
  unfold merge_suffix. cbv zeta. rewrite Ek.
  destruct (Z.eqb_spec (len s) 0) as [E0|E0]; cbn [negb].
  { apply len_0 in E0. subst s. exists [], ins', del'.
    rewrite !app_nil_r. destruct d. repeat split. }
  rewrite index_app_mid by reflexivity. cbn [bind].
  rewrite !len_app.
  replace (len ins' + len s - len s) with (len ins') by lia.
  replace (len del' + len s - len s) with (len del') by lia.
  rewrite (slice_chk_suffix ins' s) by (rewrite ?len_app; reflexivity). cbn [bind].
  rewrite set_text_app_mid by reflexivity. cbn [bind].
  rewrite (slice_chk_prefix ins' s) by reflexivity.
  rewrite (slice_chk_prefix del' s) by reflexivity. cbn [bind].
  exists s, ins', del'. repeat split.
Qed.

Lemma weight_equality x : weight [mkDiff DiffEqual x] = 1.
Proof. reflexivity. Qed.

Lemma ascii_payloads_app a b :
  ascii_payloads (a ++ b) <-> ascii_payloads a /\ ascii_payloads b.
Proof. apply Forall_app. Qed.

(** The step of the first pass at an equality: the run of edits before
    it is replaced by at most one deletion and one insertion, or the
    equality is joined to the one before it, or nothing changes. Either
    way the equality, with the text [x], ends the part that is done. *)
Lemma merge_step_equal (done_ run r : list Diff) (te : gostring) :
  edits run -> ends_with_equality done_ ->
  ascii_payloads (done_ ++ run ++ mkDiff DiffEqual te :: r) ->
  exists done' x,
    merge_step (mkMerge (done_ ++ run ++ mkDiff DiffEqual te :: r) (len (done_ ++ run))
                        (count_op DiffDelete run) (count_op DiffInsert run)
                        (DiffText1 run) (DiffText2 run))
      = Ok (mkMerge (done' ++ mkDiff DiffEqual x :: r) (len done' + 1) 0 0 [] [])
    /\ DiffText1 (done' ++ [mkDiff DiffEqual x]) = DiffText1 (done_ ++ run) ++ te
    /\ DiffText2 (done' ++ [mkDiff DiffEqual x]) = DiffText2 (done_ ++ run) ++ te
    /\ ascii_payloads (done' ++ [mkDiff DiffEqual x])
    /\ weight (done' ++ [mkDiff DiffEqual x]) <= weight (done_ ++ run) + 1
    /\ (x = te \/ weight (done' ++ [mkDiff DiffEqual x]) <= weight (done_ ++ run)).
Proof.
  intros Hrun Hend Hall.
  apply ascii_payloads_app in Hall. destruct Hall as [Adone Hall].
  apply ascii_payloads_app in Hall. destruct Hall as [Arun Hall].
  assert (Ate : ascii te) by (inversion Hall; assumption).
  assert (Ar : ascii_payloads r) by (inversion Hall; assumption).
  pose proof (edits_count run Hrun) as Hcount.
  destruct (edits_texts run Hrun) as (L1 & L2 & Z1 & Z2).
  destruct (ascii_texts run Arun) as [A1 A2].
  pose proof (count_op_nonneg DiffDelete run) as Hd0.
  pose proof (count_op_nonneg DiffInsert run) as Hi0.
  unfold merge_step.
  assert (Ei : index (done_ ++ run ++ mkDiff DiffEqual te :: r) (len (done_ ++ run))
               = Ok (mkDiff DiffEqual te)).
  { rewrite app_assoc. apply index_app_mid. reflexivity. }
  rewrite Ei. cbn [bind Type_ Text].
  destruct (Z.ltb_spec 1 (count_op DiffDelete run + count_op DiffInsert run)) as [Hmany|Hfew].
  - destruct (Z.eqb_spec (count_op DiffDelete run) 0) as [Hnd|Hnd]; cbn [negb andb].
    + (* insertions only *)
      cbn [bind].
      rewrite (splice_mid done_ run) by (rewrite ?len_app; lia). cbn [bind].
      destruct (Z.eqb_spec (count_op DiffInsert run) 0) as [Hni|Hni]; [lia|]. cbn [negb].
      exists (done_ ++ [mkDiff DiffInsert (DiffText2 run)]), te.
      rewrite <- !app_assoc. cbn [app]. rewrite !len_app.
      change (len [mkDiff DiffInsert (DiffText2 run)]) with 1.
      split.
      { replace (len done_ + len run - count_op DiffDelete run - count_op DiffInsert run
                 + 1 + 1) with (len done_ + 1 + 1) by lia. reflexivity. }
      change (done_ ++ mkDiff DiffInsert (DiffText2 run) :: [mkDiff DiffEqual te])
        with (done_ ++ [mkDiff DiffInsert (DiffText2 run)] ++ [mkDiff DiffEqual te]).
      rewrite !DiffText1_app, !DiffText2_app, !weight_app, (Z1 Hnd).
      split; [cbn; rewrite ?app_nil_r; reflexivity|].
      split; [cbn; rewrite ?app_nil_r, <- ?app_assoc; reflexivity|].
      split.
      { apply ascii_payloads_app. split; [exact Adone|].
        repeat constructor; cbn [Text]; assumption. }
      assert (weight [mkDiff DiffInsert (DiffText2 run)] <= weight run).
      { unfold weight. cbn [ins_len del_len Type_ Text op_eqb]. rewrite len_cons, (@len_nil Diff).
        pose proof (del_len_nonneg run). lia. }
      rewrite !weight_equality. split; [lia|left; reflexivity].
    + destruct (Z.eqb_spec (count_op DiffInsert run) 0) as [Hni|Hni]; cbn [negb andb].
      * (* deletions only *)
        cbn [bind].
        rewrite (splice_mid done_ run) by (rewrite ?len_app; lia). cbn [bind].
        exists (done_ ++ [mkDiff DiffDelete (DiffText1 run)]), te.
        rewrite <- !app_assoc. cbn [app]. rewrite !len_app.
        change (len [mkDiff DiffDelete (DiffText1 run)]) with 1.
        split.
        { replace (len done_ + len run - count_op DiffDelete run - count_op DiffInsert run
                   + 1 + 1) with (len done_ + 1 + 1) by lia. reflexivity. }
        change (done_ ++ mkDiff DiffDelete (DiffText1 run) :: [mkDiff DiffEqual te])
          with (done_ ++ [mkDiff DiffDelete (DiffText1 run)] ++ [mkDiff DiffEqual te]).
        rewrite !DiffText1_app, !DiffText2_app, !weight_app, (Z2 Hni).
        split; [cbn; rewrite ?app_nil_r, <- ?app_assoc; reflexivity|].
        split; [cbn; rewrite ?app_nil_r; reflexivity|].
        split.
        { apply ascii_payloads_app. split; [exact Adone|].
          repeat constructor; cbn [Text]; assumption. }
        assert (weight [mkDiff DiffDelete (DiffText1 run)] <= weight run).
        { unfold weight. cbn [ins_len del_len Type_ Text op_eqb].
          rewrite len_cons, (@len_nil Diff). pose proof (ins_len_nonneg run). lia. }
        rewrite !weight_equality. split; [lia|left; reflexivity].
      * (* both kinds *)
        destruct (merge_prefix_ok done_ run (mkDiff DiffEqual te :: r) (len (done_ ++ run))
                    (count_op DiffDelete run) (count_op DiffInsert run)
                    (DiffText2 run) (DiffText1 run) Hend eq_refl Hcount A2 A1)
          as (done1 & c & ins' & del' & Ep & Ec2 & Ec1 & Hend1 & T1 & T2 & W1 & Ad1).
        rewrite Ep. cbn [bind].
        rewrite Ec2 in A2. rewrite Ec1 in A1.
        apply ascii_app in A2, A1. destruct A2 as [Ac Ai']. destruct A1 as [_ Ad'].
        destruct (merge_suffix_ok (done1 ++ run) (mkDiff DiffEqual te) r (len (done1 ++ run))
                    ins' del' eq_refl Ai' Ad')
          as (s & ins2 & del2 & Es & Es2 & Es1).
        rewrite <- app_assoc in Es. rewrite Es. cbn [bind Type_ Text].
        rewrite <- app_assoc.
        rewrite (splice_mid done1 run) by (rewrite ?len_app; lia). cbn [bind].
        exists (done1 ++ [mkDiff DiffDelete del2; mkDiff DiffInsert ins2]), (s ++ te).
        rewrite <- !app_assoc. cbn [app]. rewrite !len_app.
        change (len [mkDiff DiffDelete del2; mkDiff DiffInsert ins2]) with 2.
        split.
        { replace (len done1 + len run - count_op DiffDelete run - count_op DiffInsert run
                   + 1 + 1 + 1) with (len done1 + 2 + 1) by lia. reflexivity. }
        change (done1 ++ mkDiff DiffDelete del2 :: mkDiff DiffInsert ins2
                  :: [mkDiff DiffEqual (s ++ te)])
          with (done1 ++ [mkDiff DiffDelete del2; mkDiff DiffInsert ins2]
                  ++ [mkDiff DiffEqual (s ++ te)]).
        rewrite !DiffText1_app, !DiffText2_app, !weight_app, T1, T2, Ec1, Ec2, Es1, Es2.
        rewrite Es2 in Ai'. rewrite Es1 in Ad'.
        apply ascii_app in Ai', Ad'.
        split; [cbn; rewrite ?app_nil_r, <- ?app_assoc; reflexivity|].
        split; [cbn; rewrite ?app_nil_r, <- ?app_assoc; reflexivity|].
        split.
        { apply ascii_payloads_app. split; [apply Ad1; exact Adone|].
          repeat constructor; cbn [Text]; try tauto. apply ascii_app. tauto. }
        assert (Hw : weight [mkDiff DiffDelete del2; mkDiff DiffInsert ins2]
                     = weight run - len run + 2 - 2 * len c - 2 * len s).
        { unfold weight. rewrite <- L1, <- L2, Ec1, Ec2, Es1, Es2.
          cbn [ins_len del_len Type_ Text op_eqb]. rewrite !len_app, !len_cons, (@len_nil Diff).
          lia. }
        rewrite !weight_equality.
        pose proof (len_nonneg c). pose proof (len_nonneg s).
        split; [lia|].
        destruct s as [|b s]; [left; reflexivity|right].
        rewrite len_cons in *. pose proof (len_nonneg s). lia.
  - (* at most one edit in the run *)
    destruct run as [|e [|e2 run]].
    + cbn [app] in *. rewrite app_nil_r in *.
      destruct (Z.eqb_spec (len done_) 0) as [Hz|Hnz]; cbn [negb bind].
      * apply len_0 in Hz. subst done_. cbn [app]. exists [], te.
        cbn [app]. split; [reflexivity|].
        split; [cbn; rewrite ?app_nil_r; reflexivity|].
        split; [cbn; rewrite ?app_nil_r; reflexivity|].
        split; [repeat constructor; exact Ate|].
        rewrite weight_equality. split; [cbn; lia|left; reflexivity].
      * destruct (ends_with_equality_last done_ Hend) as (done0 & t & ->).
        { pose proof (len_nonneg done_). lia. }
        rewrite len_app. change (len [mkDiff DiffEqual t]) with 1.
        replace (len done0 + 1 - 1) with (len done0) by lia.
        rewrite <- app_assoc. cbn [app].
        rewrite index_app_mid by reflexivity. cbn [bind Type_ Text op_eqb].
        rewrite set_text_app_mid by reflexivity. cbn [bind Type_].
        change (done0 ++ mkDiff DiffEqual (t ++ te) :: mkDiff DiffEqual te :: r)
          with (done0 ++ [mkDiff DiffEqual (t ++ te)] ++ mkDiff DiffEqual te :: r).
        rewrite app_assoc.
        rewrite (slice_chk_prefix (done0 ++ [mkDiff DiffEqual (t ++ te)]))
          by (rewrite len_app; reflexivity). cbn [bind].
        change ((done0 ++ [mkDiff DiffEqual (t ++ te)]) ++ mkDiff DiffEqual te :: r)
          with ((done0 ++ [mkDiff DiffEqual (t ++ te)]) ++ [mkDiff DiffEqual te] ++ r).
        rewrite app_assoc.
        rewrite (slice_chk_suffix _ r) by (rewrite ?len_app; reflexivity). cbn [bind].
        exists done0, (t ++ te).
        rewrite <- !app_assoc. cbn [app].
        split; [reflexivity|].
        apply ascii_payloads_app in Adone. destruct Adone as [Ad0 At].
        inversion At; subst. cbn [Text] in *.
        rewrite !DiffText1_app, !DiffText2_app, !weight_app.
        split; [cbn; rewrite ?app_nil_r, <- ?app_assoc; reflexivity|].
        split; [cbn; rewrite ?app_nil_r, <- ?app_assoc; reflexivity|].
        split.
        { apply ascii_payloads_app. split; [exact Ad0|].
          repeat constructor. cbn [Text]. apply ascii_app. split; assumption. }
        rewrite !weight_equality. split; [lia|right; lia].
    + inversion Hrun as [|? ? He _]; subst.
      assert (Hne : len (done_ ++ [e]) <> 0).
      { rewrite len_app. pose proof (len_nonneg done_). cbn. lia. }
      destruct (Z.eqb_spec (len (done_ ++ [e])) 0) as [Hz|_]; [contradiction|]. cbn [negb].
      assert (Ep : index (done_ ++ [e] ++ mkDiff DiffEqual te :: r) (len (done_ ++ [e]) - 1)
                   = Ok e).
      { cbn [app]. apply index_app_mid. rewrite len_app. cbn. lia. }
      rewrite Ep. cbn [bind].
      unfold is_edit in He. apply negb_true_iff in He. rewrite He.
      exists (done_ ++ [e]), te. rewrite <- !app_assoc. cbn [app].
      split; [reflexivity|].
      change (done_ ++ e :: [mkDiff DiffEqual te]) with (done_ ++ [e] ++ [mkDiff DiffEqual te]).
      rewrite !app_assoc, !DiffText1_app, !DiffText2_app, !weight_app.
      split; [cbn; rewrite ?app_nil_r; reflexivity|].
      split; [cbn; rewrite ?app_nil_r; reflexivity|].
      split.
      { rewrite <- app_assoc. apply ascii_payloads_app. split; [exact Adone|].
        apply ascii_payloads_app. split; [exact Arun|]. repeat constructor. exact Ate. }
      rewrite !weight_equality. split; [lia|left; reflexivity].
    + rewrite !len_cons in Hcount. pose proof (len_nonneg run). lia.
Qed.

(** The first pass on a script that ends with the dummy entry: it ends
    within the fuel, keeps the two texts, and leaves a last entry that
    is empty unless the pass took weight away. *)
Lemma merge_loop_ends (rest' : list Diff) : forall fuel done_ run,
  edits run -> ends_with_equality done_ ->
  ascii_payloads (done_ ++ run ++ rest' ++ [mkDiff DiffEqual []]) ->
  (length rest' < fuel)%nat ->
  exists ds' d,
    merge_loop fuel (mkMerge (done_ ++ run ++ rest' ++ [mkDiff DiffEqual []])
                             (len (done_ ++ run))
                             (count_op DiffDelete run) (count_op DiffInsert run)
                             (DiffText1 run) (DiffText2 run))
      = Ok (mkMerge (ds' ++ [d]) (len (ds' ++ [d])) 0 0 [] [])
    /\ DiffText1 (ds' ++ [d]) = DiffText1 (done_ ++ run ++ rest')
    /\ DiffText2 (ds' ++ [d]) = DiffText2 (done_ ++ run ++ rest')
    /\ ascii_payloads (ds' ++ [d])
    /\ weight (ds' ++ [d]) <= weight (done_ ++ run ++ rest') + 1
    /\ (Text d = [] \/ weight (ds' ++ [d]) <= weight (done_ ++ run ++ rest')).
Proof.
  induction rest' as [|d rest IH]; intros fuel done_ run Hrun Hend Hall Hfuel.
  - destruct fuel as [|fuel]; [cbn in Hfuel; lia|].
    cbn [app] in *. cbn [merge_loop m_i m_ds].
    rewrite !len_app, len_cons, (@len_nil Diff).
    pose proof (len_nonneg done_). pose proof (len_nonneg run).
    destruct (Z.ltb_spec (len done_ + len run) (len done_ + (len run + (1 + 0)))); [|lia].
    destruct (merge_step_equal done_ run [] [] Hrun Hend Hall)
      as (done' & x & Es & T1 & T2 & Ha & Hw & Hx).
    rewrite len_app in Es. rewrite Es. cbn [bind].
    assert (Hstop : forall f st, m_i st = len (m_ds st) -> merge_loop f st = Ok st).
    { intros f st E. destruct f; cbn [merge_loop]; rewrite E, Z.ltb_irrefl; reflexivity. }
    rewrite Hstop by (cbn [m_i m_ds]; rewrite len_app; reflexivity).
    exists done', (mkDiff DiffEqual x). rewrite !app_nil_r in *. rewrite len_app.
    split; [reflexivity|]. cbn [Text].
    split; [exact T1|]. split; [exact T2|]. split; [exact Ha|]. split; [exact Hw|exact Hx].
  - destruct fuel as [|fuel]; [cbn in Hfuel; lia|].
    cbn [length] in Hfuel. cbn [merge_loop m_i m_ds].
    assert (Hlt : (len (done_ ++ run)
                   <? len (done_ ++ run ++ (d :: rest) ++ [mkDiff DiffEqual []])) = true).
    { apply Z.ltb_lt. rewrite !len_app, !len_cons, (@len_nil Diff).
      pose proof (len_nonneg rest). lia. }
    rewrite Hlt.
    destruct d as [[] t].
    + (* a deletion joins the run *)
      unfold merge_step.
      assert (Ei : index (done_ ++ run ++ (mkDiff DiffDelete t :: rest) ++ [mkDiff DiffEqual []])
                         (len (done_ ++ run)) = Ok (mkDiff DiffDelete t)).
      { rewrite app_assoc. cbn [app]. apply index_app_mid. reflexivity. }
      rewrite Ei. cbn [bind Type_ Text].
      assert (Hall' : ascii_payloads
                (done_ ++ (run ++ [mkDiff DiffDelete t]) ++ rest ++ [mkDiff DiffEqual []])).
      { rewrite <- app_assoc. exact Hall. }
      destruct (IH fuel done_ (run ++ [mkDiff DiffDelete t])) as (ds' & d' & El & R);
        [apply Forall_app; split; [exact Hrun|repeat constructor]|exact Hend|exact Hall'|lia|].
      exists ds', d'.
      rewrite !count_op_app, DiffText1_app, DiffText2_app, !len_app, <- !app_assoc in El.
      cbn [count_op DiffText1 DiffText2 Type_ Text op_eqb negb app] in El.
      rewrite ?app_nil_r, ?Z.add_0_r, len_cons, (@len_nil Diff) in El.
      rewrite len_app.
      replace (len done_ + len run + 1) with (len done_ + (len run + (1 + 0))) by lia.
      cbn [app]. rewrite El, <- (len_app ds' [d']). rewrite <- !app_assoc in R.
      split; [reflexivity|exact R].
    + (* an insertion joins the run *)
      unfold merge_step.
      assert (Ei : index (done_ ++ run ++ (mkDiff DiffInsert t :: rest) ++ [mkDiff DiffEqual []])
                         (len (done_ ++ run)) = Ok (mkDiff DiffInsert t)).
      { rewrite app_assoc. cbn [app]. apply index_app_mid. reflexivity. }
      rewrite Ei. cbn [bind Type_ Text].
      assert (Hall' : ascii_payloads
                (done_ ++ (run ++ [mkDiff DiffInsert t]) ++ rest ++ [mkDiff DiffEqual []])).
      { rewrite <- app_assoc. exact Hall. }
      destruct (IH fuel done_ (run ++ [mkDiff DiffInsert t])) as (ds' & d' & El & R);
        [apply Forall_app; split; [exact Hrun|repeat constructor]|exact Hend|exact Hall'|lia|].
      exists ds', d'.
      rewrite !count_op_app, DiffText1_app, DiffText2_app, !len_app, <- !app_assoc in El.
      cbn [count_op DiffText1 DiffText2 Type_ Text op_eqb negb app] in El.
      rewrite ?app_nil_r, ?Z.add_0_r, len_cons, (@len_nil Diff) in El.
      rewrite len_app.
      replace (len done_ + len run + 1) with (len done_ + (len run + (1 + 0))) by lia.
      cbn [app]. rewrite El, <- (len_app ds' [d']). rewrite <- !app_assoc in R.
      split; [reflexivity|exact R].
    + (* an equality ends the run *)
      cbn [app] in *.
      destruct (merge_step_equal done_ run (rest ++ [mkDiff DiffEqual []]) t Hrun Hend Hall)
        as (done' & x & Es & T1 & T2 & Ha & Hw & Hx).
      rewrite Es. cbn [bind].
      apply ascii_payloads_app in Hall. destruct Hall as [_ Hall].
      apply ascii_payloads_app in Hall. destruct Hall as [_ Hall].
      inversion Hall as [|? ? _ Hrest]; subst.
      destruct (IH fuel (done' ++ [mkDiff DiffEqual x]) [])
        as (ds' & d' & El & R1 & R2 & Ra & Rw & Rx).
      { constructor. }
      { right. exists done', x. reflexivity. }
      { cbn [app]. apply ascii_payloads_app. split; [exact Ha|exact Hrest]. }
      { lia. }
      exists ds', d'.
      cbn [count_op DiffText1 DiffText2 app] in El.
      rewrite app_nil_r, len_app, <- app_assoc in El. cbn [app] in El.
      change (len [mkDiff DiffEqual x]) with 1 in El.
      split; [exact El|].
      cbn [app] in R1, R2, Rw, Rx.
      rewrite R1, R2.
      change (done_ ++ run ++ mkDiff DiffEqual t :: rest)
        with (done_ ++ run ++ [mkDiff DiffEqual t] ++ rest).
      rewrite !DiffText1_app, !DiffText2_app, !weight_app in *.
      rewrite T1, T2, weight_equality.
      split; [cbn; rewrite ?app_nil_r, <- ?app_assoc; reflexivity|].
      split; [cbn; rewrite ?app_nil_r, <- ?app_assoc; reflexivity|].
      split; [exact Ra|].
      split; [lia|].
      destruct Rx as [Rx|Rx]; [left; exact Rx|right; lia].
Qed.

Lemma weight_pos d : 1 <= weight [d].
Proof.
  unfold weight. rewrite len_cons, (@len_nil Diff).
  pose proof (ins_len_nonneg [d]). pose proof (del_len_nonneg [d]). lia.
Qed.

Lemma empty_entry_texts d :
  Text d = [] -> DiffText1 [d] = [] /\ DiffText2 [d] = [].
Proof.
  destruct d as [[] t]; cbn [Text]; intros ->; split; reflexivity.
Qed.

(** [DiffCleanupMerge] on payloads of bytes below 0x80: with fuel beyond
    the weight of the script it returns a script with the same two
    texts, payloads below 0x80 and no more weight. *)
Lemma DiffCleanupMerge_ascii : forall fuel ds,
  ascii_payloads ds -> weight ds < Z.of_nat fuel ->
  exists ds',
    DiffCleanupMerge_fuel fuel ds = Ok ds'
    /\ DiffText1 ds' = DiffText1 ds /\ DiffText2 ds' = DiffText2 ds
    /\ ascii_payloads ds' /\ weight ds' <= weight ds.
Proof.
  induction fuel as [|fuel IH]; intros ds Hall Hfuel.
  { pose proof (weight_nonneg ds). lia. }
  cbn [DiffCleanupMerge_fuel]. cbv zeta.
  destruct (merge_loop_ends ds (2 * length (ds ++ [mkDiff DiffEqual []]) + 2) [] [])
    as (ds1 & d & El & T1 & T2 & Ha & Hw & Hd).
  { constructor. }
  { left. reflexivity. }
  { cbn [app]. apply ascii_payloads_app. split; [exact Hall|repeat constructor]. }
  { rewrite length_app. lia. }
  cbn [app count_op DiffText1 DiffText2] in El, T1, T2, Hw, Hd.
  change (len []) with 0 in El. rewrite El. cbn [bind m_ds].
  rewrite len_app. change (len [d]) with 1.
  replace (len ds1 + 1 - 1) with (len ds1) by lia.
  rewrite index_app_mid by reflexivity. cbn [bind].
  assert (Hcut : exists ds2,
            (if len (Text d) =? 0 then slice_chk (ds1 ++ [d]) 0 (len ds1) else Ok (ds1 ++ [d]))
              = Ok ds2
            /\ DiffText1 ds2 = DiffText1 ds /\ DiffText2 ds2 = DiffText2 ds
            /\ ascii_payloads ds2 /\ weight ds2 <= weight ds).
  { destruct (Z.eqb_spec (len (Text d)) 0) as [E0|E0].
    - apply len_0 in E0. destruct (empty_entry_texts d E0) as [D1 D2].
      exists ds1. rewrite slice_chk_prefix by reflexivity.
      rewrite DiffText1_app, D1, app_nil_r in T1.
      rewrite DiffText2_app, D2, app_nil_r in T2.
      apply ascii_payloads_app in Ha. rewrite weight_app in Hw.
      pose proof (weight_pos d).
      repeat split; try assumption; try tauto. lia.
    - exists (ds1 ++ [d]).
      destruct Hd as [Hd|Hd]; [rewrite Hd in E0; cbn in E0; lia|].
      repeat split; assumption. }
  destruct Hcut as (ds2 & -> & C1 & C2 & Ca & Cw). cbn [bind].
  destruct (shift_loop_ends (length ds2) ds2 1 false)
    as (ds3 & changes & Es & S1 & S2 & Sa & Sw & Sc).
  { lia. }
  { unfold len. lia. }
  rewrite Es. cbn [bind].
  destruct changes.
  - destruct Sc as [Sc|Sc]; [reflexivity|discriminate|].
    destruct (IH ds3) as (ds' & E & R1 & R2 & Ra & Rw); [apply Sa; exact Ca|lia|].
    exists ds'. rewrite E, R1, R2, S1, S2, C1, C2. repeat split; try assumption. lia.
  - exists ds3. rewrite S1, S2, C1, C2. repeat split; auto. lia.
Qed.

(** X22. On a script whose payloads are bytes below 0x80, [DiffCleanupMerge]
    returns, given fuel beyond the number of entries and the bytes of
    the edits, and the script it returns has the source text and the
    destination text of the script it was given. *)
Theorem DiffCleanupMerge_keeps_texts (fuel : nat) (ds : list Diff) :
  ascii_payloads ds -> weight ds < Z.of_nat fuel ->
  exists ds',
    DiffCleanupMerge_fuel fuel ds = Ok ds'
    /\ DiffText1 ds' = DiffText1 ds /\ DiffText2 ds' = DiffText2 ds.
Proof.
  intros Ha Hf. destruct (DiffCleanupMerge_ascii fuel ds Ha Hf) as (ds' & E & T1 & T2 & _).
  exists ds'. repeat split; assumption.
Qed.

Lemma DiffCleanupMerge_keeps_texts_witness :
  exists ds',
    DiffCleanupMerge_fuel 8
      [mkDiff DiffDelete [97]; mkDiff DiffInsert [97; 98]; mkDiff DiffEqual [99]] = Ok ds'
    /\ DiffText1 ds' = [97; 99] /\ DiffText2 ds' = [97; 98; 99].
Proof.
  apply (DiffCleanupMerge_keeps_texts 8
           [mkDiff DiffDelete [97]; mkDiff DiffInsert [97; 98]; mkDiff DiffEqual [99]]).
  - repeat (constructor; try lia).
  - vm_compute. reflexivity.
Defined.

(** X23. On a script whose payloads are bytes below 0x80, the script that
    [DiffCleanupMerge] returns has no more entries and edited bytes,
    taken together, than the script it was given, and its payloads are
    bytes below 0x80 again. *)
Theorem DiffCleanupMerge_never_grows (fuel : nat) (ds ds' : list Diff) :
  ascii_payloads ds -> weight ds < Z.of_nat fuel ->
  DiffCleanupMerge_fuel fuel ds = Ok ds' ->
  weight ds' <= weight ds /\ ascii_payloads ds'.
Proof.
  intros Ha Hf E. destruct (DiffCleanupMerge_ascii fuel ds Ha Hf) as (ds2 & E2 & _ & _ & A & W).
  rewrite E in E2. injection E2 as <-. split; assumption.
Qed.

Lemma DiffCleanupMerge_never_grows_witness :
  weight [mkDiff DiffInsert [97; 98]; mkDiff DiffEqual [97; 99]]
    <= weight [mkDiff DiffEqual [97]; mkDiff DiffInsert [98; 97]; mkDiff DiffEqual [99]]
  /\ ascii_payloads [mkDiff DiffInsert [97; 98]; mkDiff DiffEqual [97; 99]].
Proof.
  apply (DiffCleanupMerge_never_grows 8
           [mkDiff DiffEqual [97]; mkDiff DiffInsert [98; 97]; mkDiff DiffEqual [99]]
           [mkDiff DiffInsert [97; 98]; mkDiff DiffEqual [97; 99]]).
  - repeat (constructor; try lia).
  - vm_compute. reflexivity.
  - vm_compute. reflexivity.
Defined.

(** ** [DiffCleanupEfficiency] as a whole *)

Lemma eff_loop_preserves (P : list Diff -> Prop) (editCost : Z) :
  (forall hd e tl, P (hd ++ [mkDiff DiffEqual e] ++ tl) ->
                   P (hd ++ [mkDiff DiffDelete e; mkDiff DiffInsert e] ++ tl)) ->
  forall fuel st st',
    eff_inv st -> eff_loop editCost fuel st = Ok st' -> P (e_diffs st) -> P (e_diffs st').
Proof.
  intros HP. induction fuel as [|fuel IH]; intros st st' Hinv; cbn [eff_loop].
  - destruct (e_i st <? len (e_diffs st)); [discriminate|].
    intros E. injection E as <-. auto.
  - destruct (Z.ltb_spec (e_i st) (len (e_diffs st))) as [Hlt|Hge].
    2:{ intros E. injection E as <-. auto. }
    destruct (eff_step_cases editCost st Hinv Hlt) as (st1 & Es & Hinv1 & Hc).
    rewrite Es. cbn [bind]. intros El Hp. apply (IH st1 st' Hinv1 El).
    destruct Hc as [(Hsame & _)|(hd & e & tl & Hd & Hd1 & _)].
    + rewrite Hsame. exact Hp.
    + rewrite Hd1. apply HP. rewrite <- Hd. exact Hp.
Qed.

Lemma edit_bytes_texts ds :
  del_len ds <= len (DiffText1 ds) /\ ins_len ds <= len (DiffText2 ds).
Proof.
  induction ds as [|d ds [I1 I2]]; [cbn; lia|].
  pose proof (len_nonneg (Text d)).
  destruct d as [[] t]; cbn [del_len ins_len DiffText1 DiffText2 Type_ Text op_eqb negb] in *;
    rewrite ?len_app; lia.
Qed.

(** X24. On a script whose payloads are bytes below 0x80, [DiffCleanupEfficiency]
    returns, given fuel for [DiffCleanupMerge] beyond twice the number
    of entries and the lengths of the two texts, and the script it
    returns has the source text and the destination text of the script
    it was given. *)
Theorem DiffCleanupEfficiency_keeps_texts (DiffEditCost : Z) (merge_fuel : nat)
    (diffs : list Diff) :
  ascii_payloads diffs ->
  2 * len diffs + len (DiffText1 diffs) + len (DiffText2 diffs) < Z.of_nat merge_fuel ->
  exists diffs',
    DiffCleanupEfficiency DiffEditCost merge_fuel diffs = Ok diffs'
    /\ DiffText1 diffs' = DiffText1 diffs /\ DiffText2 diffs' = DiffText2 diffs.
Proof.
  intros Ha Hf. unfold DiffCleanupEfficiency, diffCleanupEfficiency.
  assert (Hinv : eff_inv (mkEff diffs false [] [] 0 false false false false)).
  { repeat split; cbn [e_i e_diffs e_equalities e_lastequality].
    - lia.
    - apply len_nonneg.
    - constructor.
    - left. reflexivity. }
  destruct (eff_loop_ends DiffEditCost (len diffs + count_eq diffs)
              ((length diffs + 1) * (2 * length diffs + 2))
              (mkEff diffs false [] [] 0 false false false false) Hinv eq_refl
              (eff_fuel_enough diffs))
    as (st & El & T1 & T2 & _ & C2).
  rewrite El. cbn [bind]. cbn [e_diffs] in *.
  destruct (e_changes st).
  2:{ exists (e_diffs st). rewrite T1, T2. repeat split. }
  set (P := fun ds : list Diff =>
              ascii_payloads ds
              /\ len ds + count_eq ds = len diffs + count_eq diffs).
  assert (Hp : P (e_diffs st)).
  { apply (eff_loop_preserves P DiffEditCost) with (3 := El);
      [|exact Hinv|split; [exact Ha|reflexivity]].
    intros hd e tl [A B]. split.
    - unfold ascii_payloads in *. rewrite !Forall_app in *. destruct A as (A1 & A2 & A3).
      inversion A2; subst. repeat split; try assumption. repeat constructor; assumption.
    - destruct (replaced_count hd tl e). lia. }
  destruct Hp as [Ha' Hb].
  destruct (DiffCleanupMerge_ascii merge_fuel (e_diffs st) Ha') as (ds' & E & R1 & R2 & _).
  { destruct (edit_bytes_texts (e_diffs st)) as [B1 B2]. rewrite T1, T2 in *.
    pose proof (count_eq_bounds diffs). pose proof (count_eq_bounds (e_diffs st)).
    unfold weight. lia. }
  exists ds'. rewrite E, R1, R2, T1, T2. repeat split.
Qed.

(** The script of the test "Four-edit elimination" with the edit cost 4. *)
Lemma DiffCleanupEfficiency_keeps_texts_witness :
  exists diffs',
    DiffCleanupEfficiency 4 30
      [mkDiff DiffDelete [97; 98]; mkDiff DiffInsert [49; 50];
       mkDiff DiffEqual [120; 121; 122];
       mkDiff DiffDelete [99; 100]; mkDiff DiffInsert [51; 52]] = Ok diffs'
    /\ DiffText1 diffs' = [97; 98; 120; 121; 122; 99; 100]
    /\ DiffText2 diffs' = [49; 50; 120; 121; 122; 51; 52].
Proof.
  apply (DiffCleanupEfficiency_keeps_texts 4 30
           [mkDiff DiffDelete [97; 98]; mkDiff DiffInsert [49; 50];
            mkDiff DiffEqual [120; 121; 122];
            mkDiff DiffDelete [99; 100]; mkDiff DiffInsert [51; 52]]).
  - repeat (constructor; try lia).
  - vm_compute. reflexivity.
Defined.
